(** * QueueCTL: the scheduling and execution engine

    A shallow embedding of [queuectl/models.py], [queuectl/storage.py],
    [queuectl/scheduler.py] and the claim/loop part of [queuectl/worker.py],
    followed by the properties of the engine that were checked against it.

    Conventions of the embedding:
    - the [jobs] table is the list of its rows in insertion order; SQL
      statements are written with the combinators of [Sql];
    - timestamps are the ISO strings the code stores, compared the way SQLite
      compares TEXT (bytewise, [String.leb]);
    - the wall clock, [datetime.isoformat], floating-point powers and the
      child processes are the environment [Env]; code that reads the clock or
      spawns a process lives in the state monad [M] over [World];
    - a call that can raise returns an [Outcome]: the value it returns or
      the exception it raises. *)

From Stdlib Require Import ZArith List String Ascii Bool Lia.
From Stdlib Require Import Permutation Sorted DecimalString SpecFloat.
Import ListNotations.

Local Open Scope string_scope.
Local Open Scope list_scope.
Local Open Scope Z_scope.

(** ** Exceptions *)

(** The exceptions that leave the functions modelled here. *)
Inductive Exception : Set :=
| OverflowError
| ZeroDivisionError
| ValueError.

(** What a call produces. *)
Inductive Outcome (A : Type) : Type :=
| Returns (value : A)
| Raises (e : Exception).

Arguments Returns {A} value.
Arguments Raises {A} e.

(** ** Python values *)

Module Py.

(** Truthiness of an [Optional[str]]: [None] and the empty string are falsy. *)
Definition truthy_str (s : option string) : bool :=
  match s with
  | Some (String _ _) => true
  | _ => false
  end.

(** Truthiness of an [Optional[int]]: [None] and [0] are falsy. *)
Definition truthy_int (n : option Z) : bool :=
  match n with
  | Some n => negb (n =? 0)
  | None => false
  end.

(** [a or b] *)
Definition or_ {A : Type} (truthy : A -> bool) (a b : A) : A :=
  if truthy a then a else b.

(** [str(n)] for an int *)
Definition str_int (n : Z) : string := NilZero.string_of_int (Z.to_int n).

(** [str(n)] for an [Optional[int]], as an f-string renders it *)
Definition str_opt_int (n : option Z) : string :=
  match n with
  | Some n => str_int n
  | None => "None"
  end.

(** A number as [json] reads it and [float()] builds it: an [int], or a
    [float], which is a binary64 value. *)
Inductive Number : Set :=
| PyInt (z : Z)
| PyFloat (x : spec_float).

(** [int(x)] for a float: truncation towards zero. *)
Definition int_of_float (x : spec_float) : Outcome Z :=
  match x with
  | S754_zero _ => Returns 0
  | S754_infinity _ => Raises OverflowError
  | S754_nan => Raises ValueError
  | S754_finite s m e =>
      let a := if 0 <=? e then Z.pos m * 2 ^ e else Z.pos m / 2 ^ (- e) in
      Returns (if s then - a else a)
  end.

(** [int(v)] *)
Definition int_ (v : Number) : Outcome Z :=
  match v with
  | PyInt z => Returns z
  | PyFloat x => int_of_float x
  end.

(** [base ** exponent] for an [int] exponent. An [int] base with a
    non-negative exponent gives the exact [int]. In every other case Python
    computes in floating point: [float_pow] is that computation. *)
Definition pow (float_pow : Number -> Z -> Outcome spec_float)
           (base : Number) (exponent : Z) : Outcome Number :=
  match base with
  | PyInt z =>
      if 0 <=? exponent then Returns (PyInt (z ^ exponent))
      else match float_pow base exponent with
           | Returns y => Returns (PyFloat y)
           | Raises e => Raises e
           end
  | PyFloat _ =>
      match float_pow base exponent with
      | Returns y => Returns (PyFloat y)
      | Raises e => Raises e
      end
  end.

End Py.

(** ** models.py *)

Inductive JobState : Set :=
| PENDING
| PROCESSING
| COMPLETED
| FAILED
| DEAD.

Definition JobState_value (s : JobState) : string :=
  match s with
  | PENDING => "pending"
  | PROCESSING => "processing"
  | COMPLETED => "completed"
  | FAILED => "failed"
  | DEAD => "dead"
  end.

Definition JobState_eqb (a b : JobState) : bool :=
  match a, b with
  | PENDING, PENDING
  | PROCESSING, PROCESSING
  | COMPLETED, COMPLETED
  | FAILED, FAILED
  | DEAD, DEAD => true
  | _, _ => false
  end.

Record Job : Set := mkJob {
  id : string;
  command : string;
  state : JobState;
  attempts : Z;
  max_retries : Z;
  created_at : string;
  updated_at : string;
  priority : Z;
  run_at : option string;
  timeout : option Z;
  output : option string;
  error : option string;
  next_retry_at : option string
}.

(** Attribute assignments [job.f = v]. *)

Definition set_state (v : JobState) (j : Job) : Job :=
  mkJob (id j) (command j) v (attempts j) (max_retries j) (created_at j)
        (updated_at j) (priority j) (run_at j) (timeout j) (output j)
        (error j) (next_retry_at j).

Definition set_attempts (v : Z) (j : Job) : Job :=
  mkJob (id j) (command j) (state j) v (max_retries j) (created_at j)
        (updated_at j) (priority j) (run_at j) (timeout j) (output j)
        (error j) (next_retry_at j).

Definition set_updated_at (v : string) (j : Job) : Job :=
  mkJob (id j) (command j) (state j) (attempts j) (max_retries j)
        (created_at j) v (priority j) (run_at j) (timeout j) (output j)
        (error j) (next_retry_at j).

Definition set_output (v : option string) (j : Job) : Job :=
  mkJob (id j) (command j) (state j) (attempts j) (max_retries j)
        (created_at j) (updated_at j) (priority j) (run_at j) (timeout j) v
        (error j) (next_retry_at j).

Definition set_error (v : option string) (j : Job) : Job :=
  mkJob (id j) (command j) (state j) (attempts j) (max_retries j)
        (created_at j) (updated_at j) (priority j) (run_at j) (timeout j)
        (output j) v (next_retry_at j).

Definition set_next_retry_at (v : option string) (j : Job) : Job :=
  mkJob (id j) (command j) (state j) (attempts j) (max_retries j)
        (created_at j) (updated_at j) (priority j) (run_at j) (timeout j)
        (output j) (error j) v.

(** ** The SQL statements the storage layer issues *)

Module Sql.

Definition Table := list Job.

(** [UPDATE jobs SET ... WHERE ...]: the new table and [cursor.rowcount]. *)
Definition update (whr : Job -> bool) (set : Job -> Job) (t : Table)
  : Table * nat :=
  (map (fun r => if whr r then set r else r) t, List.length (filter whr t)).

(** [SELECT * FROM jobs WHERE ...] *)
Definition select (whr : Job -> bool) (t : Table) : list Job := filter whr t.

Fixpoint insert_row (before : Job -> Job -> bool) (x : Job) (l : list Job)
  : list Job :=
  match l with
  | [] => [x]
  | y :: l' => if before x y then x :: l else y :: insert_row before x l'
  end.

(** [ORDER BY ...], the ordering given as "row [a] may precede row [b]";
    rows that tie stay in table order. *)
Fixpoint order_by (before : Job -> Job -> bool) (l : list Job) : list Job :=
  match l with
  | [] => []
  | x :: l' => insert_row before x (order_by before l')
  end.

(** [LIMIT n]; a negative [n] means no limit in SQLite. *)
Definition limit (n : Z) (l : list Job) : list Job :=
  if n <? 0 then l else firstn (Z.to_nat n) l.

(** [cursor.fetchone()] *)
Definition fetchone (l : list Job) : option Job := hd_error l.

(** [col <= ?] on a nullable TEXT column: NULL compares as not true. *)
Definition text_le (col : option string) (v : string) : bool :=
  match col with
  | Some s => String.leb s v
  | None => false
  end.

(** Ascending order of a nullable TEXT column: NULL sorts first. *)
Definition text_asc (a b : option string) : bool :=
  match a, b with
  | None, _ => true
  | Some _, None => false
  | Some x, Some y => String.leb x y
  end.

(** [sqlite3] binds a Python [int] as a 64-bit INTEGER; executing a
    statement with an [int] parameter outside that range raises
    [OverflowError]. *)
Definition int64 (z : Z) : bool := (- 2 ^ 63 <=? z) && (z <? 2 ^ 63).

(** The same for an [Optional[int]] parameter; [None] is bound as NULL. *)
Definition int64_or_null (v : option Z) : bool :=
  match v with
  | Some z => int64 z
  | None => true
  end.

(** [DELETE FROM jobs WHERE ...]: the new table and [cursor.rowcount]. *)
Definition delete (whr : Job -> bool) (t : Table) : Table * nat :=
  (filter (fun r => negb (whr r)) t, List.length (filter whr t)).

(** [SELECT COUNT( * ) FROM jobs WHERE ...] *)
Definition count (whr : Job -> bool) (t : Table) : nat :=
  List.length (filter whr t).

End Sql.

(** ** The environment: clock, date rendering, child processes *)

(** What [subprocess.Popen(...)] followed by [process.communicate(timeout)]
    does for one job. *)
Inductive Communicate : Set :=
| Raised (message : string)
    (** [Popen] or [communicate] raised an [Exception] with [str(e) = message] *)
| TimeoutExpired (written_so_far : string)
    (** the child outlived the timeout, having written [written_so_far] *)
| Exited (stdout stderr : string) (returncode : Z).

Record Env : Type := mkEnv {
  utcnow : nat -> Z;
    (** the n-th reading of [datetime.utcnow()], in microseconds *)
  isoformat : Z -> string;
    (** [datetime.isoformat()] *)
  communicate : nat -> string -> option Z -> Communicate;
    (** the n-th child process, for its command line and timeout *)
  float_pow : Py.Number -> Z -> Outcome spec_float
    (** [base ** exponent] where Python computes it in floating point (a
        [float] base, or an [int] base with a negative exponent): the
        platform's result, or the [OverflowError] or [ZeroDivisionError] it
        raises *)
}.

(** config.py: the options the engine reads. *)
Record Config : Set := mkConfig {
  cfg_max_retries : Z;
  backoff_base : Py.Number;
    (** an [int] by default; [config set backoff-base] stores a [float] *)
  default_timeout : option Z
}.

Definition DEFAULT_CONFIG : Config := mkConfig 3 (Py.PyInt 2) (Some 300).

Record World : Set := mkWorld {
  jobs : Sql.Table;          (** the rows of the [jobs] table *)
  clock_reads : nat;         (** how many times the clock was read *)
  executions : list string   (** ids of the jobs executed, latest first *)
}.

Definition set_jobs (t : Sql.Table) (w : World) : World :=
  mkWorld t (clock_reads w) (executions w).

(** ** The state monad of the engine *)

Definition M (A : Type) : Type := World -> A * World.

Definition ret {A : Type} (a : A) : M A := fun w => (a, w).

Definition bind {A B : Type} (m : M A) (k : A -> M B) : M B :=
  fun w => let (a, w') := m w in k a w'.

Declare Scope engine_scope.
Delimit Scope engine_scope with engine.
Notation "x <- m ;; k" := (bind m (fun x => k))
  (at level 61, m at next level, right associativity) : engine_scope.
Notation "m ;; k" := (bind m (fun _ => k))
  (at level 61, right associativity) : engine_scope.
Local Open Scope engine_scope.

(** The world and the value a computation returns. *)
Definition exec {A : Type} (m : M A) (w : World) : World := snd (m w).
Definition eval {A : Type} (m : M A) (w : World) : A := fst (m w).

(** The world after one reading of the clock. *)
Definition tick (w : World) : World :=
  mkWorld (jobs w) (S (clock_reads w)) (executions w).

Section Engine.

Variable env : Env.
Variable config : Config.

(** [datetime.utcnow()] *)
Definition read_clock : M Z :=
  fun w => (utcnow env (clock_reads w), tick w).

(** [datetime.utcnow().isoformat() + "Z"] *)
Definition now_iso : M string :=
  t <- read_clock ;;
  ret (isoformat env t ++ "Z")%string.

(** *** models.py: methods of [Job] *)

Definition update_state (new_state : JobState) (err : option string)
           (job : Job) : M Job :=
  let job := set_state new_state job in
  now <- now_iso ;;
  let job := set_updated_at now job in
  ret (if Py.truthy_str err then set_error err job else job).

Definition increment_attempts (job : Job) : M Job :=
  let job := set_attempts (attempts job + 1) job in
  now <- now_iso ;;
  ret (set_updated_at now job).

Definition should_retry (job : Job) : bool :=
  JobState_eqb (state job) FAILED && (attempts job <? max_retries job).

Definition should_move_to_dlq (job : Job) : bool :=
  JobState_eqb (state job) FAILED && (attempts job >=? max_retries job).

(** *** storage.py *)

(** The [int] parameters of the [INSERT] fit the INTEGER columns. *)
Definition bindable (job : Job) : bool :=
  Sql.int64 (attempts job) && Sql.int64 (max_retries job)
  && Sql.int64 (priority job) && Sql.int64_or_null (timeout job).

(** [INSERT INTO jobs ...]. Binding a parameter that is not [bindable]
    raises [OverflowError], which [add_job] does not catch. [id] is the
    PRIMARY KEY, so a second row with the same id raises
    [sqlite3.IntegrityError], for which [add_job] returns [False]. *)
Definition add_job (job : Job) : M (Outcome bool) :=
  fun w =>
    if negb (bindable job) then (Raises OverflowError, w)
    else if existsb (fun r => id r =? id job)%string (jobs w)
    then (Returns false, w)
    else (Returns true, set_jobs (jobs w ++ [job]) w).

(** [SELECT * FROM jobs WHERE id = ?] followed by [fetchone()] *)
Definition row_with_id (job_id : string) (t : Sql.Table) : option Job :=
  Sql.fetchone (Sql.select (fun r => id r =? job_id)%string t).

Definition get_job (job_id : string) : M (option Job) :=
  fun w => (row_with_id job_id (jobs w), w).

(** [SET command = ?, state = ?, attempts = ?, max_retries = ?,
     priority = ?, run_at = ?, timeout = ?, output = ?, error = ?,
     next_retry_at = ?, updated_at = ?]: the row [r] keeps its [id] and
    [created_at] and takes every other column from [job]. *)
Definition overwrite (job r : Job) : Job :=
  mkJob (id r) (command job) (state job) (attempts job) (max_retries job)
        (created_at r) (updated_at job) (priority job) (run_at job)
        (timeout job) (output job) (error job) (next_retry_at job).

(** [UPDATE jobs SET ... WHERE id = ?]. Every caller passes a job read from
    the table, whose integers were bound when they were stored. *)
Definition update_job (job : Job) : M bool :=
  fun w =>
    let (t, rowcount) :=
      Sql.update (fun r => id r =? id job)%string (overwrite job) (jobs w) in
    (Nat.ltb 0 rowcount, set_jobs t w).

(** [WHERE state = 'pending' AND (run_at IS NULL OR run_at <= now)] *)
Definition pending_and_due (now : string) (r : Job) : bool :=
  JobState_eqb (state r) PENDING
  && (match run_at r with None => true | Some _ => false end
      || Sql.text_le (run_at r) now).

(** [ORDER BY priority DESC, created_at ASC] *)
Definition priority_desc_created_asc (a b : Job) : bool :=
  (priority b <? priority a)
  || ((priority a =? priority b)
      && String.leb (created_at a) (created_at b)).

Definition get_next_pending_job : M (option Job) :=
  now <- now_iso ;;
  fun w =>
    (Sql.fetchone
       (Sql.limit 1
          (Sql.order_by priority_desc_created_asc
             (Sql.select (pending_and_due now) (jobs w)))), w).

(** [WHERE state = 'failed' AND next_retry_at IS NOT NULL
     AND next_retry_at <= now] *)
Definition failed_and_due (now : string) (r : Job) : bool :=
  JobState_eqb (state r) FAILED
  && match next_retry_at r with Some _ => true | None => false end
  && Sql.text_le (next_retry_at r) now.

Definition get_retryable_jobs : M (list Job) :=
  now <- now_iso ;;
  fun w =>
    (Sql.order_by (fun a b => Sql.text_asc (next_retry_at a) (next_retry_at b))
       (Sql.select (failed_and_due now) (jobs w)), w).

(** [UPDATE jobs SET state = 'pending', next_retry_at = NULL, updated_at = now
     WHERE id = ? AND state = 'failed' AND next_retry_at IS NOT NULL
     AND next_retry_at <= now] *)
Definition reset_retryable_job_to_pending (job_id : string) : M bool :=
  now <- now_iso ;;
  fun w =>
    let (t, rowcount) :=
      Sql.update
        (fun r => (id r =? job_id)%string && failed_and_due now r)
        (fun r => set_updated_at now
                    (set_next_retry_at None (set_state PENDING r)))
        (jobs w) in
    (Nat.ltb 0 rowcount, set_jobs t w).

(** [ORDER BY created_at DESC] *)
Definition created_desc (a b : Job) : bool :=
  String.leb (created_at b) (created_at a).

(** [limit] is bound as a parameter of [LIMIT ?]. *)
Definition list_jobs (st : option JobState) (lim : Z)
  : M (Outcome (list Job)) :=
  fun w =>
    if negb (Sql.int64 lim) then (Raises OverflowError, w)
    else
      (Returns
         match st with
         | Some s =>
             Sql.limit lim
               (Sql.order_by created_desc
                  (Sql.select (fun r => JobState_eqb (state r) s) (jobs w)))
         | None =>
             Sql.limit lim (Sql.order_by created_desc (jobs w))
         end, w).

(** The default of [list_jobs]'s [limit] parameter. *)
Definition list_jobs_default_limit : Z := 100.

Definition get_dlq_jobs : M (Outcome (list Job)) :=
  list_jobs (Some DEAD) list_jobs_default_limit.

Definition reset_job_from_dlq (job_id : string) : M (option Job) :=
  r <- get_job job_id ;;
  match r with
  | Some job =>
      if JobState_eqb (state job) DEAD then
        let job := set_state PENDING job in
        let job := set_attempts 0 job in
        let job := set_error None job in
        let job := set_next_retry_at None job in
        now <- now_iso ;;
        let job := set_updated_at now job in
        _ <- update_job job ;;
        ret (Some job)
      else ret None
  | None => ret None
  end.

(** *** scheduler.py: [JobExecutor] *)

(** [timeout = job.timeout or self.timeout] *)
Definition effective_timeout (self_timeout : option Z) (job : Job)
  : option Z :=
  Py.or_ Py.truthy_int (timeout job) self_timeout.

Definition execute (self_timeout : option Z) (job : Job)
  : M (bool * string * option string) :=
  fun w =>
    let timeout := effective_timeout self_timeout job in
    (match communicate env (List.length (executions w)) (command job) timeout
     with
     | Raised message => (false, "", Some message)
     | TimeoutExpired _ =>
         (false, "",
          Some ("Job timed out after " ++ Py.str_opt_int timeout
                ++ " seconds")%string)
     | Exited stdout stderr returncode =>
         let output := (stdout ++ stderr)%string in
         let success := returncode =? 0 in
         let error_msg :=
           if negb success && negb (Py.truthy_str (Some stderr))
           then Some ("Command failed with exit code "
                      ++ Py.str_int returncode)%string
           else if Py.truthy_str (Some stderr) then Some stderr else None in
         (success, output, error_msg)
     end,
     mkWorld (jobs w) (clock_reads w) (id job :: executions w)).

(** *** scheduler.py: [Scheduler] *)

(** [int(base ** attempts)] *)
Definition calculate_retry_delay (attempts : Z) : Outcome Z :=
  match Py.pow (float_pow env) (backoff_base config) attempts with
  | Returns v => Py.int_ v
  | Raises e => Raises e
  end.

(** [datetime.min] and [datetime.max], in microseconds since
    1970-01-01T00:00:00: the years 1 to 9999. *)
Definition datetime_min : Z := -62135596800000000.
Definition datetime_max : Z := 253402300799999999.

(** [timedelta(seconds=delay)], in microseconds; a [timedelta] holds at
    most 999999999 days either way. *)
Definition timedelta_seconds (delay : Z) : Outcome Z :=
  if Z.abs (delay / 86400) <=? 999999999 then Returns (delay * 1000000)
  else Raises OverflowError.

(** [dt + delta] for a [datetime] and a [timedelta] *)
Definition datetime_add (dt delta : Z) : Outcome Z :=
  if (datetime_min <=? dt + delta) && (dt + delta <=? datetime_max)
  then Returns (dt + delta)
  else Raises OverflowError.

(** Nothing is assigned or written when the delay, the [timedelta] or the
    sum raises. *)
Definition schedule_retry (job : Job) : M (Outcome Job) :=
  match calculate_retry_delay (attempts job) with
  | Raises e => ret (Raises e)
  | Returns delay =>
      now <- read_clock ;;
      match timedelta_seconds delay with
      | Raises e => ret (Raises e)
      | Returns delta =>
          match datetime_add now delta with
          | Raises e => ret (Raises e)
          | Returns retry_time =>
              let job :=
                set_next_retry_at
                  (Some (isoformat env retry_time ++ "Z")%string) job in
              job <- update_state FAILED None job ;;
              _ <- update_job job ;;
              ret (Returns job)
          end
      end
  end.

Definition move_to_dlq (job : Job) (err : string) : M Job :=
  job <- update_state DEAD (Some err) job ;;
  let job := set_next_retry_at None job in
  _ <- update_job job ;;
  ret job.

(** [error or "Max retries exceeded"] *)
Definition error_or_default (err : option string) : string :=
  match err with
  | Some (String c s) => String c s
  | _ => "Max retries exceeded"
  end.

Definition process_job (job : Job) : M (Outcome bool) :=
  r <- get_job (id job) ;;
  match r with
  | None => ret (Returns false)
  | Some job =>
      job <- (if negb (JobState_eqb (state job) PROCESSING)
              then job <- update_state PROCESSING None job ;;
                   _ <- update_job job ;;
                   ret job
              else ret job) ;;
      res <- execute (default_timeout config) job ;;
      let '(success, output, err) := res in
      let job := set_output (Some output) job in
      if success then
        job <- update_state COMPLETED None job ;;
        _ <- update_job job ;;
        ret (Returns true)
      else
        job <- increment_attempts job ;;
        if should_retry job then
          r <- schedule_retry job ;;
          match r with
          | Raises e => ret (Raises e)
          | Returns _ => ret (Returns false)
          end
        else if should_move_to_dlq job then
          _ <- move_to_dlq job (error_or_default err) ;;
          ret (Returns false)
        else
          job <- update_state FAILED err job ;;
          _ <- update_job job ;;
          ret (Returns false)
  end.

Definition get_next_job : M (option Job) :=
  retryable_jobs <- get_retryable_jobs ;;
  match retryable_jobs with
  | job :: _ =>
      ok <- reset_retryable_job_to_pending (id job) ;;
      if ok then get_job (id job) else get_next_pending_job
  | [] => get_next_pending_job
  end.

(** *** worker.py: [Worker] *)

(** [UPDATE jobs SET state = 'processing'
     WHERE id = ? AND state = 'pending'] *)
Definition _acquire_job_lock (job_id : string) : M bool :=
  fun w =>
    let (t, rowcount) :=
      Sql.update
        (fun r => (id r =? job_id)%string && JobState_eqb (state r) PENDING)
        (set_state PROCESSING)
        (jobs w) in
    (Nat.ltb 0 rowcount, set_jobs t w).

(** One pass through the body of [_work_loop]'s [while]; the sleeps are
    not modelled. An exception that leaves [process_job] is caught by the
    loop's [except Exception], which prints it and goes on. *)
Definition work_iteration : M unit :=
  next <- get_next_job ;;
  match next with
  | None => ret tt
  | Some job =>
      locked <- _acquire_job_lock (id job) ;;
      if negb locked then ret tt
      else
        r <- get_job (id job) ;;
        match r with
        | None => ret tt
        | Some job => _ <- process_job job ;; ret tt
        end
  end.

Fixpoint work_loop (n : nat) : M unit :=
  match n with
  | O => ret tt
  | S n' => _ <- work_iteration ;; work_loop n'
  end.

(** *** cli.py: [enqueue] and [dlq retry] *)

(** The fields of the JSON object given to [enqueue]; [None] is an
    absent key. *)
Record JobData : Set := mkJobData {
  data_id : string;
  data_command : string;
  data_max_retries : option Z;
  data_priority : option Z;
  data_run_at : option string;
  data_timeout : option Z
}.

(** [Job(id=..., command=..., ...)] with [__post_init__]: a new job is
    pending, has no attempts and both timestamps set to now. *)
Definition Job_init (job_id cmd : string) (retries prio : Z)
           (run : option string) (tmo : option Z) : M Job :=
  now <- now_iso ;;
  ret (mkJob job_id cmd PENDING 0 retries now now prio run tmo
             None None None).

(** The result tells whether the command ends normally. It exits with
    status 1 when [add_job] returns [False] and when an exception is caught
    by its [except Exception]. *)
Definition enqueue (data : JobData) : M bool :=
  job <- Job_init (data_id data) (data_command data)
           (match data_max_retries data with
            | Some k => k
            | None => cfg_max_retries config
            end)
           (match data_priority data with Some p => p | None => 0 end)
           (data_run_at data)
           (match data_timeout data with
            | Some t => Some t
            | None => default_timeout config
            end) ;;
  r <- add_job job ;;
  ret (match r with
       | Returns added => added
       | Raises _ => false
       end).

End Engine.

(** ** storage.py: statistics and deletion *)

(** The members of the [JobState] enumeration, in definition order. *)
Definition JobState_members : list JobState :=
  [PENDING; PROCESSING; COMPLETED; FAILED; DEAD].

(** [get_stats]: the dictionary as its items in insertion order, one count
    per state and then ["total"]. *)
Definition get_stats : M (list (string * nat)) :=
  fun w =>
    (map (fun s => (JobState_value s,
                    Sql.count (fun r => JobState_eqb (state r) s) (jobs w)))
         JobState_members
     ++ [("total", Sql.count (fun _ => true) (jobs w))],
     w).

(** [DELETE FROM jobs WHERE id = ?] *)
Definition delete_job (job_id : string) : M bool :=
  fun w =>
    let (t, rowcount) :=
      Sql.delete (fun r => id r =? job_id)%string (jobs w) in
    (Nat.ltb 0 rowcount, set_jobs t w).

(** [stats.get(key, 0)] on the dictionary [get_stats] returns. *)
Fixpoint stats_get (key : string) (stats : list (string * nat)) : nat :=
  match stats with
  | [] => O
  | (k, v) :: rest => if (k =? key)%string then v else stats_get key rest
  end.

(** * config.py: the configuration manager

    Class [Config] keeps a dict [_config] and a JSON file. The values are
    arbitrary JSON values ([Any] in the source): the model takes their type
    as a parameter, with the integers and strings the defaults need. A Python
    dict is an association list in insertion order; assigning to a key that
    is present keeps its place.

    The file is in one of three conditions: it does not exist, it exists but
    [open] or [json.load] raises [IOError] or [JSONDecodeError], or it holds
    a JSON object, given as the dict [json.load] returns. A file holding
    another JSON document (a list, a number) is outside the model, and so is
    a failing write in [_save_config]; [json.dump] followed by [json.load] is
    taken to return the dict that was written. *)

Module ConfigStore.

Section Values.

Context {Value : Type}.
Variable of_int : Z -> Value.
Variable of_str : string -> Value.

Definition Dict : Type := list (string * Value).

(** [d.get(key)], with [None] for a missing key. *)
Fixpoint dict_get (d : Dict) (key : string) : option Value :=
  match d with
  | [] => None
  | (k, v) :: rest => if (k =? key)%string then Some v else dict_get rest key
  end.

(** [d[key] = value]. *)
Fixpoint dict_set (key : string) (value : Value) (d : Dict) : Dict :=
  match d with
  | [] => [(key, value)]
  | (k, v) :: rest =>
      if (k =? key)%string then (k, value) :: rest
      else (k, v) :: dict_set key value rest
  end.

(** [d.update(other)]. *)
Definition dict_update (d other : Dict) : Dict :=
  fold_left (fun acc kv => dict_set (fst kv) (snd kv) acc) other d.

Definition DEFAULT_CONFIG : Dict :=
  [ ("max_retries", of_int 3);
    ("backoff_base", of_int 2);
    ("default_timeout", of_int 300);
    ("worker_poll_interval", of_int 1);
    ("db_path", of_str "queuectl.db");
    ("log_dir", of_str "logs");
    ("web_dashboard_port", of_int 8080) ]%string.

Inductive File : Type :=
| Missing
| Unreadable
| JsonObject (config : Dict).

(** The object together with the file it is bound to. *)
Record Self : Type := mkSelf {
  config_file : File;
  _config : Dict
}.

Definition _load_config (file : File) : Dict :=
  match file with
  | JsonObject config => dict_update DEFAULT_CONFIG config
  | Unreadable => DEFAULT_CONFIG
  | Missing => DEFAULT_CONFIG
  end.

Definition __init__ (file : File) : Self :=
  {| config_file := file; _config := _load_config file |}.

Definition _save_config (self : Self) : Self :=
  {| config_file := JsonObject (_config self); _config := _config self |}.

(** [get(key, default)]; the source's [default] is [None] when omitted. *)
Definition get (key : string) (default : Value) (self : Self) : Value :=
  match dict_get (_config self) key with
  | Some v => v
  | None => default
  end.

Definition set (key : string) (value : Value) (self : Self) : Self :=
  _save_config {| config_file := config_file self;
                  _config := dict_set key value (_config self) |}.

Definition get_all (self : Self) : Dict := _config self.

Definition reset (self : Self) : Self :=
  _save_config {| config_file := config_file self;
                  _config := DEFAULT_CONFIG |}.

End Values.

End ConfigStore.

(** * Vocabulary of the statements *)

(** ** The store *)

(** The PRIMARY KEY constraint of the table: no two rows share an id. *)
Fixpoint primary_key_ok (t : Sql.Table) : bool :=
  match t with
  | [] => true
  | r :: t' => negb (existsb (fun r' => id r' =? id r)%string t')
               && primary_key_ok t'
  end.

(** [next_retry_at] is set only on a failed job. *)
Definition retry_only_when_failed (r : Job) : bool :=
  match next_retry_at r with
  | None => true
  | Some _ => JobState_eqb (state r) FAILED
  end.

Definition next_retry_inv (t : Sql.Table) : bool :=
  forallb retry_only_when_failed t.

(** The store is well formed: ids are unique and [next_retry_at] is set
    only on failed jobs. *)
Definition store_inv (w : World) : Prop :=
  primary_key_ok (jobs w) = true /\ next_retry_inv (jobs w) = true.

(** A job a worker may start now: pending, and [run_at] unset or not after
    [now]. *)
Definition eligible (now : string) (j : Job) : Prop :=
  state j = PENDING
  /\ (run_at j = None
      \/ exists t, run_at j = Some t /\ String.leb t now = true).

(** [before] as a relation. *)
Definition precedes (before : Job -> Job -> bool) (a b : Job) : Prop :=
  before a b = true.

(** ** Clock and child processes *)

(** What the next [datetime.utcnow().isoformat() + "Z"] evaluates to. *)
Definition now_at (env : Env) (w : World) : string :=
  (isoformat env (utcnow env (clock_reads w)) ++ "Z")%string.

(** The text of the [m]-th clock reading. *)
Definition clock_text (env : Env) (m : nat) : string :=
  (isoformat env (utcnow env m) ++ "Z")%string.

(** The child process [execute] is about to start. *)
Definition next_child (env : Env) (self_timeout : option Z) (job : Job)
           (w : World) : Communicate :=
  communicate env (List.length (executions w)) (command job)
              (effective_timeout self_timeout job).

(** An execution that [execute] reports as not successful. *)
Definition is_failure (c : Communicate) : bool :=
  match c with
  | Exited _ _ returncode => negb (returncode =? 0)
  | _ => true
  end.

(** The error message [execute] reports for a child. *)
Definition error_of (t : option Z) (c : Communicate) : option string :=
  match c with
  | Raised message => Some message
  | TimeoutExpired _ =>
      Some ("Job timed out after " ++ Py.str_opt_int t ++ " seconds")%string
  | Exited _ stderr returncode =>
      if negb (returncode =? 0) && negb (Py.truthy_str (Some stderr))
      then Some ("Command failed with exit code "
                 ++ Py.str_int returncode)%string
      else if Py.truthy_str (Some stderr) then Some stderr else None
  end.

(** Every child process fails (non-zero exit, timeout or spawn error). *)
Definition always_fails (env : Env) : Prop :=
  forall n cmd t, is_failure (communicate env n cmd t) = true.

(** How many times the job [job_id] was executed. *)
Definition executions_of (job_id : string) (w : World) : Z :=
  Z.of_nat (count_occ string_dec (executions w) job_id).

(** ** What the statements do to a row *)

(** What the claim's [UPDATE] does to one row. *)
Definition claim_row (job_id : string) (r : Job) : Job :=
  if (id r =? job_id)%string && JobState_eqb (state r) PENDING
  then set_state PROCESSING r else r.

(** What the retry release's [UPDATE] does to one row. *)
Definition release_row (now job_id : string) (r : Job) : Job :=
  if (id r =? job_id)%string && failed_and_due now r
  then set_updated_at now (set_next_retry_at None (set_state PENDING r))
  else r.

(** What [update_job job]'s [UPDATE] does to any row. *)
Definition write_row (job r : Job) : Job :=
  if (id r =? id job)%string then overwrite job r else r.

(** The record [process_job] writes for a processing job [j] whose execution
    [c] did not succeed: the attribute assignments of the failure path, in
    the order of the code, with [now1] and [now2] the clock readings of
    [increment_attempts] and [update_state]. *)
Definition failed_attempt (self_timeout : option Z) (c : Communicate)
           (now1 now2 : string) (j : Job) : Job :=
  let err := error_of (effective_timeout self_timeout j) c in
  let out := match c with
             | Exited stdout stderr _ => (stdout ++ stderr)%string
             | _ => ""
             end in
  let job := set_output (Some out) j in
  let job := set_updated_at now1 (set_attempts (attempts job + 1) job) in
  let job := set_updated_at now2 (set_state FAILED job) in
  if Py.truthy_str err then set_error err job else job.

(** The record [process_job] writes for a job [j] whose execution
    succeeded with output [out]. *)
Definition completed_attempt (out now : string) (j : Job) : Job :=
  set_updated_at now (set_state COMPLETED (set_output (Some out) j)).

(** ** Runs of the engine *)

(** Claim attempts by any workers on any job ids, one after the other. *)
Fixpoint claim_all (ids : list string) : M unit :=
  match ids with
  | [] => ret tt
  | i :: ids' => _ <- _acquire_job_lock i ;; claim_all ids'
  end.

Inductive EngineOp : Set :=
| OpEnqueue (data : JobData)               (** [queuectl enqueue] *)
| OpClaim (job_id : string)                (** [Worker._acquire_job_lock] *)
| OpScheduleRetry (job : Job)              (** [Scheduler.schedule_retry] *)
| OpMoveToDlq (job : Job) (err : string)   (** [Scheduler.move_to_dlq] *)
| OpProcess (job : Job)                    (** [Scheduler.process_job] *)
| OpRelease (job_id : string)
    (** [Storage.reset_retryable_job_to_pending] *)
| OpDlqReset (job_id : string)             (** [Storage.reset_job_from_dlq] *)
| OpWorkIteration.                         (** one pass of [_work_loop] *)

Definition run_op (env : Env) (config : Config) (op : EngineOp) : M unit :=
  match op with
  | OpEnqueue data => _ <- enqueue env config data ;; ret tt
  | OpClaim job_id => _ <- _acquire_job_lock job_id ;; ret tt
  | OpScheduleRetry job => _ <- schedule_retry env config job ;; ret tt
  | OpMoveToDlq job err => _ <- move_to_dlq env job err ;; ret tt
  | OpProcess job => _ <- process_job env config job ;; ret tt
  | OpRelease job_id =>
      _ <- reset_retryable_job_to_pending env job_id ;; ret tt
  | OpDlqReset job_id => _ <- reset_job_from_dlq env job_id ;; ret tt
  | OpWorkIteration => work_iteration env config
  end.

(** A run of the engine: operations applied one after the other. *)
Fixpoint run_ops (env : Env) (config : Config) (ops : list EngineOp)
  : M unit :=
  match ops with
  | [] => ret tt
  | op :: ops' => _ <- run_op env config op ;; run_ops env config ops'
  end.

(** The operations a producer, an operator or a worker starts; within a
    worker's pass [process_job] runs as part of [OpWorkIteration]. *)
Definition entry_point (op : EngineOp) : bool :=
  match op with
  | OpProcess _ => false
  | _ => true
  end.

(** What the invariant of the store needs of an operation. [process_job]
    expects the stored job to be processing already ("Job state should
    already be PROCESSING (set by worker lock acquisition)"); the invariant
    needs less of it: the stored job has no [next_retry_at], or its
    execution fails. The other operations need nothing. *)
Definition admissible (env : Env) (config : Config) (op : EngineOp)
           (w : World) : Prop :=
  match op with
  | OpProcess job =>
      forall j, row_with_id (id job) (jobs w) = Some j ->
                next_retry_at j = None
                \/ is_failure (next_child env (default_timeout config) j w)
                   = true
  | _ => True
  end.

(** ** One job while the workers run *)

(** The record as [enqueue] leaves it, with retry budget [k]. *)
Definition freshly_enqueued (k : Z) (j : Job) : Prop :=
  state j = PENDING /\ attempts j = 0 /\ max_retries j = k
  /\ next_retry_at j = None.

(** What holds of the job [i] while workers run and every execution fails;
    [e0] is the number of executions of [i] before the workers started. *)
Definition failing_inv (i : string) (k e0 : Z) (w : World) : Prop :=
  primary_key_ok (jobs w) = true
  /\ exists j,
       row_with_id i (jobs w) = Some j
       /\ max_retries j = k
       /\ next_retry_at j = None
       /\ (((state j = PENDING \/ state j = PROCESSING)
            /\ attempts j = 0 /\ executions_of i w = e0)
           \/ (state j = FAILED
               /\ attempts j = 1 /\ executions_of i w = e0 + 1)).

(** ** Two contracts the code does not meet *)

(** The timeout contract with the output collected so far and
    [job.timeout] used whenever it is set. *)
Definition execute_timeout_as_claimed : Prop :=
  forall (env : Env) (self_timeout : option Z) (job : Job) (w : World)
         (so_far : string),
    next_child env self_timeout job w = TimeoutExpired so_far ->
    eval (execute env self_timeout job) w
    = (false, so_far,
       Some ("Job timed out after "
             ++ Py.str_opt_int (match timeout job with
                                | Some t => Some t
                                | None => self_timeout
                                end)
             ++ " seconds")%string).

(** A backoff delay that is at least one second and never above a cap. *)
Definition backoff_as_claimed : Prop :=
  exists cap : Z,
    forall (env : Env) (config : Config) (attempts : Z),
      0 <= attempts ->
      exists delay,
        calculate_retry_delay env config attempts = Returns delay
        /\ 1 <= delay <= cap.

(** ** Scheduling a retry *)

(** The retry time [now + delay] seconds can be built: the [timedelta] and
    the sum stay within what a [datetime] holds. *)
Definition retry_time_representable (now delay : Z) : bool :=
  (Z.abs (delay / 86400) <=? 999999999)
  && (datetime_min <=? now + delay * 1000000)
  && (now + delay * 1000000 <=? datetime_max).

(** The job [schedule_retry] writes for [job] when the clock reads [now]
    (microseconds) and the delay is [delay] seconds; [stamp] is the text of
    the clock reading [update_state] makes. *)
Definition retry_scheduled (env : Env) (now delay : Z) (stamp : string)
           (job : Job) : Job :=
  set_updated_at stamp
    (set_state FAILED
       (set_next_retry_at
          (Some (isoformat env (now + delay * 1000000) ++ "Z")%string) job)).

(** The binary64 value 3.0. *)
Definition float_three : spec_float := S754_finite false 3 0.

(** A configuration after [queuectl config set backoff-base 3]. *)
Definition float_config : Config :=
  mkConfig 3 (Py.PyFloat float_three) (Some 300).

(** * Sample data *)

(** ** A concrete environment *)

Fixpoint zfill_digits (width : nat) (n : Z) (acc : string) : string :=
  match width with
  | O => acc
  | S k => zfill_digits k (n / 10)
             (String (ascii_of_N (48 + Z.to_N (n mod 10))) acc)
  end.

(** [str(n).zfill(width)] for [0 <= n < 10 ^ width] *)
Definition zfill (width : nat) (n : Z) : string := zfill_digits width n "".

(** Year, month and day of the proleptic Gregorian calendar, from the
    number of days since 1970-01-01. *)
Definition civil_from_days (days : Z) : Z * Z * Z :=
  let z := days + 719468 in
  let era := z / 146097 in
  let doe := z - era * 146097 in
  let yoe := (doe - doe / 1460 + doe / 36524 - doe / 146096) / 365 in
  let doy := doe - (365 * yoe + yoe / 4 - yoe / 100) in
  let mp := (5 * doy + 2) / 153 in
  let d := doy - (153 * mp + 2) / 5 + 1 in
  let m := if mp <? 10 then mp + 3 else mp - 9 in
  let y := yoe + era * 400 + (if m <=? 2 then 1 else 0) in
  (y, m, d).

(** [datetime.isoformat()] of the naive datetime that lies [us]
    microseconds after 1970-01-01T00:00:00. *)
Definition isoformat_utc (us : Z) : string :=
  let secs := us / 1000000 in
  let micro := us mod 1000000 in
  let '(y, m, d) := civil_from_days (secs / 86400) in
  let sod := secs mod 86400 in
  (zfill 4 y ++ "-" ++ zfill 2 m ++ "-" ++ zfill 2 d ++ "T"
   ++ zfill 2 (sod / 3600) ++ ":" ++ zfill 2 (sod / 60 mod 60) ++ ":"
   ++ zfill 2 (sod mod 60)
   ++ (if (micro =? 0)%Z then "" else "." ++ zfill 6 micro))%string.

(** A floating-point power that is rounded to the nearest binary64 value,
    for a finite base and a non-negative exponent; a result beyond the
    largest float is an [OverflowError]. The cases the samples do not reach
    (a negative exponent, an infinite or NaN base) are left as
    [ValueError]. *)
Definition rounded_pow (base : Py.Number) (exponent : Z)
  : Outcome spec_float :=
  let finite (m e : Z) :=
    match binary_normalize 53 1024 (m ^ exponent) (e * exponent) false with
    | S754_infinity _ => Raises OverflowError
    | y => Returns y
    end in
  if exponent <? 0 then Raises ValueError
  else match base with
       | Py.PyInt z => finite z 0
       | Py.PyFloat (S754_finite s m e) =>
           finite (if s then Z.neg m else Z.pos m) e
       | Py.PyFloat (S754_zero _) => finite 0 0
       | Py.PyFloat _ => Raises ValueError
       end.

(** A clock that starts at 2026-11-03T09:30:00 and advances by 250 ms per
    reading, and children that all behave like [c]. *)
Definition sample_env (c : Communicate) : Env :=
  mkEnv (fun n => 1793698200000000 + 250000 * Z.of_nat n)
        isoformat_utc
        (fun _ _ _ => c)
        rounded_pow.

(** A clock stopped at 2026-11-03T09:30:00, and children that exit 0. *)
Definition frozen_env : Env :=
  mkEnv (fun _ => 1793698200000000) isoformat_utc
        (fun _ _ _ => Exited "ok" "" 0)
        rounded_pow.

Definition empty_world : World := mkWorld [] 0 [].

Definition world_of (t : Sql.Table) : World := mkWorld t 0 [].

(** ** Jobs and stores *)

(** [{"id": "b", "command": "exit 1", "max_retries": k}] once claimed. *)
Definition claimed_job (k : Z) : Job :=
  mkJob "b" "exit 1" PROCESSING 0 k "2026-11-03T09:29:00Z"
        "2026-11-03T09:29:00Z" 0 None (Some 300) None None None.

(** [{"id": "t", "command": "echo hi; sleep 30", "timeout": 1}], claimed. *)
Definition sleepy_job : Job :=
  mkJob "t" "echo hi; sleep 30" PROCESSING 0 0 "2026-11-03T09:29:00Z"
        "2026-11-03T09:29:00Z" 0 None (Some 1) None None None.

(** [{"id": "z", "command": "sleep 1000", "timeout": 0}], claimed. *)
Definition zero_timeout_job : Job :=
  mkJob "z" "sleep 1000" PROCESSING 0 0 "2026-11-03T09:29:00Z"
        "2026-11-03T09:29:00Z" 0 None (Some 0) None None None.

(** A claimed job that carries the error of an earlier attempt. *)
Definition retried_job : Job :=
  mkJob "r" "make" PROCESSING 1 3 "2026-11-03T09:29:00Z"
        "2026-11-03T09:29:30Z" 0 None (Some 300) (Some "")
        (Some "Command failed with exit code 2") None.

Definition low_job : Job :=
  mkJob "low" "echo l" PENDING 0 3 "2026-11-03T09:00:00Z"
        "2026-11-03T09:00:00Z" 0 None (Some 300) None None None.

Definition hi_job : Job :=
  mkJob "hi" "echo h" PENDING 0 3 "2026-11-03T09:00:05Z"
        "2026-11-03T09:00:05Z" 5 None (Some 300) None None None.

Definition later_job : Job :=
  mkJob "later" "echo x" PENDING 0 3 "2026-11-03T09:00:07Z"
        "2026-11-03T09:00:07Z" 9 (Some "2026-11-03T10:00:00Z") (Some 300)
        None None None.

Definition due_retry_job : Job :=
  mkJob "f" "make" FAILED 1 3 "2026-11-03T08:00:00Z"
        "2026-11-03T09:29:56Z" 0 None (Some 300) (Some "")
        (Some "Command failed with exit code 2")
        (Some "2026-11-03T09:29:58Z").

Definition sample_table : Sql.Table :=
  [low_job; hi_job; later_job; due_retry_job].

(** [n] dead jobs ["d0"], ..., created one second apart, the newest first
    in the table. *)
Fixpoint dead_letters (n : nat) : Sql.Table :=
  match n with
  | O => []
  | S m =>
      let stamp :=
        (isoformat_utc (1793698200000000 + 1000000 * Z.of_nat m) ++ "Z")%string
      in
      mkJob ("d" ++ Py.str_int (Z.of_nat m))%string "exit 1" DEAD 1 0
            stamp stamp 0 None (Some 300) (Some "")
            (Some "Command failed with exit code 1") None
      :: dead_letters m
  end.

(** [n] dead jobs ["d0"], ...: the first created at 09:30:00 sharp, the
    second half a second later and each further one a second after the one
    before; the newest first in the table. *)
Definition staggered_time (m : nat) : Z :=
  match m with
  | O => 1793698200000000
  | S k => 1793698200500000 + 1000000 * Z.of_nat k
  end.

Fixpoint staggered_letters (n : nat) : Sql.Table :=
  match n with
  | O => []
  | S m =>
      let stamp := (isoformat_utc (staggered_time m) ++ "Z")%string in
      mkJob ("d" ++ Py.str_int (Z.of_nat m))%string "exit 1" DEAD 1 0
            stamp stamp 0 None (Some 300) (Some "")
            (Some "Command failed with exit code 1") None
      :: staggered_letters m
  end.

(** ** More vocabulary *)

(** [ORDER BY next_retry_at ASC] *)
Definition next_retry_asc (a b : Job) : bool :=
  Sql.text_asc (next_retry_at a) (next_retry_at b).

(** The rows a listing with the optional state filter ranges over. *)
Definition matching (st : option JobState) (t : Sql.Table) : list Job :=
  match st with
  | Some s => filter (fun r => JobState_eqb (state r) s) t
  | None => t
  end.

(** The record [reset_job_from_dlq] writes for the dead job [j]. *)
Definition revived (now : string) (j : Job) : Job :=
  set_updated_at now
    (set_next_retry_at None
       (set_error None (set_attempts 0 (set_state PENDING j)))).

(** A store with a dead job. *)
Definition dead_job : Job :=
  mkJob "x" "exit 1" DEAD 3 3 "2026-11-03T08:00:00Z" "2026-11-03T08:10:00Z"
        0 None (Some 300) (Some "boom")
        (Some "Command failed with exit code 1") None.

Definition graveyard : Sql.Table := [low_job; dead_job].

(** The record [process_job] writes first when the stored job [j] is not
    processing yet. *)
Definition forced_processing (now : string) (j : Job) : Job :=
  set_updated_at now (set_state PROCESSING j).

(** What [execute] captures of a child. *)
Definition output_of (c : Communicate) : string :=
  match c with
  | Exited stdout stderr _ => (stdout ++ stderr)%string
  | _ => ""
  end.

(** [{"id": "p", "command": "true"}] as enqueued, not yet claimed. *)
Definition unclaimed_job : Job :=
  mkJob "p" "true" PENDING 0 3 "2026-11-03T09:29:00Z" "2026-11-03T09:29:00Z"
        0 None (Some 300) None None None.

(** [{"id": "s", "command": "echo s", "run_at": run}] as enqueued at
    09:29:00. *)
Definition scheduled_job (run : string) : Job :=
  mkJob "s" "echo s" PENDING 0 3 "2026-11-03T09:29:00Z" "2026-11-03T09:29:00Z"
        0 (Some run) (Some 300) None None None.

(** The ids of the pending jobs, in table order. *)
Definition pending_ids (t : Sql.Table) : list string :=
  map id (filter (fun r => JobState_eqb (state r) PENDING) t).

(** What holds while workers drain a store of jobs that are ready to run:
    ids are unique, no retry is scheduled, a pending job has no [run_at],
    and every id of [ids0] is either still pending or was executed, once. *)
Definition drain_inv (ids0 : list string) (w : World) : Prop :=
  primary_key_ok (jobs w) = true
  /\ (forall r, In r (jobs w) ->
                next_retry_at r = None
                /\ (state r = PENDING -> run_at r = None)
                /\ (state r = PENDING \/ state r = COMPLETED
                    \/ state r = FAILED))
  /\ Permutation (executions w ++ pending_ids (jobs w)) ids0.

(** Three jobs ready to run. *)
Definition ready_table : Sql.Table :=
  [low_job; hi_job; unclaimed_job].

(** The job [enqueue] builds from the producer's data at clock text
    [now]. *)
Definition enqueued_job (config : Config) (now : string) (data : JobData)
  : Job :=
  mkJob (data_id data) (data_command data) PENDING 0
        (match data_max_retries data with
         | Some k => k
         | None => cfg_max_retries config
         end)
        now now
        (match data_priority data with Some p => p | None => 0 end)
        (data_run_at data)
        (match data_timeout data with
         | Some t => Some t
         | None => default_timeout config
         end)
        None None None.

(** ** Configuration dicts *)

(** A Python dict holds each key once. *)
Fixpoint keys_unique {Value : Type} (d : ConfigStore.Dict (Value := Value))
  : bool :=
  match d with
  | [] => true
  | (k, _) :: rest =>
      match ConfigStore.dict_get rest k with
      | Some _ => false
      | None => keys_unique rest
      end
  end.

(** Every key of [base] is a key of [d]. *)
Definition has_keys_of {Value : Type}
           (base d : ConfigStore.Dict (Value := Value)) : bool :=
  forallb (fun kv => match ConfigStore.dict_get d (fst kv) with
                     | Some _ => true
                     | None => false
                     end) base.

(** The file holds a dict, if it holds anything readable. *)
Definition file_ok {Value : Type} (file : ConfigStore.File (Value := Value))
  : bool :=
  match file with
  | ConfigStore.JsonObject config => keys_unique config
  | _ => true
  end.

(** The properties of [_config] that the constructor establishes. *)
Definition config_ok {Value : Type} (of_int : Z -> Value)
           (of_str : string -> Value)
           (self : ConfigStore.Self (Value := Value)) : bool :=
  keys_unique (ConfigStore._config self)
  && has_keys_of (ConfigStore.DEFAULT_CONFIG of_int of_str)
                 (ConfigStore._config self).

(** Sample JSON values. *)
Inductive JsonValue : Type :=
| JNull
| JInt (n : Z)
| JStr (s : string).

Definition sample_file : ConfigStore.File :=
  ConfigStore.JsonObject
    [("backoff_base", JInt 3); ("theme", JStr "dark")]%string.

(** What [ORDER BY priority DESC, created_at ASC] looks at. *)
Definition sort_key (r : Job) : Z * string := (priority r, created_at r).

(** In table [t0], the job with id [i] is ordered no later than the job
    with id [j]. *)
Definition runs_before (t0 : Sql.Table) (i j : string) : bool :=
  match row_with_id i t0, row_with_id j t0 with
  | Some a, Some b => priority_desc_created_asc a b
  | _, _ => false
  end.

(** While workers drain the table [t0]: the sort keys are those of [t0],
    the executions (newest first) happened in the order of the keys, and
    every executed job is ordered no later than every job still pending. *)
Definition order_inv (t0 : Sql.Table) (w : World) : Prop :=
  (forall i, option_map sort_key (row_with_id i (jobs w))
             = option_map sort_key (row_with_id i t0))
  /\ StronglySorted (fun later earlier => runs_before t0 earlier later = true)
                    (executions w)
  /\ (forall e p, In e (executions w) -> In p (pending_ids (jobs w)) ->
                  runs_before t0 e p = true).

(** The record the retry release leaves for [r0] at clock text [now]. *)
Definition released (now : string) (r0 : Job) : Job :=
  set_updated_at now (set_next_retry_at None (set_state PENDING r0)).

(** Some clock reading made so far, from the [c0]-th on, gave a text that
    the text [t] is not above. *)
Definition run_at_reached (env : Env) (t : string) (c0 : nat) (w : World)
  : Prop :=
  exists m, (c0 <= m < clock_reads w)%nat
            /\ String.leb t (clock_text env m) = true.

(** What holds of a pending job [j] with id [i] and [run_at = t] while
    workers run: unless a clock reading has reached [t], the record is as it
    was and the job has not been executed. *)
Definition unstarted_inv (env : Env) (i : string) (j : Job) (t : string)
           (e : Z) (c0 : nat) (w : World) : Prop :=
  primary_key_ok (jobs w) = true
  /\ (c0 <= clock_reads w)%nat
  /\ (run_at_reached env t c0 w
      \/ (row_with_id i (jobs w) = Some j /\ executions_of i w = e)).

(** * Facts about the embedding *)

(** ** Bytewise order on TEXT *)

Lemma ascii_compare_N (a b : ascii) :
  Ascii.compare a b = N.compare (N_of_ascii a) (N_of_ascii b).
Proof. reflexivity. Qed.

Lemma string_compare_refl (s : string) : String.compare s s = Eq.
Proof.
  induction s as [|c s IH]; simpl; [reflexivity|].
  rewrite ascii_compare_N, N.compare_refl. exact IH.
Qed.

Lemma string_leb_refl (s : string) : String.leb s s = true.
Proof. unfold String.leb. now rewrite string_compare_refl. Qed.

Lemma string_compare_trans_le (x y z : string) :
  String.compare x y <> Gt -> String.compare y z <> Gt ->
  String.compare x z <> Gt.
Proof.
  revert y z. induction x as [|a x IH]; intros [|b y] [|c z]; simpl;
    try congruence.
  rewrite !ascii_compare_N.
  destruct (N.compare_spec (N_of_ascii a) (N_of_ascii b)) as [Hab|Hab|Hab];
    destruct (N.compare_spec (N_of_ascii b) (N_of_ascii c)) as [Hbc|Hbc|Hbc];
    try congruence; intros H1 H2.
  - rewrite Hab, Hbc, N.compare_refl. eapply IH; eassumption.
  - rewrite Hab. apply N.compare_lt_iff in Hbc. now rewrite Hbc.
  - rewrite <- Hbc. apply N.compare_lt_iff in Hab. now rewrite Hab.
  - assert (Hac : (N_of_ascii a < N_of_ascii c)%N) by lia.
    apply N.compare_lt_iff in Hac. now rewrite Hac.
Qed.

Lemma string_leb_trans (x y z : string) :
  String.leb x y = true -> String.leb y z = true -> String.leb x z = true.
Proof.
  unfold String.leb. intros H1 H2.
  assert (H : String.compare x z <> Gt).
  { apply (string_compare_trans_le x y z).
    - destruct (String.compare x y); congruence.
    - destruct (String.compare y z); congruence. }
  destruct (String.compare x z); congruence.
Qed.

Lemma string_leb_false (x y : string) :
  String.leb x y = false -> String.leb y x = true.
Proof.
  intros H. destruct (String.leb_total x y) as [H'|H']; congruence.
Qed.

Lemma string_ltb_leb (x y : string) :
  String.ltb x y = true -> String.leb y x = false.
Proof.
  unfold String.ltb, String.leb. rewrite (String.compare_antisym y x).
  destruct (String.compare x y); simpl; congruence.
Qed.

(** ** Rows and their ids *)

Section SqlFacts.

Variable f : Job -> Job.
Hypothesis f_id : forall r, id (f r) = id r.

Lemma row_with_id_map (i : string) (t : Sql.Table) :
  row_with_id i (map f t) = option_map f (row_with_id i t).
Proof.
  unfold row_with_id, Sql.fetchone, Sql.select.
  induction t as [|r t IH]; simpl; [reflexivity|].
  rewrite f_id. destruct (id r =? i)%string; simpl; [reflexivity|exact IH].
Qed.

Lemma existsb_id_map (i : string) (t : Sql.Table) :
  existsb (fun r => id r =? i)%string (map f t)
  = existsb (fun r => id r =? i)%string t.
Proof.
  induction t as [|r t IH]; simpl; [reflexivity|].
  now rewrite f_id, IH.
Qed.

Lemma primary_key_ok_map (t : Sql.Table) :
  primary_key_ok (map f t) = primary_key_ok t.
Proof.
  induction t as [|r t IH]; simpl; [reflexivity|].
  now rewrite f_id, existsb_id_map, IH.
Qed.

End SqlFacts.

Lemma row_with_id_Some (i : string) (t : Sql.Table) (j : Job) :
  row_with_id i t = Some j -> In j t /\ id j = i.
Proof.
  unfold row_with_id, Sql.fetchone, Sql.select.
  induction t as [|r t IH]; simpl; [discriminate|].
  destruct (String.eqb_spec (id r) i) as [E|E]; simpl.
  - intros [= <-]. auto.
  - intros H. destruct (IH H). auto.
Qed.

Lemma row_with_id_None (i : string) (t : Sql.Table) :
  row_with_id i t = None -> forall r, In r t -> id r <> i.
Proof.
  unfold row_with_id, Sql.fetchone, Sql.select.
  induction t as [|r t IH]; simpl; [tauto|].
  destruct (String.eqb_spec (id r) i) as [E|E]; simpl; [discriminate|].
  intros H r' [<-|Hin]; auto.
Qed.

Lemma existsb_id_false (i : string) (t : Sql.Table) :
  existsb (fun r => id r =? i)%string t = false ->
  forall r, In r t -> id r <> i.
Proof.
  induction t as [|r t IH]; simpl; [tauto|].
  intros H. apply orb_false_iff in H. destruct H as [H1 H2].
  intros r' [<-|Hin]; [now apply String.eqb_neq|auto].
Qed.

Lemma row_with_id_unique (t : Sql.Table) (j : Job) :
  primary_key_ok t = true -> In j t -> row_with_id (id j) t = Some j.
Proof.
  unfold row_with_id, Sql.fetchone, Sql.select.
  induction t as [|r t IH]; simpl; [tauto|].
  intros Hpk. apply andb_true_iff in Hpk. destruct Hpk as [Hr Hpk].
  apply negb_true_iff in Hr.
  intros [->|Hin].
  - now rewrite String.eqb_refl.
  - destruct (String.eqb_spec (id r) (id j)) as [E|E]; simpl; [|auto].
    exfalso. apply (existsb_id_false _ _ Hr j Hin). congruence.
Qed.

(** ** [UPDATE] *)

Lemma rowcount_positive (whr : Job -> bool) (t : Sql.Table) :
  Nat.ltb 0 (List.length (filter whr t)) = existsb whr t.
Proof.
  induction t as [|r t IH]; simpl; [reflexivity|].
  destruct (whr r); simpl; [reflexivity|exact IH].
Qed.

Lemma update_nothing (whr : Job -> bool) (set : Job -> Job) (t : Sql.Table) :
  existsb whr t = false -> map (fun r => if whr r then set r else r) t = t.
Proof.
  induction t as [|r t IH]; simpl; [reflexivity|].
  intros H. apply orb_false_iff in H. destruct H as [-> H].
  now rewrite IH.
Qed.

Lemma existsb_by_id (p : Job -> bool) (i : string) (t : Sql.Table) :
  primary_key_ok t = true ->
  existsb (fun r => (id r =? i)%string && p r) t
  = match row_with_id i t with Some j => p j | None => false end.
Proof.
  intros Hpk. destruct (row_with_id i t) as [j|] eqn:E.
  - destruct (row_with_id_Some _ _ _ E) as [Hin <-].
    destruct (p j) eqn:Hp.
    + apply existsb_exists. exists j. now rewrite String.eqb_refl.
    + apply not_true_is_false. intros H.
      apply existsb_exists in H. destruct H as [r [Hr H]].
      apply andb_true_iff in H. destruct H as [H1 H2].
      apply String.eqb_eq in H1.
      rewrite <- H1, (row_with_id_unique _ _ Hpk Hr) in E.
      congruence.
  - apply not_true_is_false. intros H.
    apply existsb_exists in H. destruct H as [r [Hr H]].
    apply andb_true_iff in H. destruct H as [H1 H2].
    apply String.eqb_eq in H1.
    exact (row_with_id_None _ _ E r Hr H1).
Qed.

Lemma JobState_eqb_eq (a b : JobState) : JobState_eqb a b = true <-> a = b.
Proof. destruct a, b; simpl; split; congruence. Qed.

Lemma JobState_eqb_neq (a b : JobState) : JobState_eqb a b = false <-> a <> b.
Proof. destruct a, b; simpl; split; congruence. Qed.

Lemma exec_discard {A : Type} (m : M A) (w : World) :
  exec (_ <- m ;; ret tt) w = exec m w.
Proof. unfold exec, bind. now destruct (m w). Qed.

Lemma world_eta (w : World) :
  mkWorld (jobs w) (clock_reads w) (executions w) = w.
Proof. now destruct w. Qed.

(** ** The claim ([Worker._acquire_job_lock]) *)

Lemma acquire_job_lock_run (i : string) (w : World) :
  _acquire_job_lock i w
  = (existsb (fun r => (id r =? i)%string && JobState_eqb (state r) PENDING)
             (jobs w),
     set_jobs (map (claim_row i) (jobs w)) w).
Proof.
  unfold _acquire_job_lock, Sql.update. now rewrite rowcount_positive.
Qed.

Lemma claim_row_id (i : string) (r : Job) : id (claim_row i r) = id r.
Proof. unfold claim_row. now destruct (_ && _). Qed.

Lemma claim_row_not_pending (i : string) (r : Job) :
  state r <> PENDING -> claim_row i r = r.
Proof.
  intros H. unfold claim_row. apply JobState_eqb_neq in H.
  now rewrite H, andb_false_r.
Qed.

Lemma claim_row_state (i : string) (r : Job) :
  state r <> PENDING -> state (claim_row i r) <> PENDING.
Proof. intros H. now rewrite claim_row_not_pending. Qed.

Lemma claim_all_keeps_claimed (ids : list string) (i : string) (w : World) :
  primary_key_ok (jobs w) = true ->
  (forall j, row_with_id i (jobs w) = Some j -> state j <> PENDING) ->
  primary_key_ok (jobs (exec (claim_all ids) w)) = true
  /\ forall j, row_with_id i (jobs (exec (claim_all ids) w)) = Some j ->
               state j <> PENDING.
Proof.
  revert w. induction ids as [|x ids IH]; intros w Hpk Hst; [now split|].
  unfold exec in *. simpl. unfold bind. rewrite acquire_job_lock_run.
  apply IH; simpl.
  - now rewrite (primary_key_ok_map _ (claim_row_id x)).
  - intros j. rewrite (row_with_id_map _ (claim_row_id x)).
    destruct (row_with_id i (jobs w)) as [j0|]; simpl; [|discriminate].
    intros [= <-]. apply claim_row_state. now apply Hst.
Qed.

(** C3. The claim succeeds exactly when the stored record exists and is
    pending; a failed claim leaves the store as it was; a successful one
    turns the record to processing and touches no other record, and after
    it every further claim of the same job fails, whatever claims (of this
    or of other jobs) are attempted in between. *)
Theorem acquire_job_lock_exclusive (w : World) (job_id : string) :
  primary_key_ok (jobs w) = true ->
  let ok := eval (_acquire_job_lock job_id) w in
  let w' := exec (_acquire_job_lock job_id) w in
  (ok = true <->
   exists j, row_with_id job_id (jobs w) = Some j /\ state j = PENDING)
  /\ (ok = false -> w' = w)
  /\ (ok = true ->
      (exists j, row_with_id job_id (jobs w) = Some j
                 /\ row_with_id job_id (jobs w')
                    = Some (set_state PROCESSING j))
      /\ (forall i, i <> job_id ->
                    row_with_id i (jobs w') = row_with_id i (jobs w))
      /\ forall ids,
           eval (_acquire_job_lock job_id) (exec (claim_all ids) w') = false).
Proof.
  intros Hpk. unfold eval, exec. rewrite !acquire_job_lock_run.
  cbn [fst snd set_jobs jobs].
  rewrite (existsb_by_id (fun r => JobState_eqb (state r) PENDING) _ _ Hpk).
  split; [|split].
  - destruct (row_with_id job_id (jobs w)) as [j|].
    + rewrite JobState_eqb_eq. split.
      * intros H. now exists j.
      * now intros [j' [[= <-] H]].
    + split; [discriminate|]. now intros [j' [H _]].
  - intros H. unfold set_jobs.
    replace (map (claim_row job_id) (jobs w)) with (jobs w);
      [apply world_eta|].
    symmetry.
    apply (update_nothing
             (fun r => (id r =? job_id)%string
                       && JobState_eqb (state r) PENDING)
             (set_state PROCESSING)).
    now rewrite (existsb_by_id (fun r => JobState_eqb (state r) PENDING)
                               _ _ Hpk).
  - intros H. destruct (row_with_id job_id (jobs w)) as [j|] eqn:E;
      [|discriminate].
    destruct (row_with_id_Some _ _ _ E) as [Hin Hid].
    split; [|split].
    + exists j. split; [reflexivity|].
      rewrite (row_with_id_map _ (claim_row_id job_id)), E. simpl.
      unfold claim_row. now rewrite Hid, String.eqb_refl, H.
    + intros i Hi. rewrite (row_with_id_map _ (claim_row_id job_id)).
      destruct (row_with_id i (jobs w)) as [r|] eqn:Er; [|reflexivity].
      simpl. f_equal. unfold claim_row.
      destruct (row_with_id_Some _ _ _ Er) as [_ Hr].
      destruct (String.eqb_spec (id r) job_id); [congruence|reflexivity].
    + intros ids.
      pose (w1 := set_jobs (map (claim_row job_id) (jobs w)) w).
      assert (Hpk1 : primary_key_ok (jobs w1) = true).
      { simpl. now rewrite (primary_key_ok_map _ (claim_row_id job_id)). }
      assert (Hst1 : forall j', row_with_id job_id (jobs w1) = Some j' ->
                                state j' <> PENDING).
      { simpl. intros j'.
        rewrite (row_with_id_map _ (claim_row_id job_id)), E. simpl.
        intros [= <-]. unfold claim_row.
        rewrite Hid, String.eqb_refl, H. simpl. discriminate. }
      destruct (claim_all_keeps_claimed ids job_id w1 Hpk1 Hst1)
        as [Hpk2 Hst2].
      fold w1. unfold exec in *. rewrite acquire_job_lock_run. cbn [fst].
      rewrite (existsb_by_id (fun r => JobState_eqb (state r) PENDING)
                             _ _ Hpk2).
      destruct (row_with_id job_id (jobs (snd (claim_all ids w1))))
        as [j2|] eqn:E2; [|reflexivity].
      apply JobState_eqb_neq. now apply Hst2.
Qed.

(** ** The retry release ([Storage.reset_retryable_job_to_pending]) *)

Lemma failed_and_due_iff (now : string) (r : Job) :
  failed_and_due now r = true <->
  state r = FAILED
  /\ exists t, next_retry_at r = Some t /\ String.leb t now = true.
Proof.
  unfold failed_and_due, Sql.text_le.
  rewrite !andb_true_iff, JobState_eqb_eq.
  destruct (next_retry_at r) as [t|].
  - split.
    + intros [[H1 _] H2]. split; [exact H1|]. now exists t.
    + intros [H1 [t' [[= <-] H2]]]. auto.
  - split.
    + intros [[_ H] _]. discriminate.
    + intros [_ [t' [H _]]]. discriminate.
Qed.

Lemma reset_retryable_run (env : Env) (i : string) (w : World) :
  reset_retryable_job_to_pending env i w
  = (existsb (fun r => (id r =? i)%string && failed_and_due (now_at env w) r)
             (jobs w),
     mkWorld (map (release_row (now_at env w) i) (jobs w))
             (S (clock_reads w)) (executions w)).
Proof.
  unfold reset_retryable_job_to_pending, now_iso, read_clock, bind, ret,
    Sql.update, set_jobs.
  cbn [jobs clock_reads executions]. now rewrite rowcount_positive.
Qed.

Lemma release_row_id (now i : string) (r : Job) :
  id (release_row now i r) = id r.
Proof. unfold release_row. now destruct (_ && _). Qed.

Lemma release_row_other (now i : string) (r : Job) :
  id r <> i -> release_row now i r = r.
Proof.
  intros H. unfold release_row. apply String.eqb_neq in H. now rewrite H.
Qed.

(** C5 (what the code does). The release turns the record to pending and
    clears [next_retry_at] exactly when the record exists, is failed and its
    [next_retry_at] is set and, as a text, not above the text of now in
    bytewise order, which is how SQLite compares the two TEXT values; the
    result tells which; when it is [false] the table is unchanged, and no
    other record is ever touched. The order of the texts is not the order
    of the times they denote: see
    [reset_retryable_job_to_pending_text_order]. *)
Theorem reset_retryable_job_to_pending_cas
        (env : Env) (w : World) (job_id : string) :
  primary_key_ok (jobs w) = true ->
  let now := now_at env w in
  let ok := eval (reset_retryable_job_to_pending env job_id) w in
  let w' := exec (reset_retryable_job_to_pending env job_id) w in
  (ok = true <->
   exists j t, row_with_id job_id (jobs w) = Some j
               /\ state j = FAILED
               /\ next_retry_at j = Some t
               /\ String.leb t now = true)
  /\ (ok = true ->
      exists j j', row_with_id job_id (jobs w) = Some j
                   /\ row_with_id job_id (jobs w') = Some j'
                   /\ j' = set_updated_at now
                             (set_next_retry_at None (set_state PENDING j))
                   /\ state j' = PENDING
                   /\ next_retry_at j' = None)
  /\ (ok = false -> jobs w' = jobs w)
  /\ (forall i, i <> job_id ->
                row_with_id i (jobs w') = row_with_id i (jobs w)).
Proof.
  intros Hpk now. unfold eval, exec. rewrite reset_retryable_run.
  fold now. cbn [fst snd jobs].
  rewrite (existsb_by_id (failed_and_due now) _ _ Hpk).
  split; [|split; [|split]].
  - destruct (row_with_id job_id (jobs w)) as [j|].
    + rewrite failed_and_due_iff. split.
      * intros [H1 [t [H2 H3]]]. now exists j, t.
      * intros [j' [t [[= <-] [H1 [H2 H3]]]]]. split; [exact H1|].
        now exists t.
    + split; [discriminate|]. now intros [j' [t [H _]]].
  - intros H. destruct (row_with_id job_id (jobs w)) as [j|] eqn:E;
      [|discriminate].
    destruct (row_with_id_Some _ _ _ E) as [_ Hid].
    exists j. eexists. split; [reflexivity|].
    rewrite (row_with_id_map _ (release_row_id now job_id)), E. simpl.
    unfold release_row. rewrite Hid, String.eqb_refl, H. simpl.
    repeat split; reflexivity.
  - intros H.
    apply (update_nothing
             (fun r => (id r =? job_id)%string && failed_and_due now r)
             (fun r => set_updated_at now
                         (set_next_retry_at None (set_state PENDING r)))).
    now rewrite (existsb_by_id (failed_and_due now) _ _ Hpk).
  - intros i Hi. rewrite (row_with_id_map _ (release_row_id now job_id)).
    destruct (row_with_id i (jobs w)) as [r|] eqn:Er; [|reflexivity].
    simpl. f_equal. apply release_row_other.
    destruct (row_with_id_Some _ _ _ Er) as [_ Hr]. congruence.
Qed.

(** ** [ORDER BY] *)

Section OrderBy.

Variable before : Job -> Job -> bool.

Lemma insert_row_perm (x : Job) (l : list Job) :
  Permutation (x :: l) (Sql.insert_row before x l).
Proof.
  induction l as [|y l IH]; simpl; [reflexivity|].
  destruct (before x y); [reflexivity|].
  rewrite perm_swap. now constructor.
Qed.

Lemma order_by_perm (l : list Job) : Permutation l (Sql.order_by before l).
Proof.
  induction l as [|x l IH]; simpl; [constructor|].
  rewrite <- insert_row_perm. now constructor.
Qed.

Lemma order_by_In (l : list Job) (x : Job) :
  In x (Sql.order_by before l) <-> In x l.
Proof.
  split; apply Permutation_in;
    [symmetry|]; apply order_by_perm.
Qed.

Lemma order_by_length (l : list Job) :
  List.length (Sql.order_by before l) = List.length l.
Proof. symmetry. apply Permutation_length, order_by_perm. Qed.

Hypothesis before_total : forall a b, before a b = false -> before b a = true.
Hypothesis before_trans :
  forall a b c, before a b = true -> before b c = true -> before a c = true.

Lemma before_refl (a : Job) : before a a = true.
Proof. pose proof (before_total a a) as H. destruct (before a a); auto. Qed.

Lemma insert_row_sorted (x : Job) (l : list Job) :
  StronglySorted (precedes before) l ->
  StronglySorted (precedes before) (Sql.insert_row before x l).
Proof.
  induction 1 as [|y l Hs IH Hy]; simpl.
  - repeat constructor.
  - destruct (before x y) eqn:E.
    + constructor; [now constructor|].
      constructor; [exact E|].
      eapply Forall_impl; [|exact Hy].
      intros z Hz. exact (before_trans _ _ _ E Hz).
    + constructor; [exact IH|].
      apply Forall_forall. intros z Hz.
      apply (Permutation_in _ (Permutation_sym (insert_row_perm x l))) in Hz.
      destruct Hz as [<-|Hz].
      * now apply before_total.
      * rewrite Forall_forall in Hy. now apply Hy.
Qed.

Lemma order_by_sorted (l : list Job) :
  StronglySorted (precedes before) (Sql.order_by before l).
Proof.
  induction l as [|x l IH]; simpl; [constructor|].
  now apply insert_row_sorted.
Qed.

Lemma order_by_first (l : list Job) (x : Job) :
  hd_error (Sql.order_by before l) = Some x ->
  In x l /\ forall y, In y l -> before x y = true.
Proof.
  intros H. pose proof (order_by_sorted l) as Hs.
  destruct (Sql.order_by before l) as [|x' rest] eqn:E; [discriminate|].
  injection H as ->.
  assert (Hin : forall y, In y l <-> In y (x :: rest)).
  { intros y. rewrite <- E. symmetry. apply order_by_In. }
  split; [apply Hin; now left|].
  intros y Hy. apply Hin in Hy. destruct Hy as [<-|Hy].
  - apply before_refl.
  - inversion Hs as [|? ? _ Hall]; subst.
    rewrite Forall_forall in Hall. now apply Hall.
Qed.

Lemma sorted_split (l1 l2 : list Job) :
  StronglySorted (precedes before) (l1 ++ l2) ->
  forall a b, In a l1 -> In b l2 -> before a b = true.
Proof.
  induction l1 as [|x l1 IH]; simpl; [tauto|].
  intros Hs a b [<-|Ha] Hb.
  - inversion Hs as [|? ? _ Hall]; subst.
    rewrite Forall_forall in Hall. apply Hall, in_or_app. now right.
  - inversion Hs; subst. now apply IH.
Qed.

End OrderBy.

Lemma order_by_empty (before : Job -> Job -> bool) (l : list Job) :
  Sql.order_by before l = [] -> l = [].
Proof.
  intros H. apply Permutation_nil. rewrite <- H. symmetry.
  apply order_by_perm.
Qed.

(** ** The pending candidate ([Storage.get_next_pending_job]) *)

Lemma priority_desc_created_asc_total (a b : Job) :
  priority_desc_created_asc a b = false ->
  priority_desc_created_asc b a = true.
Proof.
  unfold priority_desc_created_asc. intros H.
  apply orb_false_iff in H. destruct H as [H1 H2].
  apply Z.ltb_ge in H1.
  destruct (Z.ltb_spec (priority a) (priority b)) as [Hlt|Hge];
    [reflexivity|].
  assert (E : priority a = priority b) by lia.
  rewrite E, Z.eqb_refl in *. simpl in *.
  now apply string_leb_false.
Qed.

Lemma priority_desc_created_asc_trans (a b c : Job) :
  priority_desc_created_asc a b = true ->
  priority_desc_created_asc b c = true ->
  priority_desc_created_asc a c = true.
Proof.
  unfold priority_desc_created_asc. intros H1 H2.
  apply orb_true_iff in H1. apply orb_true_iff in H2.
  apply orb_true_iff.
  destruct H1 as [H1|H1], H2 as [H2|H2];
    rewrite ?andb_true_iff, ?Z.ltb_lt, ?Z.eqb_eq in *.
  - left. lia.
  - left. lia.
  - left. lia.
  - right. destruct H1 as [E1 L1], H2 as [E2 L2]. split; [lia|].
    eapply string_leb_trans; eassumption.
Qed.

Lemma priority_desc_created_asc_spec (a b : Job) :
  priority_desc_created_asc a b = true ->
  priority b <= priority a
  /\ (priority b = priority a ->
      String.leb (created_at a) (created_at b) = true).
Proof.
  unfold priority_desc_created_asc. intros H.
  apply orb_true_iff in H.
  rewrite andb_true_iff, Z.ltb_lt, Z.eqb_eq in H.
  destruct H as [H|[H1 H2]]; split; try lia; auto.
Qed.

Lemma pending_and_due_iff (now : string) (j : Job) :
  pending_and_due now j = true <-> eligible now j.
Proof.
  unfold pending_and_due, eligible, Sql.text_le.
  rewrite andb_true_iff, JobState_eqb_eq.
  destruct (run_at j) as [t|]; simpl.
  - split.
    + intros [H1 H2]. split; [exact H1|]. right. now exists t.
    + intros [H1 [H2|[t' [[= <-] H2]]]]; [discriminate|auto].
  - split; intros [H1 _]; auto.
Qed.

Lemma get_next_pending_job_run (env : Env) (w : World) :
  get_next_pending_job env w
  = (hd_error (Sql.order_by priority_desc_created_asc
                 (filter (pending_and_due (now_at env w)) (jobs w))),
     mkWorld (jobs w) (S (clock_reads w)) (executions w)).
Proof.
  unfold get_next_pending_job, now_iso, read_clock, bind, ret, Sql.fetchone,
    Sql.limit, Sql.select.
  cbn [jobs clock_reads executions]. fold (now_at env w).
  f_equal. simpl.
  now destruct (Sql.order_by _ _).
Qed.

Lemma get_next_pending_job_None (env : Env) (w : World) :
  eval (get_next_pending_job env) w = None <->
  forall j, In j (jobs w) -> ~ eligible (now_at env w) j.
Proof.
  unfold eval. rewrite get_next_pending_job_run. cbn [fst].
  split.
  - intros H j Hin He.
    destruct (Sql.order_by _ _) as [|x l] eqn:E; [|discriminate].
    apply order_by_empty in E.
    apply pending_and_due_iff in He.
    assert (Hf : In j (filter (pending_and_due (now_at env w)) (jobs w)))
      by now apply filter_In.
    rewrite E in Hf. contradiction.
  - intros H.
    destruct (Sql.order_by _ _) as [|x l] eqn:E; [reflexivity|].
    exfalso.
    assert (Hx : In x (Sql.order_by priority_desc_created_asc
                         (filter (pending_and_due (now_at env w)) (jobs w))))
      by (rewrite E; now left).
    apply order_by_In, filter_In in Hx. destruct Hx as [Hin Hx].
    apply pending_and_due_iff in Hx. exact (H x Hin Hx).
Qed.

Lemma get_next_pending_job_Some (env : Env) (w : World) (j : Job) :
  eval (get_next_pending_job env) w = Some j ->
  In j (jobs w)
  /\ eligible (now_at env w) j
  /\ forall j', In j' (jobs w) -> eligible (now_at env w) j' ->
                priority j' <= priority j
                /\ (priority j' = priority j ->
                    String.leb (created_at j) (created_at j') = true).
Proof.
  unfold eval. rewrite get_next_pending_job_run. cbn [fst]. intros H.
  apply (order_by_first _ priority_desc_created_asc_total
                        priority_desc_created_asc_trans) in H.
  destruct H as [Hin Hmin]. apply filter_In in Hin. destruct Hin as [Hin Hd].
  split; [exact Hin|]. split; [now apply pending_and_due_iff|].
  intros j' Hin' He'. apply priority_desc_created_asc_spec, Hmin.
  apply filter_In. split; [exact Hin'|]. now apply pending_and_due_iff.
Qed.

(** ** Running the storage and model primitives *)

Lemma now_iso_run (env : Env) (w : World) :
  now_iso env w = (now_at env w, tick w).
Proof. reflexivity. Qed.

Lemma update_job_run (job : Job) (w : World) :
  update_job job w
  = (existsb (fun r => id r =? id job)%string (jobs w),
     set_jobs (map (write_row job) (jobs w)) w).
Proof.
  unfold update_job, Sql.update. now rewrite rowcount_positive.
Qed.

Lemma write_row_id (job r : Job) : id (write_row job r) = id r.
Proof. unfold write_row. now destruct (_ =? _)%string. Qed.

Lemma write_row_other (job r : Job) : id r <> id job -> write_row job r = r.
Proof.
  intros H. unfold write_row. apply String.eqb_neq in H. now rewrite H.
Qed.

Lemma row_with_id_write (job : Job) (i : string) (t : Sql.Table) :
  row_with_id i (map (write_row job) t)
  = if (i =? id job)%string
    then option_map (overwrite job) (row_with_id i t)
    else row_with_id i t.
Proof.
  rewrite (row_with_id_map _ (write_row_id job)).
  destruct (row_with_id i t) as [r|] eqn:E.
  - destruct (row_with_id_Some _ _ _ E) as [_ <-]. simpl.
    unfold write_row. now destruct (id r =? id job)%string.
  - now destruct (i =? id job)%string.
Qed.

Lemma update_state_run (env : Env) (st : JobState) (err : option string)
      (job : Job) (w : World) :
  update_state env st err job w
  = (let job' := set_updated_at (now_at env w) (set_state st job) in
     if Py.truthy_str err then set_error err job' else job',
     tick w).
Proof. reflexivity. Qed.

Lemma increment_attempts_run (env : Env) (job : Job) (w : World) :
  increment_attempts env job w
  = (set_updated_at (now_at env w) (set_attempts (attempts job + 1) job),
     tick w).
Proof. reflexivity. Qed.

Lemma execute_run (env : Env) (self_timeout : option Z) (job : Job)
      (w : World) :
  execute env self_timeout job w
  = (let c := next_child env self_timeout job w in
     (negb (is_failure c),
      match c with
      | Exited stdout stderr _ => (stdout ++ stderr)%string
      | _ => ""
      end,
      error_of (effective_timeout self_timeout job) c),
     mkWorld (jobs w) (clock_reads w) (id job :: executions w)).
Proof.
  unfold execute, next_child. cbv zeta.
  destruct (communicate env _ _ _) as [m|s|so se rc]; simpl;
    try reflexivity.
  now rewrite negb_involutive.
Qed.

(** ** Finalization ([Scheduler.process_job]) *)

(** A job that has just been executed is still [processing], so neither
    [should_retry] nor [should_move_to_dlq], which both ask for [failed],
    holds for it. *)
Lemma should_retry_processing (job : Job) :
  state job = PROCESSING -> should_retry job = false.
Proof. unfold should_retry. now intros ->. Qed.

Lemma should_move_to_dlq_processing (job : Job) :
  state job = PROCESSING -> should_move_to_dlq job = false.
Proof. unfold should_move_to_dlq. now intros ->. Qed.

Lemma process_job_failure_run (env : Env) (config : Config) (job j : Job)
      (w : World) :
  row_with_id (id job) (jobs w) = Some j ->
  state j = PROCESSING ->
  is_failure (next_child env (default_timeout config) j w) = true ->
  process_job env config job w
  = (Returns false,
     mkWorld
       (map (write_row
               (failed_attempt (default_timeout config)
                  (next_child env (default_timeout config) j w)
                  (now_at env w) (now_at env (tick w)) j))
            (jobs w))
       (S (S (clock_reads w)))
       (id j :: executions w)).
Proof.
  intros Hrow Hst Hfail.
  unfold process_job, bind, get_job. rewrite Hrow, Hst. cbn [JobState_eqb negb].
  unfold ret at 1. rewrite execute_run. cbv zeta. rewrite Hfail.
  cbn [negb]. rewrite increment_attempts_run.
  rewrite should_retry_processing, should_move_to_dlq_processing
    by (simpl; exact Hst).
  rewrite update_state_run, update_job_run. unfold ret.
  reflexivity.
Qed.

Lemma process_job_success_run (env : Env) (config : Config) (job j : Job)
      (w : World) (stdout stderr : string) :
  row_with_id (id job) (jobs w) = Some j ->
  state j = PROCESSING ->
  next_child env (default_timeout config) j w = Exited stdout stderr 0 ->
  process_job env config job w
  = (Returns true,
     mkWorld
       (map (write_row (completed_attempt (stdout ++ stderr) (now_at env w) j))
            (jobs w))
       (S (clock_reads w))
       (id j :: executions w)).
Proof.
  intros Hrow Hst Hc.
  unfold process_job, bind, get_job. rewrite Hrow, Hst. cbn [JobState_eqb negb].
  unfold ret at 1. rewrite execute_run. cbv zeta. rewrite Hc.
  cbn [is_failure Z.eqb negb]. rewrite update_state_run, update_job_run.
  reflexivity.
Qed.

Lemma failed_attempt_fields (self_timeout : option Z) (c : Communicate)
      (now1 now2 : string) (j : Job) :
  let j' := failed_attempt self_timeout c now1 now2 j in
  id j' = id j /\ state j' = FAILED /\ attempts j' = attempts j + 1
  /\ max_retries j' = max_retries j /\ next_retry_at j' = next_retry_at j
  /\ run_at j' = run_at j.
Proof.
  unfold failed_attempt. cbv zeta.
  destruct (Py.truthy_str _); simpl; repeat split; reflexivity.
Qed.

(** C1 (what the code does instead). A processing job whose execution fails
    is written back with attempts incremented and state failed, whatever
    [max_retries] is: its [next_retry_at] stays as it was, so no backoff is
    scheduled, and it is never moved to dead. *)
Theorem process_job_failure_falls_through
        (env : Env) (config : Config) (job j : Job) (w : World) :
  row_with_id (id job) (jobs w) = Some j ->
  state j = PROCESSING ->
  is_failure (next_child env (default_timeout config) j w) = true ->
  eval (process_job env config job) w = Returns false
  /\ exists j',
       row_with_id (id job) (jobs (exec (process_job env config job) w))
       = Some j'
       /\ state j' = FAILED
       /\ attempts j' = attempts j + 1
       /\ max_retries j' = max_retries j
       /\ next_retry_at j' = next_retry_at j.
Proof.
  intros Hrow Hst Hfail. unfold eval, exec.
  rewrite (process_job_failure_run env config job j w Hrow Hst Hfail).
  cbn [fst snd jobs]. split; [reflexivity|].
  destruct (row_with_id_Some _ _ _ Hrow) as [_ Hid].
  pose proof (failed_attempt_fields (default_timeout config)
                (next_child env (default_timeout config) j w)
                (now_at env w) (now_at env (tick w)) j) as F.
  cbv zeta in F. destruct F as [Fid [Fst [Fat [Fmr [Fnr _]]]]].
  eexists. rewrite row_with_id_write, Fid, Hid, String.eqb_refl, Hrow.
  split; [reflexivity|]. simpl. auto.
Qed.

Lemma process_job_failure_falls_through_witness :
  let w := world_of [claimed_job 0] in
  let env := sample_env (Exited "" "" 1) in
  eval (process_job env DEFAULT_CONFIG (claimed_job 0)) w = Returns false
  /\ exists j',
       row_with_id "b" (jobs (exec (process_job env DEFAULT_CONFIG
                                                (claimed_job 0)) w))
       = Some j'
       /\ state j' = FAILED
       /\ attempts j' = 0 + 1
       /\ max_retries j' = 0
       /\ next_retry_at j' = None.
Proof.
  exact (process_job_failure_falls_through
           (sample_env (Exited "" "" 1)) DEFAULT_CONFIG (claimed_job 0)
           (claimed_job 0) (world_of [claimed_job 0])
           eq_refl eq_refl eq_refl).
Defined.

Example process_job_schedules_no_retry :
  let env := sample_env (Exited "" "" 1) in
  let w := exec (process_job env DEFAULT_CONFIG (claimed_job 2))
                (world_of [claimed_job 2]) in
  option_map (fun j => (state j, attempts j, next_retry_at j, error j))
             (row_with_id "b" (jobs w))
  = Some (FAILED, 1, None, Some "Command failed with exit code 1")
  /\ eval (get_retryable_jobs env) w = [].
Proof. split; reflexivity. Qed.

(** ** Success leaves the error in place ([Job.update_state]) *)

(** C9. [update_state] with no error leaves the [error] field as it was, so
    a processing job that completes keeps the error of an earlier
    attempt. *)
Theorem completed_job_keeps_error
        (env : Env) (config : Config) (job j : Job) (w : World)
        (stdout stderr : string) :
  row_with_id (id job) (jobs w) = Some j ->
  state j = PROCESSING ->
  next_child env (default_timeout config) j w = Exited stdout stderr 0 ->
  (forall any st w0,
      error (eval (update_state env st None any) w0) = error any)
  /\ eval (process_job env config job) w = Returns true
  /\ exists j',
       row_with_id (id job) (jobs (exec (process_job env config job) w))
       = Some j'
       /\ state j' = COMPLETED
       /\ error j' = error j.
Proof.
  intros Hrow Hst Hc. split; [reflexivity|]. unfold eval, exec.
  rewrite (process_job_success_run env config job j w _ _ Hrow Hst Hc).
  cbn [fst snd jobs]. split; [reflexivity|].
  destruct (row_with_id_Some _ _ _ Hrow) as [_ Hid].
  eexists. rewrite row_with_id_write. cbn [completed_attempt id].
  simpl id. rewrite Hid, String.eqb_refl, Hrow.
  split; [reflexivity|]. simpl. auto.
Qed.

Lemma completed_job_keeps_error_witness :
  let w := world_of [retried_job] in
  let env := sample_env (Exited "done" "" 0) in
  (forall any st w0,
      error (eval (update_state env st None any) w0) = error any)
  /\ eval (process_job env DEFAULT_CONFIG retried_job) w = Returns true
  /\ exists j',
       row_with_id "r" (jobs (exec (process_job env DEFAULT_CONFIG
                                                retried_job) w))
       = Some j'
       /\ state j' = COMPLETED
       /\ error j' = Some "Command failed with exit code 2".
Proof.
  exact (completed_job_keeps_error
           (sample_env (Exited "done" "" 0)) DEFAULT_CONFIG retried_job
           retried_job (world_of [retried_job]) "done" ""
           eq_refl eq_refl eq_refl).
Defined.

(** ** Timeouts ([JobExecutor.execute]) *)

(** C7 (as stated, refuted). With [timeout = 1] and a child that wrote
    ["hi"] before it was killed, [execute] reports an empty output. *)
Lemma execute_timeout_counterexample :
  eval (execute (sample_env (TimeoutExpired "hi")) (Some 300) sleepy_job)
       (world_of [sleepy_job])
  = (false, "", Some "Job timed out after 1 seconds")
  /\ ~ execute_timeout_as_claimed.
Proof.
  split; [reflexivity|].
  intros H.
  specialize (H (sample_env (TimeoutExpired "hi")) (Some 300) sleepy_job
                (world_of [sleepy_job]) "hi" eq_refl).
  discriminate H.
Qed.

(** C7 (amended). When the child outlives the time limit, [execute] returns
    [(False, "", "Job timed out after <T> seconds")]: the output is empty,
    and [T] is [job.timeout] when that is set and not zero, else the
    executor's default. [execute] returns a triple for every job and every
    behaviour of the child. *)
Theorem execute_timeout
        (env : Env) (self_timeout : option Z) (job : Job) (w : World)
        (so_far : string) :
  next_child env self_timeout job w = TimeoutExpired so_far ->
  let T := match timeout job with
           | Some t => if t =? 0 then self_timeout else Some t
           | None => self_timeout
           end in
  effective_timeout self_timeout job = T
  /\ eval (execute env self_timeout job) w
     = (false, "",
        Some ("Job timed out after " ++ Py.str_opt_int T ++ " seconds")%string).
Proof.
  intros Hc T.
  assert (HT : effective_timeout self_timeout job = T).
  { unfold effective_timeout, Py.or_, Py.truthy_int, T.
    destruct (timeout job) as [t|]; [|reflexivity].
    now destruct (t =? 0). }
  split; [exact HT|].
  unfold eval. rewrite execute_run. cbv zeta. rewrite Hc, HT. reflexivity.
Qed.

Lemma execute_timeout_witness :
  effective_timeout (Some 300) sleepy_job = Some 1
  /\ eval (execute (sample_env (TimeoutExpired "hi")) (Some 300) sleepy_job)
          (world_of [sleepy_job])
     = (false, "", Some "Job timed out after 1 seconds").
Proof.
  exact (execute_timeout (sample_env (TimeoutExpired "hi")) (Some 300)
                         sleepy_job (world_of [sleepy_job]) "hi" eq_refl).
Defined.

Example execute_timeout_zero :
  eval (execute (sample_env (TimeoutExpired "")) (Some 300) zero_timeout_job)
       (world_of [zero_timeout_job])
  = (false, "", Some "Job timed out after 300 seconds").
Proof. reflexivity. Qed.

Example execute_exit_codes :
  eval (execute (sample_env (Exited "out" "" 3)) None sleepy_job)
       empty_world
  = (false, "out", Some "Command failed with exit code 3")
  /\ eval (execute (sample_env (Exited "out" "warn" 0)) None sleepy_job)
          empty_world
     = (true, "outwarn", Some "warn")
  /\ eval (execute (sample_env (Raised "no such file")) None sleepy_job)
          empty_world
     = (false, "", Some "no such file").
Proof. repeat split. Qed.

(** ** Backoff ([calculate_retry_delay], [schedule_retry]) *)

(** The ranges at their ends: the INTEGER column, [datetime] and
    [timedelta]. *)
Example range_ends :
  Sql.int64 (- 2 ^ 63) = true
  /\ Sql.int64 (2 ^ 63 - 1) = true
  /\ Sql.int64 (2 ^ 63) = false
  /\ Sql.int64 (- 2 ^ 63 - 1) = false
  /\ isoformat_utc datetime_min = "0001-01-01T00:00:00"
  /\ isoformat_utc datetime_max = "9999-12-31T23:59:59.999999"
  /\ timedelta_seconds (86400 * 1000000000 - 1)
     = Returns ((86400 * 1000000000 - 1) * 1000000)
  /\ timedelta_seconds (86400 * 1000000000) = Raises OverflowError
  /\ datetime_add datetime_max 1 = Raises OverflowError
  /\ Py.int_of_float (S754_finite true 5 (-1)) = Returns (-2).
Proof. repeat split. Qed.

Lemma calculate_retry_delay_int (env : Env) (config : Config) (z a : Z) :
  backoff_base config = Py.PyInt z -> 0 <= a ->
  calculate_retry_delay env config a = Returns (z ^ a).
Proof.
  intros Hb Ha. unfold calculate_retry_delay, Py.pow. rewrite Hb.
  now rewrite (proj2 (Z.leb_le 0 a) Ha).
Qed.

Lemma schedule_retry_cases (env : Env) (config : Config) (job : Job)
      (w : World) :
  schedule_retry env config job w
  = match calculate_retry_delay env config (attempts job) with
    | Raises e => (Raises e, w)
    | Returns delay =>
        if retry_time_representable (utcnow env (clock_reads w)) delay
        then
          let J := retry_scheduled env (utcnow env (clock_reads w)) delay
                                   (now_at env (tick w)) job in
          (Returns J,
           mkWorld (map (write_row J) (jobs w)) (S (S (clock_reads w)))
                   (executions w))
        else (Raises OverflowError, tick w)
    end.
Proof.
  unfold schedule_retry.
  destruct (calculate_retry_delay env config (attempts job)) as [delay|e];
    [|reflexivity].
  unfold bind, read_clock, retry_time_representable, timedelta_seconds,
    datetime_add.
  destruct (Z.abs (delay / 86400) <=? 999999999); [|reflexivity].
  cbn [andb].
  destruct ((datetime_min <=? utcnow env (clock_reads w) + delay * 1000000)
            && (utcnow env (clock_reads w) + delay * 1000000
                <=? datetime_max)); [|reflexivity].
  rewrite update_state_run, update_job_run. reflexivity.
Qed.

(** C4 (as stated, refuted). With the default base 2 the delay is more than
    a day after 17 attempts, and no cap bounds it; with base 0 the delay is
    0 seconds. After [config set backoff-base 3] the base is the float 3.0,
    and with a correctly rounded floating-point power the delay after 40
    attempts is not [3 ^ 40]. After 38 attempts, at a clock reading in 2026,
    [schedule_retry] raises [OverflowError] and writes nothing. *)
Lemma calculate_retry_delay_counterexample :
  calculate_retry_delay frozen_env DEFAULT_CONFIG 17 = Returns 131072
  /\ calculate_retry_delay frozen_env (mkConfig 3 (Py.PyInt 0) (Some 300)) 1
     = Returns 0
  /\ calculate_retry_delay frozen_env float_config 40
     = Returns 12157665459056928768
  /\ 3 ^ 40 = 12157665459056928801
  /\ (let job := set_attempts 38 (claimed_job 50) in
      schedule_retry frozen_env DEFAULT_CONFIG job (world_of [job])
      = (Raises OverflowError, tick (world_of [job])))
  /\ ~ backoff_as_claimed.
Proof.
  split; [reflexivity|]. split; [reflexivity|].
  split; [vm_compute; reflexivity|]. split; [reflexivity|].
  split; [vm_compute; reflexivity|].
  intros [cap H].
  destruct (H frozen_env DEFAULT_CONFIG (Z.max 0 cap) (Z.le_max_l _ _))
    as [delay [Hd [_ Hcap]]].
  rewrite (calculate_retry_delay_int frozen_env DEFAULT_CONFIG 2 _ eq_refl
             (Z.le_max_l _ _)) in Hd.
  injection Hd as <-.
  pose proof (Z.pow_gt_lin_r 2 (Z.max 0 cap)) as Hpow.
  lia.
Qed.

Lemma pow_exceeds (z a bound : Z) :
  2 <= z -> 0 <= a ->
  exists a', a <= a' /\ bound < z ^ a'.
Proof.
  intros Hz Ha. exists (Z.max a bound). split; [lia|].
  pose proof (Z.pow_gt_lin_r 2 (Z.max a bound)) as H1.
  assert (H2 : 2 ^ Z.max a bound <= z ^ Z.max a bound)
    by (apply Z.pow_le_mono_l; lia).
  lia.
Qed.

(** C4 (amended). The delay is [int(base ** attempts)], with no minimum and
    no cap. For an [int] base and [attempts >= 0] it is exactly
    [base ^ attempts]: at least one second and not decreasing from one
    attempt to the next when the base is at least 1, and above every bound
    for some later attempt when the base is at least 2. For a [float] base
    it is the platform's floating-point power truncated towards zero, and
    an exception of that power is the outcome. [schedule_retry] stores now
    plus the delay as [next_retry_at] of a failed job when that time is
    within the range of [datetime]; when it is not, [OverflowError] is raised
    and the table is left as it was, and with an [int] base of at least 2
    that happens from some number of attempts on. *)
Theorem calculate_retry_delay_exact
        (env : Env) (config : Config) (job : Job) (w : World) :
  0 <= attempts job ->
  let a := attempts job in
  let now := utcnow env (clock_reads w) in
  let r := eval (schedule_retry env config job) w in
  let w' := exec (schedule_retry env config job) w in
  (forall z,
      backoff_base config = Py.PyInt z ->
      calculate_retry_delay env config a = Returns (z ^ a)
      /\ (1 <= z -> 1 <= z ^ a <= z ^ (a + 1))
      /\ (2 <= z ->
          (forall bound, exists a',
              a <= a'
              /\ calculate_retry_delay env config a' = Returns (z ^ a')
              /\ bound < z ^ a')
          /\ exists a0,
               forall job', a0 <= attempts job' ->
                 eval (schedule_retry env config job') w
                 = Raises OverflowError
                 /\ jobs (exec (schedule_retry env config job') w)
                    = jobs w))
  /\ (forall x,
         backoff_base config = Py.PyFloat x ->
         calculate_retry_delay env config a
         = match float_pow env (Py.PyFloat x) a with
           | Returns y => Py.int_of_float y
           | Raises e => Raises e
           end)
  /\ (forall delay,
         calculate_retry_delay env config a = Returns delay ->
         if retry_time_representable now delay
         then exists j',
                r = Returns j'
                /\ state j' = FAILED
                /\ next_retry_at j'
                   = Some (isoformat env (now + 1000000 * delay)
                           ++ "Z")%string
                /\ attempts j' = a
                /\ jobs w' = map (write_row j') (jobs w)
         else r = Raises OverflowError /\ jobs w' = jobs w)
  /\ (forall e,
         calculate_retry_delay env config a = Raises e ->
         r = Raises e /\ w' = w).
Proof.
  intros Hnn a now r w'.
  split; [|split; [|split]].
  - intros z Hb. split; [now apply calculate_retry_delay_int|]. split.
    + intros Hz. split.
      * apply (Z.pow_pos_nonneg z a) in Hnn; lia.
      * apply Z.pow_le_mono_r; lia.
    + intros Hz. split.
      * intros bound.
        destruct (pow_exceeds z a bound Hz Hnn) as [a' [Ha' Hb']].
        exists a'. split; [exact Ha'|]. split; [|exact Hb'].
        apply calculate_retry_delay_int; [exact Hb|lia].
      * destruct (pow_exceeds z 0 (datetime_max - now) Hz (Z.le_refl 0))
          as [a0 [Ha0 Hb0]].
        exists a0. intros job' Hj'. unfold eval, exec.
        rewrite schedule_retry_cases.
        rewrite (calculate_retry_delay_int env config z _ Hb)
          by lia.
        assert (Hbig : z ^ a0 <= z ^ attempts job')
          by (apply Z.pow_le_mono_r; lia).
        assert (Hno : retry_time_representable
                        (utcnow env (clock_reads w)) (z ^ attempts job')
                      = false).
        { unfold retry_time_representable. fold now.
          apply andb_false_iff. right. apply Z.leb_gt. lia. }
        rewrite Hno. split; reflexivity.
  - intros x Hb. unfold calculate_retry_delay, Py.pow. rewrite Hb.
    now destruct (float_pow env (Py.PyFloat x) a).
  - intros delay Hd. unfold r, w', eval, exec.
    rewrite schedule_retry_cases. fold a. rewrite Hd. fold now.
    destruct (retry_time_representable now delay).
    + cbv zeta. cbn [fst snd]. eexists. split; [reflexivity|].
      split; [reflexivity|]. split.
      * simpl. now rewrite (Z.mul_comm delay).
      * split; reflexivity.
    + split; reflexivity.
  - intros e He. unfold r, w', eval, exec.
    rewrite schedule_retry_cases. fold a. rewrite He. split; reflexivity.
Qed.

Lemma calculate_retry_delay_exact_witness :
  let job := set_attempts 3 (claimed_job 5) in
  let env := sample_env (Exited "" "" 1) in
  calculate_retry_delay env DEFAULT_CONFIG 3 = Returns 8
  /\ exists j',
       eval (schedule_retry env DEFAULT_CONFIG job) (world_of [job])
       = Returns j'
       /\ state j' = FAILED
       /\ next_retry_at j' = Some "2026-11-03T09:30:08Z"
       /\ jobs (exec (schedule_retry env DEFAULT_CONFIG job)
                     (world_of [job]))
          = [j'].
Proof.
  intros job env.
  destruct (calculate_retry_delay_exact env DEFAULT_CONFIG job
              (world_of [job]) ltac:(simpl; lia))
    as [Hint [_ [Hsched _]]].
  destruct (Hint 2 eq_refl) as [Hd _].
  split; [exact Hd|].
  specialize (Hsched 8 Hd).
  destruct Hsched as [j' [Hr [Hst [Hnr [_ Hjobs]]]]].
  exists j'. split; [exact Hr|]. split; [exact Hst|].
  split; [exact Hnr|]. rewrite Hjobs.
  assert (Hj : j' = retry_scheduled env 1793698200000000 8
                      "2026-11-03T09:30:00.250000Z" job)
    by (vm_compute in Hr; now injection Hr as <-).
  rewrite Hj. reflexivity.
Defined.

(** ** The dead-letter listing ([Storage.get_dlq_jobs]) *)

Lemma created_desc_total (a b : Job) :
  created_desc a b = false -> created_desc b a = true.
Proof. unfold created_desc. apply string_leb_false. Qed.

Lemma created_desc_trans (a b c : Job) :
  created_desc a b = true -> created_desc b c = true ->
  created_desc a c = true.
Proof.
  unfold created_desc. intros H1 H2. eapply string_leb_trans; eassumption.
Qed.

Lemma primary_key_NoDup (t : Sql.Table) :
  primary_key_ok t = true -> NoDup t.
Proof.
  induction t as [|r t IH]; simpl; [constructor|].
  intros H. apply andb_true_iff in H. destruct H as [Hr Hpk].
  apply negb_true_iff in Hr. constructor; [|auto].
  intros Hin. exact (existsb_id_false _ _ Hr r Hin eq_refl).
Qed.

Lemma NoDup_app_disjoint (l1 l2 : list Job) :
  NoDup (l1 ++ l2) -> forall a, In a l2 -> ~ In a l1.
Proof.
  induction l1 as [|x l1 IH]; simpl; [tauto|].
  intros Hnd a H2 [<-|H1].
  - inversion Hnd as [|? ? Hx _]; subst. apply Hx, in_or_app. now right.
  - inversion Hnd as [|? ? _ Hnd']; subst. now apply (IH Hnd' a).
Qed.

Lemma In_firstn (n : nat) (l : list Job) (x : Job) :
  In x (firstn n l) -> In x l.
Proof.
  intros H. rewrite <- (firstn_skipn n l). apply in_or_app. now left.
Qed.

Lemma sorted_firstn (before : Job -> Job -> bool) (n : nat) (l : list Job) :
  StronglySorted (precedes before) l ->
  StronglySorted (precedes before) (firstn n l).
Proof.
  revert l. induction n as [|n IH]; intros l Hs; [constructor|].
  destruct Hs as [|x l Hs Hall]; simpl; [constructor|].
  constructor; [now apply IH|].
  apply Forall_forall. intros y Hy. rewrite Forall_forall in Hall.
  apply Hall. rewrite <- (firstn_skipn n l). apply in_or_app. now left.
Qed.

Lemma get_dlq_jobs_run (w : World) :
  get_dlq_jobs w
  = (Returns
       (firstn 100
          (Sql.order_by created_desc
             (filter (fun r => JobState_eqb (state r) DEAD) (jobs w)))),
     w).
Proof. reflexivity. Qed.

(** C10 (what the code does). The dead-letter listing never raises and
    never has more than 100 jobs, all of them dead jobs of the store. Up to
    100 dead jobs are all listed; beyond that exactly 100 are. The order of
    the listing, and so the choice of the jobs left out, is the descending
    bytewise order of the [created_at] texts, which is how SQLite orders a
    TEXT column: a job left out has a [created_at] text that is not above
    that of any listed job. That is not the order of the creation times:
    see [get_dlq_jobs_omits_newer]. *)
Theorem get_dlq_jobs_truncated (w : World) :
  primary_key_ok (jobs w) = true ->
  let dead := filter (fun r => JobState_eqb (state r) DEAD) (jobs w) in
  exists listed,
  eval get_dlq_jobs w = Returns listed
  /\ (List.length listed <= 100)%nat
  /\ (forall j, In j listed -> In j (jobs w) /\ state j = DEAD)
  /\ StronglySorted (precedes created_desc) listed
  /\ ((List.length dead <= 100)%nat -> Permutation listed dead)
  /\ ((100 < List.length dead)%nat ->
      List.length listed = 100%nat
      /\ exists omitted,
           omitted <> []
           /\ Permutation (listed ++ omitted) dead
           /\ forall o r, In o omitted -> In r listed ->
                          ~ In o listed
                          /\ String.leb (created_at o) (created_at r) = true).
Proof.
  intros Hpk dead. unfold eval. rewrite get_dlq_jobs_run. fold dead.
  eexists. split; [reflexivity|].
  set (sorted := Sql.order_by created_desc dead).
  assert (Hperm : Permutation dead sorted) by apply order_by_perm.
  assert (Hlen : List.length sorted = List.length dead)
    by apply order_by_length.
  split; [apply firstn_le_length|]. split; [|split; [|split]].
  - intros j Hj. apply In_firstn in Hj.
    apply (proj1 (order_by_In created_desc dead j)) in Hj.
    apply filter_In in Hj. destruct Hj as [Hin Hst].
    now apply JobState_eqb_eq in Hst.
  - apply sorted_firstn.
    apply (order_by_sorted _ created_desc_total created_desc_trans).
  - intros Hle. rewrite firstn_all2 by lia. now symmetry.
  - intros Hgt. split; [rewrite length_firstn; lia|].
    exists (skipn 100 sorted).
    assert (Hsplit : firstn 100 sorted ++ skipn 100 sorted = sorted)
      by apply firstn_skipn.
    split; [|split].
    + intros E. apply (f_equal (@List.length Job)) in E.
      rewrite length_skipn in E. simpl in E. lia.
    + rewrite Hsplit. now symmetry.
    + intros o r Ho Hr. split.
      * apply (NoDup_app_disjoint (firstn 100 sorted) (skipn 100 sorted));
          [|exact Ho].
        rewrite Hsplit. apply (Permutation_NoDup Hperm).
        apply NoDup_filter. now apply primary_key_NoDup.
      * apply (sorted_split created_desc (firstn 100 sorted)
                            (skipn 100 sorted)); [|exact Hr|exact Ho].
        rewrite Hsplit.
        apply (order_by_sorted _ created_desc_total created_desc_trans).
Qed.

(** ** One iteration of the worker loop *)

Lemma get_retryable_jobs_run (env : Env) (w : World) :
  get_retryable_jobs env w
  = (Sql.order_by (fun a b => Sql.text_asc (next_retry_at a) (next_retry_at b))
       (filter (failed_and_due (now_at env w)) (jobs w)),
     tick w).
Proof. reflexivity. Qed.

Lemma process_job_processing_cases (env : Env) (config : Config)
      (job j : Job) (w : World) :
  row_with_id (id job) (jobs w) = Some j ->
  state j = PROCESSING ->
  exists (J : Job) (reads : nat),
    exec (process_job env config job) w
    = mkWorld (map (write_row J) (jobs w)) reads (id j :: executions w)
    /\ id J = id j
    /\ max_retries J = max_retries j
    /\ next_retry_at J = next_retry_at j
    /\ run_at J = run_at j
    /\ ((is_failure (next_child env (default_timeout config) j w) = true
         /\ state J = FAILED /\ attempts J = attempts j + 1)
        \/ (is_failure (next_child env (default_timeout config) j w) = false
            /\ state J = COMPLETED /\ attempts J = attempts j)).
Proof.
  intros Hrow Hst. unfold exec.
  destruct (is_failure (next_child env (default_timeout config) j w)) eqn:Hf.
  - rewrite (process_job_failure_run env config job j w Hrow Hst Hf).
    pose proof (failed_attempt_fields (default_timeout config)
                  (next_child env (default_timeout config) j w)
                  (now_at env w) (now_at env (tick w)) j) as F.
    cbv zeta in F. destruct F as [Fid [Fst [Fat [Fmr [Fnr Fra]]]]].
    do 2 eexists. split; [reflexivity|]. repeat split; auto.
  - destruct (next_child env (default_timeout config) j w)
      as [m|s|so se rc] eqn:Hc; try discriminate.
    simpl in Hf. apply negb_false_iff, Z.eqb_eq in Hf. subst rc.
    rewrite (process_job_success_run env config job j w so se Hrow Hst Hc).
    do 2 eexists. split; [reflexivity|]. simpl. repeat split; auto.
Qed.

Lemma process_job_clock (env : Env) (config : Config) (job j : Job)
      (w : World) :
  row_with_id (id job) (jobs w) = Some j ->
  state j = PROCESSING ->
  (clock_reads w <= clock_reads (exec (process_job env config job) w))%nat.
Proof.
  intros Hrow Hst. unfold exec.
  destruct (is_failure (next_child env (default_timeout config) j w)) eqn:Hf.
  - rewrite (process_job_failure_run env config job j w Hrow Hst Hf).
    cbn [snd clock_reads]. lia.
  - destruct (next_child env (default_timeout config) j w)
      as [m|s|so se rc] eqn:Hc; try discriminate.
    simpl in Hf. apply negb_false_iff, Z.eqb_eq in Hf. subst rc.
    rewrite (process_job_success_run env config job j w so se Hrow Hst Hc).
    cbn [snd clock_reads]. lia.
Qed.

(** A property [Q] of the world is kept by a pass of the worker loop when
    the steps of the pass keep it; [C] is what the pass may assume of the id
    it picked, in the world it picked it in and after the claim. *)
Section WorkerPass.

Variable env : Env.
Variable config : Config.
Variable Q : World -> Prop.
Variable C : World -> string -> Prop.

Hypothesis Q_key : forall w, Q w -> primary_key_ok (jobs w) = true.
Hypothesis Q_next :
  forall w, Q w ->
            Q (exec (get_next_job env) w)
            /\ forall job, eval (get_next_job env) w = Some job ->
                           C (exec (get_next_job env) w) (id job).
Hypothesis Q_claim :
  forall w x, Q w -> C w x ->
              Q (set_jobs (map (claim_row x) (jobs w)) w)
              /\ C (set_jobs (map (claim_row x) (jobs w)) w) x.
Hypothesis Q_process :
  forall w job j,
    Q w -> C w (id job) ->
    row_with_id (id job) (jobs w) = Some j -> state j = PROCESSING ->
    Q (exec (process_job env config job) w).

Lemma work_iteration_pass (w : World) :
  Q w -> Q (exec (work_iteration env config) w).
Proof.
  intros HQ. apply Q_next in HQ. destruct HQ as [HQ HC].
  unfold exec, eval in HQ, HC |- *. unfold work_iteration, bind.
  destruct (get_next_job env w) as [[job|] w1]; cbn [fst snd] in *;
    [|exact HQ].
  specialize (HC job eq_refl).
  rewrite acquire_job_lock_run.
  pose proof (Q_key _ HQ) as Hpk.
  rewrite (existsb_by_id (fun r => JobState_eqb (state r) PENDING) _ _ Hpk).
  destruct (Q_claim _ (id job) HQ HC) as [HQ2 HC2].
  destruct (row_with_id (id job) (jobs w1)) as [j1|] eqn:E1;
    [|exact HQ2].
  destruct (JobState_eqb (state j1) PENDING) eqn:Hst; [|exact HQ2].
  cbn [negb]. unfold get_job.
  destruct (row_with_id_Some _ _ _ E1) as [_ Hid].
  assert (E2 : row_with_id (id job)
                 (jobs (set_jobs (map (claim_row (id job)) (jobs w1)) w1))
               = Some (set_state PROCESSING j1)).
  { cbn [jobs set_jobs].
    rewrite (row_with_id_map _ (claim_row_id (id job))), E1. simpl.
    unfold claim_row. now rewrite Hid, String.eqb_refl, Hst. }
  rewrite E2.
  pose proof (Q_process _ (set_state PROCESSING j1) (set_state PROCESSING j1)
                        HQ2) as HQ3.
  unfold exec in HQ3.
  destruct (process_job env config (set_state PROCESSING j1) _) as [b w4].
  apply HQ3; [| |reflexivity]; simpl id; now rewrite Hid.
Qed.

Lemma work_loop_pass (n : nat) (w : World) :
  Q w -> Q (exec (work_loop env config n) w).
Proof.
  revert w. induction n as [|n IH]; intros w HQ; [exact HQ|].
  pose proof (work_iteration_pass w HQ) as H1.
  unfold exec in H1 |- *. simpl. unfold bind.
  destruct (work_iteration env config w) as [u w1]. now apply IH.
Qed.

End WorkerPass.

(** The same rule when nothing is assumed of the picked id. *)
Section WorkerRule.

Variable env : Env.
Variable config : Config.
Variable Q : World -> Prop.

Hypothesis Q_key : forall w, Q w -> primary_key_ok (jobs w) = true.
Hypothesis Q_tick : forall w, Q w -> Q (tick w).
Hypothesis Q_release :
  forall w now x, Q w -> Q (set_jobs (map (release_row now x) (jobs w)) w).
Hypothesis Q_claim :
  forall w x, Q w -> Q (set_jobs (map (claim_row x) (jobs w)) w).
Hypothesis Q_process :
  forall w job j,
    Q w -> row_with_id (id job) (jobs w) = Some j -> state j = PROCESSING ->
    Q (exec (process_job env config job) w).

Lemma get_next_job_rule (w : World) : Q w -> Q (exec (get_next_job env) w).
Proof.
  intros HQ. unfold exec, get_next_job, bind.
  rewrite get_retryable_jobs_run.
  destruct (Sql.order_by _ _) as [|job rest].
  - rewrite get_next_pending_job_run. cbn [snd]. apply (Q_tick (tick w)).
    now apply Q_tick.
  - rewrite reset_retryable_run.
    assert (HQ' : Q (mkWorld (map (release_row (now_at env (tick w)) (id job))
                                  (jobs (tick w)))
                             (S (clock_reads (tick w)))
                             (executions (tick w)))).
    { apply (Q_release (tick (tick w))). now do 2 apply Q_tick. }
    destruct (existsb _ _).
    + exact HQ'.
    + rewrite get_next_pending_job_run. cbn [snd]. now apply Q_tick in HQ'.
Qed.

Lemma work_iteration_rule (w : World) :
  Q w -> Q (exec (work_iteration env config) w).
Proof.
  apply (work_iteration_pass env config Q (fun _ _ => True)).
  - exact Q_key.
  - intros w' HQ. split; [now apply get_next_job_rule|auto].
  - intros w' x HQ _. split; [now apply Q_claim|exact I].
  - intros w' job j HQ _. now apply Q_process.
Qed.

Lemma work_loop_rule (n : nat) (w : World) :
  Q w -> Q (exec (work_loop env config n) w).
Proof.
  apply (work_loop_pass env config Q (fun _ _ => True)).
  - exact Q_key.
  - intros w' HQ. split; [now apply get_next_job_rule|auto].
  - intros w' x HQ _. split; [now apply Q_claim|exact I].
  - intros w' job j HQ _. now apply Q_process.
Qed.

End WorkerRule.

(** ** A job that always fails *)

Lemma release_row_no_retry (now x : string) (r : Job) :
  next_retry_at r = None -> release_row now x r = r.
Proof.
  intros H. unfold release_row, failed_and_due. rewrite H.
  now rewrite andb_false_r, andb_false_r.
Qed.

Lemma executions_of_cons (i x : string) (t : Sql.Table) (n : nat)
      (ex : list string) :
  executions_of i (mkWorld t n (x :: ex))
  = executions_of i (mkWorld t n ex) + (if (x =? i)%string then 1 else 0).
Proof.
  unfold executions_of. cbn [executions].
  destruct (String.eqb_spec x i) as [->|Hne].
  - rewrite count_occ_cons_eq by reflexivity. lia.
  - rewrite count_occ_cons_neq by exact Hne. lia.
Qed.

Section FailingJob.

Variable env : Env.
Variable config : Config.
Variables (i : string) (k e0 : Z).
Hypothesis env_fails : always_fails env.

Lemma failing_inv_tick (w : World) :
  failing_inv i k e0 w -> failing_inv i k e0 (tick w).
Proof. exact (fun H => H). Qed.

Lemma failing_inv_release (w : World) (now x : string) :
  failing_inv i k e0 w ->
  failing_inv i k e0 (set_jobs (map (release_row now x) (jobs w)) w).
Proof.
  intros [Hpk [j [Hrow [Hk [Hnr Hst]]]]]. split.
  - cbn [jobs set_jobs].
    now rewrite (primary_key_ok_map _ (release_row_id now x)).
  - exists j. cbn [jobs set_jobs].
    rewrite (row_with_id_map _ (release_row_id now x)), Hrow. simpl.
    rewrite (release_row_no_retry _ _ _ Hnr). auto.
Qed.

Lemma failing_inv_claim (w : World) (x : string) :
  failing_inv i k e0 w ->
  failing_inv i k e0 (set_jobs (map (claim_row x) (jobs w)) w).
Proof.
  intros [Hpk [j [Hrow [Hk [Hnr Hst]]]]]. split.
  - cbn [jobs set_jobs].
    now rewrite (primary_key_ok_map _ (claim_row_id x)).
  - cbn [jobs set_jobs].
    rewrite (row_with_id_map _ (claim_row_id x)), Hrow. simpl.
    unfold claim_row.
    destruct ((id j =? x)%string && JobState_eqb (state j) PENDING) eqn:E.
    + exists (set_state PROCESSING j). split; [reflexivity|].
      apply andb_true_iff in E. destruct E as [_ E].
      apply JobState_eqb_eq in E.
      destruct Hst as [[_ H]|[H _]]; [|congruence].
      simpl. repeat split; auto.
    + exists j. auto.
Qed.

Lemma failing_inv_process (w : World) (job j : Job) :
  failing_inv i k e0 w ->
  row_with_id (id job) (jobs w) = Some j ->
  state j = PROCESSING ->
  failing_inv i k e0 (exec (process_job env config job) w).
Proof.
  intros [Hpk [ji [Hrow [Hk [Hnr Hst]]]]] Hj Hproc.
  destruct (process_job_processing_cases env config job j w Hj Hproc)
    as [J [reads [-> [Jid [Jmr [Jnr [_ Jcase]]]]]]].
  destruct Jcase as [[_ [Jst Jat]]|[Hf _]];
    [|unfold next_child in Hf; now rewrite env_fails in Hf].
  destruct (row_with_id_Some _ _ _ Hj) as [_ Hidj].
  split.
  - cbn [jobs]. now rewrite (primary_key_ok_map _ (write_row_id J)).
  - cbn [jobs]. rewrite row_with_id_write, Jid, Hrow, executions_of_cons.
    replace (executions_of i (mkWorld (map (write_row J) (jobs w)) reads
                                      (executions w)))
      with (executions_of i w) by reflexivity.
    rewrite (String.eqb_sym i (id j)).
    destruct (String.eqb_spec (id j) i) as [E|E].
    + assert (ji = j) by congruence. subst ji.
      exists (overwrite J j). split; [reflexivity|].
      destruct Hst as [[_ [Hat He]]|[H _]]; [|congruence].
      simpl. split; [congruence|]. split; [congruence|].
      right. repeat split; [exact Jst|lia|lia].
    + exists ji. split; [reflexivity|]. split; [exact Hk|].
      split; [exact Hnr|]. now rewrite Z.add_0_r.
Qed.

Lemma failing_inv_work_loop (n : nat) (w : World) :
  failing_inv i k e0 w ->
  failing_inv i k e0 (exec (work_loop env config n) w).
Proof.
  apply (work_loop_rule env config (failing_inv i k e0)).
  - now intros w' [H _].
  - exact failing_inv_tick.
  - exact failing_inv_release.
  - exact failing_inv_claim.
  - exact failing_inv_process.
Qed.

End FailingJob.

Lemma freshly_enqueued_inv (i : string) (k : Z) (j : Job) (w : World) :
  primary_key_ok (jobs w) = true ->
  row_with_id i (jobs w) = Some j ->
  freshly_enqueued k j ->
  failing_inv i k (executions_of i w) w.
Proof.
  intros Hpk Hrow [Hst [Hat [Hk Hnr]]]. split; [exact Hpk|].
  exists j. repeat split; auto.
Qed.

(** C2 (at the failing input). A job enqueued with [max_retries = 2] whose
    command is [exit 1] has been executed once after ten passes of the
    worker loop, has [attempts = 1], and is failed with no [next_retry_at];
    it is not dead after any number of passes. *)
Lemma failing_job_stays_failed :
  let env := sample_env (Exited "" "" 1) in
  let w1 := exec (enqueue env DEFAULT_CONFIG
                    (mkJobData "b" "exit 1" (Some 2) None None None))
                 empty_world in
  let after n := exec (work_loop env DEFAULT_CONFIG n) w1 in
  option_map (fun j => (state j, attempts j, next_retry_at j))
             (row_with_id "b" (jobs (after 10%nat)))
  = Some (FAILED, 1, None)
  /\ executions (after 10%nat) = ["b"]
  /\ ~ exists n,
         option_map state (row_with_id "b" (jobs (after n))) = Some DEAD.
Proof.
  intros env w1 after. split; [reflexivity|]. split; [reflexivity|].
  intros [n Hn].
  assert (Hinv : failing_inv "b" 2 0 w1).
  { apply (freshly_enqueued_inv "b" 2
             (mkJob "b" "exit 1" PENDING 0 2 "2026-11-03T09:30:00Z"
                    "2026-11-03T09:30:00Z" 0 None (Some 300) None None None)
             w1); [reflexivity|reflexivity|].
    repeat split. }
  apply (failing_inv_work_loop env DEFAULT_CONFIG "b" 2 0) with (n := n)
    in Hinv; [|intros ? ? ?; reflexivity].
  destruct Hinv as [_ [j [Hrow [_ [_ Hst]]]]].
  unfold after in Hn. rewrite Hrow in Hn. simpl in Hn.
  destruct Hst as [[[H|H] _]|[H _]]; congruence.
Qed.

(** C2 (what the code does). While every execution fails, a job enqueued
    with any [max_retries = k] is executed at most once, however long the
    workers run: before its execution it is pending or processing with no
    attempts; from its first execution on it is failed with [attempts = 1]
    and no [next_retry_at], so it is never released for a retry, never
    executed a second time and never dead. *)
Theorem failing_job_never_dead
        (env : Env) (config : Config) (i : string) (k : Z) (j0 : Job)
        (w0 : World) (n : nat) :
  always_fails env ->
  primary_key_ok (jobs w0) = true ->
  row_with_id i (jobs w0) = Some j0 ->
  freshly_enqueued k j0 ->
  let w := exec (work_loop env config n) w0 in
  let runs := executions_of i w - executions_of i w0 in
  exists j,
    row_with_id i (jobs w) = Some j
    /\ max_retries j = k
    /\ next_retry_at j = None
    /\ state j <> DEAD
    /\ attempts j = runs
    /\ 0 <= runs <= 1
    /\ (runs = 0 -> state j = PENDING \/ state j = PROCESSING)
    /\ (runs = 1 -> state j = FAILED).
Proof.
  intros Hfail Hpk Hrow Hfresh w runs.
  pose proof (freshly_enqueued_inv i k j0 w0 Hpk Hrow Hfresh) as Hinv.
  apply (failing_inv_work_loop env config i k _ Hfail n) in Hinv.
  fold w in Hinv. destruct Hinv as [_ [j [Hj [Hmr [Hnr Hst]]]]].
  exists j. split; [exact Hj|]. split; [exact Hmr|]. split; [exact Hnr|].
  unfold runs.
  destruct Hst as [[Hs [Hat He]]|[Hs [Hat He]]].
  - split; [destruct Hs; congruence|]. split; [lia|]. split; [lia|].
    split; [intros _; exact Hs|lia].
  - split; [congruence|]. split; [lia|]. split; [lia|].
    split; [lia|intros _; exact Hs].
Qed.

Lemma failing_job_never_dead_witness :
  let env := sample_env (Exited "" "" 1) in
  let w0 := exec (enqueue env DEFAULT_CONFIG
                    (mkJobData "b" "exit 1" (Some 2) None None None))
                 empty_world in
  let w := exec (work_loop env DEFAULT_CONFIG 5) w0 in
  let runs := executions_of "b" w - executions_of "b" w0 in
  exists j,
    row_with_id "b" (jobs w) = Some j
    /\ max_retries j = 2
    /\ next_retry_at j = None
    /\ state j <> DEAD
    /\ attempts j = runs
    /\ 0 <= runs <= 1
    /\ (runs = 0 -> state j = PENDING \/ state j = PROCESSING)
    /\ (runs = 1 -> state j = FAILED).
Proof.
  apply (failing_job_never_dead
           (sample_env (Exited "" "" 1)) DEFAULT_CONFIG "b" 2
           (mkJob "b" "exit 1" PENDING 0 2 "2026-11-03T09:30:00Z"
                  "2026-11-03T09:30:00Z" 0 None (Some 300) None None None)).
  - intros ? ? ?. reflexivity.
  - reflexivity.
  - reflexivity.
  - repeat split.
Defined.

(** ** [next_retry_at] is set only on failed jobs *)

Lemma next_retry_inv_map (f : Job -> Job) (t : Sql.Table) :
  (forall r, In r t -> retry_only_when_failed r = true ->
             retry_only_when_failed (f r) = true) ->
  next_retry_inv t = true -> next_retry_inv (map f t) = true.
Proof.
  unfold next_retry_inv. rewrite !forallb_forall. intros Hf Ht r Hr.
  apply in_map_iff in Hr. destruct Hr as [r0 [<- Hr0]]. auto.
Qed.

Lemma retry_ok_release (now x : string) (r : Job) :
  retry_only_when_failed r = true ->
  retry_only_when_failed (release_row now x r) = true.
Proof. unfold release_row. now destruct (_ && _). Qed.

Lemma retry_ok_claim (x : string) (r : Job) :
  retry_only_when_failed r = true ->
  retry_only_when_failed (claim_row x r) = true.
Proof.
  unfold claim_row. destruct (_ && _) eqn:E; [|auto].
  apply andb_true_iff in E. destruct E as [_ E]. apply JobState_eqb_eq in E.
  unfold retry_only_when_failed. simpl. rewrite E.
  now destruct (next_retry_at r).
Qed.

Lemma retry_ok_write (J r : Job) :
  retry_only_when_failed J = true ->
  retry_only_when_failed r = true ->
  retry_only_when_failed (write_row J r) = true.
Proof. unfold write_row. now destruct (_ =? _)%string. Qed.

Lemma retry_ok_In (t : Sql.Table) (r : Job) :
  next_retry_inv t = true -> In r t -> retry_only_when_failed r = true.
Proof. unfold next_retry_inv. rewrite forallb_forall. auto. Qed.

Lemma store_inv_write (J : Job) (w : World) (reads : nat)
      (ex : list string) :
  store_inv w ->
  retry_only_when_failed J = true ->
  store_inv (mkWorld (map (write_row J) (jobs w)) reads ex).
Proof.
  intros [Hpk Hinv] HJ. split; cbn [jobs].
  - now rewrite (primary_key_ok_map _ (write_row_id J)).
  - apply next_retry_inv_map; [|exact Hinv].
    intros r _. now apply retry_ok_write.
Qed.

Section StoreInv.

Variable env : Env.
Variable config : Config.

Lemma store_inv_tick (w : World) : store_inv w -> store_inv (tick w).
Proof. exact (fun H => H). Qed.

Lemma store_inv_release (w : World) (now x : string) :
  store_inv w -> store_inv (set_jobs (map (release_row now x) (jobs w)) w).
Proof.
  intros [Hpk Hinv]. split; cbn [jobs set_jobs].
  - now rewrite (primary_key_ok_map _ (release_row_id now x)).
  - apply next_retry_inv_map; [|exact Hinv].
    intros r _. apply retry_ok_release.
Qed.

Lemma store_inv_claim (w : World) (x : string) :
  store_inv w -> store_inv (set_jobs (map (claim_row x) (jobs w)) w).
Proof.
  intros [Hpk Hinv]. split; cbn [jobs set_jobs].
  - now rewrite (primary_key_ok_map _ (claim_row_id x)).
  - apply next_retry_inv_map; [|exact Hinv].
    intros r _. apply retry_ok_claim.
Qed.

Lemma store_inv_process (w : World) (job j : Job) :
  store_inv w ->
  row_with_id (id job) (jobs w) = Some j ->
  state j = PROCESSING ->
  store_inv (exec (process_job env config job) w).
Proof.
  intros Hinv Hj Hproc.
  destruct (process_job_processing_cases env config job j w Hj Hproc)
    as [J [reads [-> [_ [_ [Jnr _]]]]]].
  apply store_inv_write; [exact Hinv|].
  destruct (row_with_id_Some _ _ _ Hj) as [Hin _].
  pose proof (retry_ok_In _ _ (proj2 Hinv) Hin) as Hr.
  unfold retry_only_when_failed in *. rewrite Jnr.
  rewrite Hproc in Hr. now destruct (next_retry_at j).
Qed.

Lemma store_inv_work_iteration (w : World) :
  store_inv w -> store_inv (exec (work_iteration env config) w).
Proof.
  apply (work_iteration_rule env config store_inv).
  - now intros w' [H _].
  - exact store_inv_tick.
  - exact store_inv_release.
  - exact store_inv_claim.
  - exact store_inv_process.
Qed.

Lemma primary_key_ok_snoc (t : Sql.Table) (job : Job) :
  primary_key_ok t = true ->
  existsb (fun r => id r =? id job)%string t = false ->
  primary_key_ok (t ++ [job]) = true.
Proof.
  induction t as [|r t IH]; simpl; [reflexivity|].
  intros Hpk Hex. apply andb_true_iff in Hpk. destruct Hpk as [Hr Hpk].
  apply orb_false_iff in Hex. destruct Hex as [Hne Hex].
  rewrite existsb_app, (IH Hpk Hex). simpl.
  apply negb_true_iff in Hr. rewrite Hr, String.eqb_sym, Hne. reflexivity.
Qed.

Lemma store_inv_enqueue (data : JobData) (w : World) :
  store_inv w -> store_inv (exec (enqueue env config data) w).
Proof.
  intros [Hpk Hinv]. unfold exec, enqueue, Job_init, bind.
  rewrite now_iso_run. unfold ret, add_job. cbn [jobs tick].
  destruct (negb (bindable _)); [now split|].
  destruct (existsb _ (jobs w)) eqn:E; cbn [snd].
  - now split.
  - split; cbn [jobs set_jobs].
    + now apply primary_key_ok_snoc.
    + unfold next_retry_inv in *. rewrite forallb_app, Hinv. reflexivity.
Qed.

Lemma schedule_retry_run (job : Job) (w : World) :
  (exists J,
      schedule_retry env config job w
      = (Returns J,
         mkWorld (map (write_row J) (jobs w)) (S (S (clock_reads w)))
                 (executions w))
      /\ id J = id job /\ state J = FAILED /\ next_retry_at J <> None)
  \/ (exists e w1,
         schedule_retry env config job w = (Raises e, w1)
         /\ jobs w1 = jobs w).
Proof.
  rewrite schedule_retry_cases.
  destruct (calculate_retry_delay env config (attempts job)) as [delay|e].
  - destruct (retry_time_representable _ _).
    + left. eexists. split; [reflexivity|]. simpl. repeat split.
      discriminate.
    + right. now exists OverflowError, (tick w).
  - right. now exists e, w.
Qed.

Lemma store_inv_schedule_retry (job : Job) (w : World) :
  store_inv w -> store_inv (exec (schedule_retry env config job) w).
Proof.
  intros Hinv. unfold exec.
  destruct (schedule_retry_run job w)
    as [[J [-> [_ [Hst Hnr]]]]|[e [w1 [-> Hjobs]]]]; cbn [snd].
  - apply store_inv_write; [exact Hinv|].
    unfold retry_only_when_failed. rewrite Hst.
    now destruct (next_retry_at J).
  - unfold store_inv. now rewrite Hjobs.
Qed.

Lemma move_to_dlq_run (job : Job) (err : string) (w : World) :
  exists J,
    exec (move_to_dlq env job err) w
    = mkWorld (map (write_row J) (jobs w)) (S (clock_reads w)) (executions w)
    /\ id J = id job /\ state J = DEAD /\ next_retry_at J = None.
Proof.
  eexists. unfold exec, move_to_dlq, bind.
  rewrite update_state_run, update_job_run. cbn [snd].
  split; [reflexivity|]. cbv zeta.
  destruct (Py.truthy_str (Some err)); simpl; repeat split.
Qed.

Lemma store_inv_dlq_reset (job_id : string) (w : World) :
  store_inv w -> store_inv (exec (reset_job_from_dlq env job_id) w).
Proof.
  intros Hinv. unfold exec, reset_job_from_dlq, bind, get_job.
  destruct (row_with_id job_id (jobs w)) as [j|]; [|exact Hinv].
  destruct (JobState_eqb (state j) DEAD); [|exact Hinv].
  rewrite now_iso_run, update_job_run. cbn [snd ret].
  now apply (store_inv_write _ (tick w)).
Qed.

End StoreInv.

(** ** The statements at sample inputs *)

Lemma acquire_job_lock_exclusive_witness :
  let w := world_of sample_table in
  let ok := eval (_acquire_job_lock "hi") w in
  let w' := exec (_acquire_job_lock "hi") w in
  (ok = true <->
   exists j, row_with_id "hi" (jobs w) = Some j /\ state j = PENDING)
  /\ (ok = false -> w' = w)
  /\ (ok = true ->
      (exists j, row_with_id "hi" (jobs w) = Some j
                 /\ row_with_id "hi" (jobs w')
                    = Some (set_state PROCESSING j))
      /\ (forall i, i <> "hi" ->
                    row_with_id i (jobs w') = row_with_id i (jobs w))
      /\ forall ids,
           eval (_acquire_job_lock "hi") (exec (claim_all ids) w') = false).
Proof.
  exact (acquire_job_lock_exclusive (world_of sample_table) "hi" eq_refl).
Defined.

Example acquire_job_lock_twice :
  let w := world_of sample_table in
  eval (_acquire_job_lock "hi") w = true
  /\ eval (_acquire_job_lock "hi") (exec (_acquire_job_lock "hi") w) = false
  /\ eval (_acquire_job_lock "f") w = false
  /\ eval (_acquire_job_lock "nobody") w = false.
Proof. repeat split. Qed.

Lemma reset_retryable_job_to_pending_cas_witness :
  let env := frozen_env in
  let w := world_of sample_table in
  let now := now_at env w in
  let ok := eval (reset_retryable_job_to_pending env "f") w in
  let w' := exec (reset_retryable_job_to_pending env "f") w in
  (ok = true <->
   exists j t, row_with_id "f" (jobs w) = Some j
               /\ state j = FAILED
               /\ next_retry_at j = Some t
               /\ String.leb t now = true)
  /\ (ok = true ->
      exists j j', row_with_id "f" (jobs w) = Some j
                   /\ row_with_id "f" (jobs w') = Some j'
                   /\ j' = set_updated_at now
                             (set_next_retry_at None (set_state PENDING j))
                   /\ state j' = PENDING
                   /\ next_retry_at j' = None)
  /\ (ok = false -> jobs w' = jobs w)
  /\ (forall i, i <> "f" ->
                row_with_id i (jobs w') = row_with_id i (jobs w)).
Proof.
  exact (reset_retryable_job_to_pending_cas frozen_env
           (world_of sample_table) "f" eq_refl).
Defined.

(** C5 (at the failing inputs). [isoformat] writes no fraction for a time
    on a whole second, and ["."] sorts below ["Z"]. At 09:30:00 sharp a job
    whose [next_retry_at] is half a second ahead is released; at 09:30:00.25
    a job whose [next_retry_at] was 09:30:00 sharp is refused. *)
Lemma reset_retryable_job_to_pending_text_order :
  let t0 := 1793698200000000 in
  let env := sample_env (Exited "" "" 1) in
  let ahead :=
    set_next_retry_at (Some (isoformat_utc (t0 + 500000) ++ "Z")%string)
                      due_retry_job in
  let sharp :=
    set_next_retry_at (Some (isoformat_utc t0 ++ "Z")%string)
                      due_retry_job in
  utcnow frozen_env 0 = t0
  /\ now_at frozen_env (world_of [ahead]) = "2026-11-03T09:30:00Z"
  /\ next_retry_at ahead = Some "2026-11-03T09:30:00.500000Z"
  /\ eval (reset_retryable_job_to_pending frozen_env "f") (world_of [ahead])
     = true
  /\ utcnow env 1 = t0 + 250000
  /\ now_at env (mkWorld [sharp] 1 []) = "2026-11-03T09:30:00.250000Z"
  /\ next_retry_at sharp = Some "2026-11-03T09:30:00Z"
  /\ eval (reset_retryable_job_to_pending env "f") (mkWorld [sharp] 1 [])
     = false.
Proof. repeat split. Qed.

Example reset_retryable_job_to_pending_runs :
  let w := world_of sample_table in
  eval (reset_retryable_job_to_pending frozen_env "f") w = true
  /\ eval (reset_retryable_job_to_pending frozen_env "low") w = false
  /\ option_map (fun j => (state j, next_retry_at j))
       (row_with_id "f"
          (jobs (exec (reset_retryable_job_to_pending frozen_env "f") w)))
     = Some (PENDING, None).
Proof. repeat split. Qed.

Lemma get_dlq_jobs_truncated_witness :
  let w := world_of (dead_letters 101) in
  let dead := filter (fun r => JobState_eqb (state r) DEAD) (jobs w) in
  exists listed,
  eval get_dlq_jobs w = Returns listed
  /\ (List.length listed <= 100)%nat
  /\ (forall j, In j listed -> In j (jobs w) /\ state j = DEAD)
  /\ StronglySorted (precedes created_desc) listed
  /\ ((List.length dead <= 100)%nat -> Permutation listed dead)
  /\ ((100 < List.length dead)%nat ->
      List.length listed = 100%nat
      /\ exists omitted,
           omitted <> []
           /\ Permutation (listed ++ omitted) dead
           /\ forall o r, In o omitted -> In r listed ->
                          ~ In o listed
                          /\ String.leb (created_at o) (created_at r) = true).
Proof.
  apply (get_dlq_jobs_truncated (world_of (dead_letters 101))).
  vm_compute. reflexivity.
Defined.

(** With timestamps of one width the order of the texts is the order of
    the times: of 101 dead jobs created on whole seconds, the oldest is the
    one left out. *)
Example get_dlq_jobs_omits_oldest :
  exists listed,
    eval get_dlq_jobs (world_of (dead_letters 101)) = Returns listed
    /\ List.length listed = 100%nat
    /\ row_with_id "d0" (dead_letters 101) <> None
    /\ row_with_id "d0" listed = None
    /\ option_map id (hd_error listed) = Some "d100".
Proof. eexists. vm_compute. repeat split. discriminate. Qed.

(** C10 (at the failing input). 101 dead jobs: ["d0"] created at 09:30:00
    sharp, whose [created_at] is written without a fraction, and ["d1"],
    ..., ["d100"] created at 09:30:00.5, 09:30:01.5 and so on. The listing
    keeps ["d0"], the oldest job, and leaves out ["d1"], which is newer. *)
Lemma get_dlq_jobs_omits_newer :
  let t := staggered_letters 101 in
  exists listed d0 d1,
    eval get_dlq_jobs (world_of t) = Returns listed
    /\ List.length listed = 100%nat
    /\ row_with_id "d0" listed = Some d0
    /\ row_with_id "d1" listed = None
    /\ row_with_id "d1" t = Some d1
    /\ state d1 = DEAD
    /\ created_at d0 = (isoformat_utc (staggered_time 0) ++ "Z")%string
    /\ created_at d1 = (isoformat_utc (staggered_time 1) ++ "Z")%string
    /\ created_at d0 = "2026-11-03T09:30:00Z"
    /\ created_at d1 = "2026-11-03T09:30:00.500000Z"
    /\ staggered_time 0 < staggered_time 1.
Proof. do 3 eexists. vm_compute. repeat split. Qed.

(** * Further properties of the store *)

(** ** Insert and lookup ([Storage.add_job], [Storage.get_job]) *)

Lemma existsb_id_row (i : string) (t : Sql.Table) :
  existsb (fun r => id r =? i)%string t
  = match row_with_id i t with Some _ => true | None => false end.
Proof.
  unfold row_with_id, Sql.fetchone, Sql.select.
  induction t as [|r t IH]; simpl; [reflexivity|].
  destruct (id r =? i)%string; simpl; [reflexivity|exact IH].
Qed.

Lemma row_with_id_snoc (i : string) (t : Sql.Table) (job : Job) :
  row_with_id i (t ++ [job])
  = match row_with_id i t with
    | Some r => Some r
    | None => if (id job =? i)%string then Some job else None
    end.
Proof.
  unfold row_with_id, Sql.fetchone, Sql.select.
  induction t as [|r t IH]; simpl.
  - now destruct (id job =? i)%string.
  - destruct (id r =? i)%string; simpl; [reflexivity|exact IH].
Qed.

Lemma add_job_run (job : Job) (w : World) :
  add_job job w
  = if bindable job then
      match row_with_id (id job) (jobs w) with
      | Some _ => (Returns false, w)
      | None => (Returns true, set_jobs (jobs w ++ [job]) w)
      end
    else (Raises OverflowError, w).
Proof.
  unfold add_job. rewrite existsb_id_row.
  destruct (bindable job); [|reflexivity].
  now destruct (row_with_id (id job) (jobs w)).
Qed.

(** X1. [add_job] raises [OverflowError] exactly when one of the job's
    integers ([attempts], [max_retries], [priority], [timeout]) does not fit
    in 64 bits, whether or not the id is new. Otherwise it inserts exactly
    when no record has the job's id, and returns whether it did. Unless it
    returns [True] the store is left as it was. After an insert [get_job]
    returns the job as given, every other record is as before, ids stay
    unique, and inserting the same id again is rejected. *)
Theorem add_job_insert_lookup (job : Job) (w : World) :
  let r := eval (add_job job) w in
  let w' := exec (add_job job) w in
  (r = Raises OverflowError <-> bindable job = false)
  /\ (r = Returns true
      <-> bindable job = true /\ eval (get_job (id job)) w = None)
  /\ (r = Returns false
      <-> bindable job = true /\ eval (get_job (id job)) w <> None)
  /\ (r <> Returns true -> w' = w)
  /\ (r = Returns true ->
      eval (get_job (id job)) w' = Some job
      /\ (forall i, i <> id job ->
                    eval (get_job i) w' = eval (get_job i) w)
      /\ (primary_key_ok (jobs w) = true -> primary_key_ok (jobs w') = true)
      /\ eval (add_job job) w' = Returns false
      /\ exec (add_job job) w' = w').
Proof.
  unfold eval, exec, get_job. rewrite add_job_run. cbn [fst snd].
  destruct (bindable job) eqn:Hb; cbn [fst snd].
  - destruct (row_with_id (id job) (jobs w)) as [r|] eqn:E; cbn [fst snd].
    + split; [split; discriminate|].
      split; [split; [discriminate|intros [_ H]; discriminate]|].
      split; [split; [intros _; split; [reflexivity|discriminate]
                     |reflexivity]|].
      split; [reflexivity|discriminate].
    + split; [split; discriminate|].
      split; [tauto|].
      split; [split; [discriminate|intros [_ H]; now elim H]|].
      split; [intros H; now elim H|]. intros _.
      assert (Hnew : row_with_id (id job) (jobs w ++ [job]) = Some job).
      { now rewrite row_with_id_snoc, E, String.eqb_refl. }
      split; [exact Hnew|]. split; [|split; [|split]].
      * intros i Hi. cbn [jobs set_jobs]. rewrite row_with_id_snoc.
        destruct (row_with_id i (jobs w)); [reflexivity|].
        destruct (String.eqb_spec (id job) i); [congruence|reflexivity].
      * intros Hpk. cbn [jobs set_jobs].
        apply primary_key_ok_snoc; [exact Hpk|].
        now rewrite existsb_id_row, E.
      * rewrite add_job_run, Hb. cbn [jobs set_jobs]. now rewrite Hnew.
      * rewrite add_job_run, Hb. cbn [jobs set_jobs]. now rewrite Hnew.
  - split; [tauto|].
    split; [split; [discriminate|intros [H _]; discriminate]|].
    split; [split; [discriminate|intros [H _]; discriminate]|].
    split; [reflexivity|discriminate].
Qed.

(** ** Full-record update ([Storage.update_job]) *)

Lemma overwrite_same (job old : Job) :
  id old = id job -> created_at old = created_at job ->
  overwrite job old = job.
Proof. destruct job, old. simpl. now intros -> ->. Qed.

(** X2. [update_job] reports whether a record with the job's id exists. If
    none does the store is unchanged. Otherwise the record takes every
    column from the job except [created_at], which keeps its stored value;
    no other record changes; and a job read with [get_job], modified and
    written back is read back as written. *)
Theorem update_job_overwrites (job : Job) (w : World) :
  let ok := eval (update_job job) w in
  let w' := exec (update_job job) w in
  (ok = true <-> eval (get_job (id job)) w <> None)
  /\ (ok = false -> w' = w)
  /\ (forall old,
         eval (get_job (id job)) w = Some old ->
         eval (get_job (id job)) w' = Some (overwrite job old)
         /\ created_at (overwrite job old) = created_at old
         /\ (created_at job = created_at old ->
             eval (get_job (id job)) w' = Some job))
  /\ (forall i, i <> id job -> eval (get_job i) w' = eval (get_job i) w)
  /\ primary_key_ok (jobs w') = primary_key_ok (jobs w).
Proof.
  unfold eval, exec, get_job. rewrite update_job_run. cbn [fst snd].
  rewrite existsb_id_row. split; [|split; [|split; [|split]]].
  - destruct (row_with_id (id job) (jobs w)); split; congruence.
  - intros H. unfold set_jobs.
    replace (map (write_row job) (jobs w)) with (jobs w);
      [apply world_eta|].
    symmetry.
    apply (update_nothing (fun r => id r =? id job)%string (overwrite job)).
    rewrite existsb_id_row.
    now destruct (row_with_id (id job) (jobs w)).
  - intros old Hold. cbn [jobs set_jobs].
    rewrite row_with_id_write, String.eqb_refl, Hold. simpl.
    split; [reflexivity|]. split; [reflexivity|].
    intros Hc. f_equal. apply overwrite_same; [|congruence].
    now destruct (row_with_id_Some _ _ _ Hold).
  - intros i Hi. cbn [jobs set_jobs]. rewrite row_with_id_write.
    destruct (String.eqb_spec i (id job)); [congruence|reflexivity].
  - cbn [jobs set_jobs]. apply (primary_key_ok_map _ (write_row_id job)).
Qed.

(** ** Deletion ([Storage.delete_job]) *)

Lemma row_with_id_delete (i x : string) (t : Sql.Table) :
  row_with_id i (filter (fun r => negb (id r =? x)%string) t)
  = if (i =? x)%string then None else row_with_id i t.
Proof.
  unfold row_with_id, Sql.fetchone, Sql.select.
  induction t as [|r t IH]; simpl; [now destruct (i =? x)%string|].
  destruct (String.eqb_spec (id r) x) as [Hx|Hx]; simpl.
  - rewrite IH. destruct (String.eqb_spec i x) as [Hi|Hi]; [reflexivity|].
    destruct (String.eqb_spec (id r) i); [congruence|reflexivity].
  - destruct (String.eqb_spec (id r) i) as [Hi|Hi]; simpl.
    + destruct (String.eqb_spec i x); [congruence|reflexivity].
    + exact IH.
Qed.

Lemma filter_all (p : Job -> bool) (t : Sql.Table) :
  existsb (fun r => negb (p r)) t = false -> filter p t = t.
Proof.
  induction t as [|r t IH]; simpl; [reflexivity|].
  intros H. apply orb_false_iff in H. destruct H as [H1 H2].
  apply negb_false_iff in H1. now rewrite H1, IH.
Qed.

Lemma existsb_negb_negb (p : Job -> bool) (t : Sql.Table) :
  existsb (fun r => negb (negb (p r))) t = existsb p t.
Proof.
  induction t as [|r t IH]; simpl; [reflexivity|].
  now rewrite negb_involutive, IH.
Qed.

Lemma primary_key_ok_filter (p : Job -> bool) (t : Sql.Table) :
  primary_key_ok t = true -> primary_key_ok (filter p t) = true.
Proof.
  induction t as [|r t IH]; simpl; [reflexivity|].
  intros H. apply andb_true_iff in H. destruct H as [Hr Hpk].
  destruct (p r); [|auto]. simpl. rewrite (IH Hpk), andb_true_r.
  apply negb_true_iff in Hr. apply negb_true_iff.
  apply not_true_is_false. intros Hex.
  apply existsb_exists in Hex. destruct Hex as [r' [Hin Hid]].
  apply filter_In in Hin. destruct Hin as [Hin _].
  apply String.eqb_eq in Hid.
  exact (existsb_id_false _ _ Hr r' Hin Hid).
Qed.

(** X3. [delete_job] reports whether a record with that id existed. If none
    did the store is unchanged. Afterwards no record has that id, every
    other record is as before, and the id can be inserted again: [add_job]
    then accepts every job with that id whose integers can be bound, and
    raises [OverflowError] for the others. *)
Theorem delete_job_removes (job_id : string) (w : World) :
  let ok := eval (delete_job job_id) w in
  let w' := exec (delete_job job_id) w in
  (ok = true <-> eval (get_job job_id) w <> None)
  /\ (ok = false -> w' = w)
  /\ eval (get_job job_id) w' = None
  /\ (forall i, i <> job_id -> eval (get_job i) w' = eval (get_job i) w)
  /\ (primary_key_ok (jobs w) = true -> primary_key_ok (jobs w') = true)
  /\ (forall job, id job = job_id ->
                  eval (add_job job) w'
                  = if bindable job then Returns true
                    else Raises OverflowError).
Proof.
  unfold eval, exec, get_job, delete_job, Sql.delete.
  rewrite rowcount_positive, existsb_id_row. cbn [fst snd jobs set_jobs].
  split; [|split; [|split; [|split; [|split]]]].
  - destruct (row_with_id job_id (jobs w)); split; congruence.
  - intros H. unfold set_jobs.
    rewrite filter_all; [apply world_eta|].
    now rewrite existsb_negb_negb, existsb_id_row.
  - now rewrite row_with_id_delete, String.eqb_refl.
  - intros i Hi. rewrite row_with_id_delete.
    destruct (String.eqb_spec i job_id); [congruence|reflexivity].
  - apply primary_key_ok_filter.
  - intros job <-. rewrite add_job_run. cbn [jobs set_jobs].
    rewrite row_with_id_delete, String.eqb_refl.
    now destruct (bindable job).
Qed.

(** ** Statistics ([Storage.get_stats]) *)

Lemma filter_true_all (t : Sql.Table) : filter (fun _ => true) t = t.
Proof. induction t as [|r t IH]; simpl; [reflexivity|now rewrite IH]. Qed.

Lemma count_by_state (t : Sql.Table) :
  List.length t
  = (Sql.count (fun r => JobState_eqb (state r) PENDING) t
     + Sql.count (fun r => JobState_eqb (state r) PROCESSING) t
     + Sql.count (fun r => JobState_eqb (state r) COMPLETED) t
     + Sql.count (fun r => JobState_eqb (state r) FAILED) t
     + Sql.count (fun r => JobState_eqb (state r) DEAD) t)%nat.
Proof.
  unfold Sql.count. induction t as [|r t IH]; simpl; [reflexivity|].
  destruct (state r); simpl; lia.
Qed.

(** X4. [get_stats] does not change the store. It has one entry per state,
    in the order of the enumeration, and then ["total"]; the entry of a
    state is the number of records in that state, ["total"] is the number of
    records, and the five state counts add up to the total. *)
Theorem get_stats_counts (w : World) :
  let stats := eval get_stats w in
  exec get_stats w = w
  /\ map fst stats
     = ["pending"; "processing"; "completed"; "failed"; "dead"; "total"]
  /\ (forall s,
         stats_get (JobState_value s) stats
         = List.length (filter (fun r => JobState_eqb (state r) s) (jobs w)))
  /\ stats_get "total" stats = List.length (jobs w)
  /\ stats_get "total" stats
     = (stats_get "pending" stats + stats_get "processing" stats
        + stats_get "completed" stats + stats_get "failed" stats
        + stats_get "dead" stats)%nat.
Proof.
  cbv zeta. unfold eval, exec, get_stats. cbn [fst snd].
  split; [reflexivity|]. split; [reflexivity|].
  assert (Htotal : Sql.count (fun _ => true) (jobs w) = List.length (jobs w)).
  { unfold Sql.count. now rewrite filter_true_all. }
  split; [|split].
  - intros s. destruct s; reflexivity.
  - cbn. exact Htotal.
  - cbn. rewrite Htotal. apply count_by_state.
Qed.

(** ** Jobs due for a retry ([Storage.get_retryable_jobs]) *)

Lemma next_retry_asc_total (a b : Job) :
  next_retry_asc a b = false -> next_retry_asc b a = true.
Proof.
  unfold next_retry_asc, Sql.text_asc.
  destruct (next_retry_at a), (next_retry_at b); try congruence.
  apply string_leb_false.
Qed.

Lemma next_retry_asc_trans (a b c : Job) :
  next_retry_asc a b = true -> next_retry_asc b c = true ->
  next_retry_asc a c = true.
Proof.
  unfold next_retry_asc, Sql.text_asc.
  destruct (next_retry_at a), (next_retry_at b), (next_retry_at c);
    try congruence.
  apply string_leb_trans.
Qed.

(** X5. [get_retryable_jobs] leaves the table as it is and returns exactly
    the failed jobs whose [next_retry_at] is set and not after now, each
    once, ordered by [next_retry_at] ascending. A failed job without
    [next_retry_at] is never among them. *)
Theorem get_retryable_jobs_due (env : Env) (w : World) :
  let now := now_at env w in
  let due := eval (get_retryable_jobs env) w in
  jobs (exec (get_retryable_jobs env) w) = jobs w
  /\ (forall j,
         In j due <->
         In j (jobs w) /\ state j = FAILED
         /\ exists t, next_retry_at j = Some t /\ String.leb t now = true)
  /\ Permutation due (filter (failed_and_due now) (jobs w))
  /\ StronglySorted (precedes next_retry_asc) due
  /\ (forall j, next_retry_at j = None -> ~ In j due).
Proof.
  intros now due. unfold due, eval, exec. rewrite get_retryable_jobs_run.
  cbn [fst snd]. fold now. fold next_retry_asc.
  assert (Hin : forall j,
             In j (Sql.order_by next_retry_asc
                     (filter (failed_and_due now) (jobs w))) <->
             In j (jobs w) /\ state j = FAILED
             /\ exists t, next_retry_at j = Some t
                          /\ String.leb t now = true).
  { intros j. rewrite order_by_In, filter_In, failed_and_due_iff.
    reflexivity. }
  split; [reflexivity|]. split; [exact Hin|]. split; [|split].
  - symmetry. apply order_by_perm.
  - apply (order_by_sorted _ next_retry_asc_total next_retry_asc_trans).
  - intros j Hnone Hj. apply Hin in Hj.
    destruct Hj as [_ [_ [t [Ht _]]]]. congruence.
Qed.

(** ** Listings ([Storage.list_jobs]) *)

Lemma list_jobs_run (st : option JobState) (lim : Z) (w : World) :
  list_jobs st lim w
  = (if Sql.int64 lim
     then Returns
            (Sql.limit lim (Sql.order_by created_desc (matching st (jobs w))))
     else Raises OverflowError, w).
Proof.
  unfold list_jobs, matching, Sql.select.
  destruct (Sql.int64 lim); now destruct st.
Qed.

(** X6. [list_jobs] does not change the store. It raises [OverflowError]
    exactly when the limit does not fit in 64 bits. Otherwise it returns
    jobs of the store, all in the requested state when one is given, in
    descending order of the [created_at] texts. With a non-negative limit it
    returns at most that many; with a negative limit, or one that is not
    exceeded, it returns every matching job. *)
Theorem list_jobs_window (st : option JobState) (lim : Z) (w : World) :
  exec (list_jobs st lim) w = w
  /\ (eval (list_jobs st lim) w = Raises OverflowError
      <-> Sql.int64 lim = false)
  /\ (Sql.int64 lim = true ->
      exists listed,
        eval (list_jobs st lim) w = Returns listed
        /\ (forall j, In j listed ->
                      In j (jobs w)
                      /\ forall s, st = Some s -> state j = s)
        /\ StronglySorted (precedes created_desc) listed
        /\ (0 <= lim -> Z.of_nat (List.length listed) <= lim)
        /\ (lim < 0
            \/ Z.of_nat (List.length (matching st (jobs w))) <= lim ->
            Permutation listed (matching st (jobs w)))
        /\ (0 <= lim < Z.of_nat (List.length (matching st (jobs w))) ->
            Z.of_nat (List.length listed) = lim)).
Proof.
  unfold eval, exec. rewrite list_jobs_run. cbn [fst snd].
  split; [reflexivity|].
  split; [destruct (Sql.int64 lim); split; congruence|].
  intros Hfit. rewrite Hfit. eexists. split; [reflexivity|].
  set (sorted := Sql.order_by created_desc (matching st (jobs w))).
  assert (Hlen : List.length sorted = List.length (matching st (jobs w)))
    by apply order_by_length.
  assert (Hs : StronglySorted (precedes created_desc) sorted)
    by apply (order_by_sorted _ created_desc_total created_desc_trans).
  assert (Hsub : forall j, In j (Sql.limit lim sorted) -> In j sorted).
  { unfold Sql.limit. destruct (lim <? 0); [auto|]. apply In_firstn. }
  split; [|split; [|split; [|split]]].
  - intros j Hj. apply Hsub in Hj.
    apply (proj1 (order_by_In created_desc _ j)) in Hj.
    unfold matching in Hj. destruct st as [s|].
    + apply filter_In in Hj. destruct Hj as [Hin Hst].
      apply JobState_eqb_eq in Hst. split; [exact Hin|].
      intros s' [= <-]. exact Hst.
    + split; [exact Hj|]. discriminate.
  - unfold Sql.limit. destruct (lim <? 0); [exact Hs|].
    now apply sorted_firstn.
  - intros Hlim. unfold Sql.limit.
    destruct (Z.ltb_spec lim 0); [lia|].
    pose proof (firstn_le_length (Z.to_nat lim) sorted). lia.
  - intros Hall. unfold Sql.limit.
    destruct (Z.ltb_spec lim 0).
    + symmetry. apply order_by_perm.
    + rewrite firstn_all2 by lia. symmetry. apply order_by_perm.
  - intros Hlim. unfold Sql.limit.
    destruct (Z.ltb_spec lim 0); [lia|].
    rewrite length_firstn. lia.
Qed.

(** ** Revival from the dead-letter queue ([Storage.reset_job_from_dlq]) *)

Lemma reset_job_from_dlq_run (env : Env) (job_id : string) (w : World) :
  reset_job_from_dlq env job_id w
  = match row_with_id job_id (jobs w) with
    | Some j =>
        if JobState_eqb (state j) DEAD
        then (Some (revived (now_at env w) j),
              mkWorld (map (write_row (revived (now_at env w) j)) (jobs w))
                      (S (clock_reads w)) (executions w))
        else (None, w)
    | None => (None, w)
    end.
Proof.
  unfold reset_job_from_dlq, bind, get_job.
  destruct (row_with_id job_id (jobs w)) as [j|]; [|reflexivity].
  destruct (JobState_eqb (state j) DEAD); [|reflexivity].
  rewrite now_iso_run, update_job_run. reflexivity.
Qed.

(** X7. [reset_job_from_dlq] returns a job exactly when the stored record
    exists and is dead; otherwise nothing at all changes. The returned job
    is what is stored afterwards: pending, with no attempts, no error and no
    [next_retry_at], [updated_at] set to now, and command, retry budget,
    priority, [run_at], timeout, creation time and the old output kept. No
    other record changes. *)
Theorem reset_job_from_dlq_revives (env : Env) (job_id : string) (w : World) :
  let r := eval (reset_job_from_dlq env job_id) w in
  let w' := exec (reset_job_from_dlq env job_id) w in
  (r <> None <->
   exists j, eval (get_job job_id) w = Some j /\ state j = DEAD)
  /\ (r = None -> w' = w)
  /\ (forall j',
         r = Some j' ->
         eval (get_job job_id) w' = Some j'
         /\ state j' = PENDING /\ attempts j' = 0 /\ error j' = None
         /\ next_retry_at j' = None /\ updated_at j' = now_at env w
         /\ exists j,
              eval (get_job job_id) w = Some j
              /\ command j' = command j /\ max_retries j' = max_retries j
              /\ priority j' = priority j /\ run_at j' = run_at j
              /\ timeout j' = timeout j /\ created_at j' = created_at j
              /\ output j' = output j)
  /\ (forall i, i <> job_id -> eval (get_job i) w' = eval (get_job i) w).
Proof.
  unfold eval, exec, get_job. rewrite reset_job_from_dlq_run. cbn [fst snd].
  destruct (row_with_id job_id (jobs w)) as [j|] eqn:E.
  - destruct (row_with_id_Some _ _ _ E) as [_ Hid].
    destruct (JobState_eqb (state j) DEAD) eqn:Hd; cbn [fst snd jobs].
    + apply JobState_eqb_eq in Hd. split; [|split; [|split]].
      * split; [intros _; now exists j|discriminate].
      * discriminate.
      * intros j' [= <-]. rewrite row_with_id_write. simpl id.
        rewrite Hid, String.eqb_refl, E. simpl.
        rewrite overwrite_same by reflexivity.
        repeat split. exists j. repeat split.
      * intros i Hi. rewrite row_with_id_write. simpl id. rewrite Hid.
        destruct (String.eqb_spec i job_id); [congruence|reflexivity].
    + apply JobState_eqb_neq in Hd. split; [|split; [|split]]; auto.
      * split; [intros H; now elim H|]. intros [j0 [[= <-] H]]. congruence.
      * discriminate.
  - split; [|split; [|split]]; auto.
    + split; [intros H; now elim H|]. now intros [j0 [H _]].
    + discriminate.
Qed.

(** X8. Once a dead job has been reset, it is no longer in the dead-letter
    listing and a worker's claim of it succeeds; when it has no [run_at] the
    pending selection finds a job again. *)
Theorem reset_job_from_dlq_claimable
        (env : Env) (job_id : string) (j : Job) (w : World) :
  primary_key_ok (jobs w) = true ->
  eval (get_job job_id) w = Some j ->
  state j = DEAD ->
  let w' := exec (reset_job_from_dlq env job_id) w in
  eval (_acquire_job_lock job_id) w' = true
  /\ (exists listed,
         eval get_dlq_jobs w' = Returns listed
         /\ forall d, In d listed -> id d <> job_id)
  /\ (run_at j = None -> eval (get_next_pending_job env) w' <> None).
Proof.
  intros Hpk E Hd w'. unfold eval, get_job in E. cbn [fst] in E.
  assert (Hw' : w' = mkWorld (map (write_row (revived (now_at env w) j))
                                  (jobs w))
                             (S (clock_reads w)) (executions w)).
  { unfold w', exec. rewrite reset_job_from_dlq_run, E, Hd. reflexivity. }
  destruct (row_with_id_Some _ _ _ E) as [Hin Hid].
  assert (Hpk' : primary_key_ok (jobs w') = true).
  { rewrite Hw'. cbn [jobs].
    now rewrite (primary_key_ok_map _ (write_row_id _)). }
  assert (Hrow : row_with_id job_id (jobs w')
                 = Some (revived (now_at env w) j)).
  { rewrite Hw'. cbn [jobs]. rewrite row_with_id_write. simpl id.
    rewrite Hid, String.eqb_refl, E. simpl.
    now rewrite overwrite_same. }
  split; [|split].
  - unfold eval. rewrite acquire_job_lock_run. cbn [fst].
    now rewrite (existsb_by_id (fun r => JobState_eqb (state r) PENDING)
                               _ _ Hpk'), Hrow.
  - unfold eval. rewrite get_dlq_jobs_run. cbn [fst].
    eexists. split; [reflexivity|]. intros d Hd' Hidd.
    apply In_firstn in Hd'.
    apply (proj1 (order_by_In created_desc _ d)) in Hd'.
    apply filter_In in Hd'. destruct Hd' as [Hind Hdead].
    apply JobState_eqb_eq in Hdead.
    pose proof (row_with_id_unique _ _ Hpk' Hind) as Hu.
    rewrite Hidd, Hrow in Hu. injection Hu as <-. discriminate.
  - intros Hrun Hnone.
    pose proof (proj1 (get_next_pending_job_None env w') Hnone) as Hno.
    destruct (row_with_id_Some _ _ _ Hrow) as [Hin' _].
    apply (Hno _ Hin'). split; [reflexivity|]. now left.
Qed.

Lemma reset_job_from_dlq_claimable_witness :
  let w' := exec (reset_job_from_dlq frozen_env "x") (world_of graveyard) in
  eval (_acquire_job_lock "x") w' = true
  /\ (exists listed,
         eval get_dlq_jobs w' = Returns listed
         /\ forall d, In d listed -> id d <> "x")
  /\ (run_at dead_job = None ->
      eval (get_next_pending_job frozen_env) w' <> None).
Proof.
  exact (reset_job_from_dlq_claimable frozen_env "x" dead_job
           (world_of graveyard) eq_refl eq_refl eq_refl).
Defined.

(** * Further properties of the scheduler *)

(** ** What [execute] reports *)

(** X9. [execute] reports success exactly when the child exited with code
    0. Its output is stdout followed by stderr, and empty when the child
    could not be started or timed out. A failure always comes with an error
    message: stderr when there is some, else the exit code, the timeout or
    the text of the exception; a success carries stderr as error when the
    child wrote to it. [execute] never touches the table and records one
    execution of the job. *)
Theorem execute_reports
        (env : Env) (self_timeout : option Z) (job : Job) (w : World) :
  let c := next_child env self_timeout job w in
  let res := eval (execute env self_timeout job) w in
  let success := fst (fst res) in
  let output := snd (fst res) in
  let err := snd res in
  (success = true <-> exists stdout stderr, c = Exited stdout stderr 0)
  /\ (success = false -> err <> None)
  /\ output = output_of c
  /\ (forall stdout stderr rc,
         c = Exited stdout stderr rc ->
         (stderr <> "" -> err = Some stderr)
         /\ (stderr = "" -> rc <> 0 ->
             err = Some ("Command failed with exit code "
                         ++ Py.str_int rc)%string)
         /\ (stderr = "" -> rc = 0 -> err = None))
  /\ (forall message, c = Raised message -> err = Some message)
  /\ jobs (exec (execute env self_timeout job) w) = jobs w
  /\ executions (exec (execute env self_timeout job) w)
     = id job :: executions w.
Proof.
  intros c res success output err.
  unfold success, output, err, res, eval, exec. rewrite execute_run.
  cbv zeta. fold c. cbn [fst snd jobs executions].
  split; [|split; [|split; [|split; [|split; [|split]]]]];
    try reflexivity.
  - destruct c as [m|s|so se rc]; simpl.
    + split; [discriminate|]. now intros [a [b H]].
    + split; [discriminate|]. now intros [a [b H]].
    + rewrite negb_involutive, Z.eqb_eq. split.
      * intros ->. now exists so, se.
      * now intros [a [b [= _ _ ->]]].
  - destruct c as [m|s|so se rc]; simpl; try discriminate.
    rewrite negb_involutive. intros Hrc. rewrite Hrc. simpl.
    destruct se; simpl; discriminate.
  - intros so se rc ->. simpl. split; [|split].
    + intros Hse. destruct se; [congruence|]. simpl.
      now rewrite andb_false_r.
    + intros -> Hrc. apply Z.eqb_neq in Hrc. now rewrite Hrc.
    + now intros -> ->.
  - now intros m ->.
Qed.

(** ** [process_job] on any stored job *)

Lemma next_child_forced (env : Env) (dt : option Z) (now : string)
      (j : Job) (t : Sql.Table) (n : nat) (w : World) :
  next_child env dt (forced_processing now j)
             (mkWorld t n (executions w))
  = next_child env dt j w.
Proof. reflexivity. Qed.

(** When the stored job is not processing, [process_job] first writes it as
    processing and then goes on as it does for a processing job. *)
Lemma process_job_forced (env : Env) (config : Config) (job j : Job)
      (w : World) :
  row_with_id (id job) (jobs w) = Some j ->
  state j <> PROCESSING ->
  let w1 := mkWorld (map (write_row (forced_processing (now_at env w) j))
                         (jobs w))
                    (S (clock_reads w)) (executions w) in
  row_with_id (id job) (jobs w1) = Some (forced_processing (now_at env w) j)
  /\ process_job env config job w = process_job env config job w1.
Proof.
  intros Hrow Hst w1.
  destruct (row_with_id_Some _ _ _ Hrow) as [_ Hid].
  assert (Hrow1 : row_with_id (id job) (jobs w1)
                  = Some (forced_processing (now_at env w) j)).
  { unfold w1. cbn [jobs]. rewrite row_with_id_write. simpl id.
    rewrite Hid, String.eqb_refl, Hrow. simpl.
    now rewrite overwrite_same. }
  split; [exact Hrow1|].
  unfold process_job at 2. unfold bind, get_job. rewrite Hrow1.
  cbn [forced_processing state set_updated_at set_state JobState_eqb negb].
  unfold process_job, bind, get_job. rewrite Hrow.
  apply JobState_eqb_neq in Hst. rewrite Hst. cbn [negb].
  rewrite update_state_run, update_job_run. reflexivity.
Qed.

Lemma process_job_missing_run (env : Env) (config : Config) (job : Job)
      (w : World) :
  row_with_id (id job) (jobs w) = None ->
  process_job env config job w = (Returns false, w).
Proof. intros H. unfold process_job, bind, get_job. now rewrite H. Qed.

(** The outcome of [process_job] on a stored processing job, with the
    written record. *)
Lemma process_job_processing_outcome (env : Env) (config : Config)
      (job j : Job) (w : World) :
  row_with_id (id job) (jobs w) = Some j ->
  state j = PROCESSING ->
  let c := next_child env (default_timeout config) j w in
  exists (J : Job) (reads : nat),
    process_job env config job w
    = (Returns (negb (is_failure c)),
       mkWorld (map (write_row J) (jobs w)) reads (id j :: executions w))
    /\ id J = id j
    /\ state J = (if is_failure c then FAILED else COMPLETED)
    /\ attempts J = attempts j + (if is_failure c then 1 else 0)
    /\ output J = Some (output_of c)
    /\ next_retry_at J = next_retry_at j
    /\ command J = command j /\ max_retries J = max_retries j
    /\ priority J = priority j /\ run_at J = run_at j
    /\ timeout J = timeout j /\ created_at J = created_at j.
Proof.
  intros Hrow Hst c.
  destruct (is_failure c) eqn:Hf.
  - unfold c in Hf.
    rewrite (process_job_failure_run env config job j w Hrow Hst Hf).
    do 2 eexists. split; [reflexivity|].
    unfold failed_attempt. cbv zeta. fold c.
    destruct (Py.truthy_str _); simpl;
      repeat split; destruct c; reflexivity.
  - unfold c in Hf.
    destruct (next_child env (default_timeout config) j w)
      as [m|s|so se rc] eqn:Hc; try discriminate.
    simpl in Hf. apply negb_false_iff, Z.eqb_eq in Hf. subst rc.
    rewrite (process_job_success_run env config job j w so se Hrow Hst Hc).
    do 2 eexists. split; [reflexivity|].
    unfold c. simpl. rewrite Z.add_0_r. repeat split.
Qed.

(** X10. [process_job] on a job that is not in the store returns [False]
    and does nothing: no execution, no clock reading, no write. *)
Theorem process_job_missing (env : Env) (config : Config) (job : Job)
        (w : World) :
  eval (get_job (id job)) w = None ->
  eval (process_job env config job) w = Returns false
  /\ exec (process_job env config job) w = w.
Proof.
  unfold eval, exec, get_job. cbn [fst]. intros H.
  now rewrite (process_job_missing_run env config job w H).
Qed.

Lemma process_job_missing_witness :
  eval (process_job frozen_env DEFAULT_CONFIG unclaimed_job)
       (world_of sample_table) = Returns false
  /\ exec (process_job frozen_env DEFAULT_CONFIG unclaimed_job)
          (world_of sample_table) = world_of sample_table.
Proof.
  exact (process_job_missing frozen_env DEFAULT_CONFIG unclaimed_job
                             (world_of sample_table) eq_refl).
Defined.

(** X11. Whatever state the stored job is in, [process_job] executes it
    exactly once and leaves it completed when the child exited with 0 and
    failed otherwise; the result tells which. [attempts] grows by one on a
    failure and not on a success; the captured output is stored;
    [next_retry_at], command, retry budget, priority, [run_at], timeout and
    creation time stay as stored; no other record changes. Only the record
    in the store counts: the fields of the job object passed in, other than
    its id, are ignored. *)
Theorem process_job_outcome (env : Env) (config : Config) (job j : Job)
        (w : World) :
  eval (get_job (id job)) w = Some j ->
  let c := next_child env (default_timeout config) j w in
  let w' := exec (process_job env config job) w in
  eval (process_job env config job) w = Returns (negb (is_failure c))
  /\ executions w' = id job :: executions w
  /\ (forall i, i <> id job -> eval (get_job i) w' = eval (get_job i) w)
  /\ exists j',
       eval (get_job (id job)) w' = Some j'
       /\ state j' = (if is_failure c then FAILED else COMPLETED)
       /\ attempts j' = attempts j + (if is_failure c then 1 else 0)
       /\ output j' = Some (output_of c)
       /\ next_retry_at j' = next_retry_at j
       /\ command j' = command j /\ max_retries j' = max_retries j
       /\ priority j' = priority j /\ run_at j' = run_at j
       /\ timeout j' = timeout j /\ created_at j' = created_at j.
Proof.
  intros Hrow c w'. unfold eval, get_job in Hrow. cbn [fst] in Hrow.
  destruct (row_with_id_Some _ _ _ Hrow) as [_ Hid].
  assert (Hgen : forall w0 j0,
             row_with_id (id job) (jobs w0) = Some j0 ->
             state j0 = PROCESSING ->
             next_child env (default_timeout config) j0 w0 = c ->
             executions w0 = executions w ->
             (forall i, i <> id job ->
                        row_with_id i (jobs w0) = row_with_id i (jobs w)) ->
             next_retry_at j0 = next_retry_at j /\ attempts j0 = attempts j
             /\ command j0 = command j /\ max_retries j0 = max_retries j
             /\ priority j0 = priority j /\ run_at j0 = run_at j
             /\ timeout j0 = timeout j /\ created_at j0 = created_at j ->
             process_job env config job w0 = process_job env config job w ->
             eval (process_job env config job) w
               = Returns (negb (is_failure c))
             /\ executions w' = id job :: executions w
             /\ (forall i, i <> id job ->
                           eval (get_job i) w' = eval (get_job i) w)
             /\ exists j',
                  eval (get_job (id job)) w' = Some j'
                  /\ state j' = (if is_failure c then FAILED else COMPLETED)
                  /\ attempts j' = attempts j
                                   + (if is_failure c then 1 else 0)
                  /\ output j' = Some (output_of c)
                  /\ next_retry_at j' = next_retry_at j
                  /\ command j' = command j
                  /\ max_retries j' = max_retries j
                  /\ priority j' = priority j /\ run_at j' = run_at j
                  /\ timeout j' = timeout j
                  /\ created_at j' = created_at j).
  { intros w0 j0 Hrow0 Hst0 Hc0 Hex0 Hoth0 Hsame Heq.
    destruct (process_job_processing_outcome env config job j0 w0
                Hrow0 Hst0)
      as [J [reads [Hrun [Jid [Jst [Jat [Jout [Jnr
            [Jcmd [Jmr [Jpr [Jra [Jto Jca]]]]]]]]]]]]].
    rewrite Hc0 in *.
    destruct (row_with_id_Some _ _ _ Hrow0) as [_ Hid0].
    unfold w', eval, exec, get_job. rewrite <- Heq, Hrun.
    cbn [fst snd jobs executions].
    destruct Hsame as [S1 [S2 [S3 [S4 [S5 [S6 [S7 S8]]]]]]].
    split; [reflexivity|]. split; [now rewrite Hid0, Hex0|]. split.
    - intros i Hi. rewrite row_with_id_write, Jid, Hid0.
      destruct (String.eqb_spec i (id job)); [congruence|now apply Hoth0].
    - eexists. rewrite row_with_id_write, Jid, Hid0, String.eqb_refl, Hrow0.
      split; [reflexivity|]. simpl.
      repeat split; congruence. }
  destruct (JobState_eqb (state j) PROCESSING) eqn:Hst.
  - apply JobState_eqb_eq in Hst.
    apply (Hgen w j); auto. repeat split.
  - apply JobState_eqb_neq in Hst.
    destruct (process_job_forced env config job j w Hrow Hst) as [Hrow1 Heq].
    cbv zeta in Hrow1, Heq.
    eapply Hgen; [exact Hrow1|reflexivity|reflexivity|reflexivity| |
                  |symmetry; exact Heq].
    + intros i Hi. cbn [jobs]. rewrite row_with_id_write. simpl id.
      rewrite Hid.
      destruct (String.eqb_spec i (id job)); [congruence|reflexivity].
    + repeat split.
Qed.

Lemma process_job_outcome_witness :
  let env := sample_env (Exited "out" "" 2) in
  let job := unclaimed_job in
  let w := world_of [unclaimed_job] in
  let c := next_child env (default_timeout DEFAULT_CONFIG) job w in
  let w' := exec (process_job env DEFAULT_CONFIG job) w in
  eval (process_job env DEFAULT_CONFIG job) w = Returns (negb (is_failure c))
  /\ executions w' = id job :: executions w
  /\ (forall i, i <> id job -> eval (get_job i) w' = eval (get_job i) w)
  /\ exists j',
       eval (get_job (id job)) w' = Some j'
       /\ state j' = (if is_failure c then FAILED else COMPLETED)
       /\ attempts j' = attempts job + (if is_failure c then 1 else 0)
       /\ output j' = Some (output_of c)
       /\ next_retry_at j' = next_retry_at job
       /\ command j' = command job /\ max_retries j' = max_retries job
       /\ priority j' = priority job /\ run_at j' = run_at job
       /\ timeout j' = timeout job /\ created_at j' = created_at job.
Proof.
  exact (process_job_outcome (sample_env (Exited "out" "" 2)) DEFAULT_CONFIG
           unclaimed_job unclaimed_job (world_of [unclaimed_job]) eq_refl).
Defined.

(** ** The invariant under every operation *)

(** On a stored job in any state, [process_job] keeps the ids and leaves the
    record completed or failed with the [next_retry_at] it had: the store
    stays well formed exactly when there was no [next_retry_at] or the
    execution failed. *)
Lemma store_inv_process_any (env : Env) (config : Config) (job j : Job)
      (w : World) :
  store_inv w ->
  row_with_id (id job) (jobs w) = Some j ->
  store_inv (exec (process_job env config job) w)
  <-> (next_retry_at j = None
       \/ is_failure (next_child env (default_timeout config) j w) = true).
Proof.
  intros [Hpk Hinv] Hrow.
  destruct (row_with_id_Some _ _ _ Hrow) as [Hin Hid].
  assert (Hgen : forall w0 j0,
             primary_key_ok (jobs w0) = true ->
             row_with_id (id job) (jobs w0) = Some j0 ->
             state j0 = PROCESSING ->
             next_retry_at j0 = next_retry_at j ->
             next_child env (default_timeout config) j0 w0
             = next_child env (default_timeout config) j w ->
             (forall r, In r (jobs w0) -> id r <> id job ->
                        retry_only_when_failed r = true) ->
             store_inv (exec (process_job env config job) w0)
             <-> (next_retry_at j = None
                  \/ is_failure (next_child env (default_timeout config) j w)
                     = true)).
  { intros w0 j0 Hpk0 Hrow0 Hst0 Hnr0 Hc0 Hoth0.
    destruct (process_job_processing_outcome env config job j0 w0
                Hrow0 Hst0)
      as [J [reads [Hrun [Jid [Jst [_ [_ [Jnr _]]]]]]]].
    rewrite Hc0 in Jst.
    destruct (row_with_id_Some _ _ _ Hrow0) as [Hin0 Hid0].
    unfold exec. rewrite Hrun. cbn [snd]. unfold store_inv. cbn [jobs].
    rewrite (primary_key_ok_map _ (write_row_id J)), Hpk0.
    assert (Hrows : next_retry_inv (map (write_row J) (jobs w0)) = true
                    <-> retry_only_when_failed J = true).
    { unfold next_retry_inv. rewrite forallb_forall. split.
      - intros H. specialize (H (write_row J j0) (in_map _ _ _ Hin0)).
        unfold write_row in H. rewrite Jid, String.eqb_refl in H.
        exact H.
      - intros HJ r' Hr'. apply in_map_iff in Hr'.
        destruct Hr' as [r [<- Hr]]. unfold write_row.
        destruct (String.eqb_spec (id r) (id J)) as [E|E].
        + exact HJ.
        + apply (Hoth0 r Hr). congruence. }
    rewrite Hrows. unfold retry_only_when_failed.
    rewrite Jnr, Hnr0, Jst.
    destruct (next_retry_at j); [|intuition].
    destruct (is_failure (next_child env (default_timeout config) j w));
      simpl; intuition congruence. }
  assert (Hothers : forall r, In r (jobs w) -> retry_only_when_failed r = true)
    by (intros r Hr; exact (retry_ok_In _ _ Hinv Hr)).
  destruct (JobState_eqb (state j) PROCESSING) eqn:Hst.
  - apply JobState_eqb_eq in Hst.
    apply (Hgen w j); auto.
  - apply JobState_eqb_neq in Hst.
    destruct (process_job_forced env config job j w Hrow Hst) as [Hrow1 Heq].
    cbv zeta in Hrow1, Heq. unfold exec. rewrite Heq.
    eapply Hgen; [|exact Hrow1|reflexivity|reflexivity|reflexivity|].
    + cbn [jobs]. now rewrite (primary_key_ok_map _ (write_row_id _)).
    + cbn [jobs]. intros r' Hr' Hne. apply in_map_iff in Hr'.
      destruct Hr' as [r [<- Hr]]. rewrite write_row_id in Hne.
      rewrite write_row_other; [now apply Hothers|].
      simpl id. congruence.
Qed.

Lemma store_inv_run_op (env : Env) (config : Config) (op : EngineOp)
      (w : World) :
  store_inv w -> admissible env config op w ->
  store_inv (exec (run_op env config op) w).
Proof.
  intros Hinv Hadm.
  destruct op as [data|x|job|job err|job|x|x|]; cbn [run_op];
    rewrite ?exec_discard.
  - now apply store_inv_enqueue.
  - unfold exec. rewrite acquire_job_lock_run. now apply store_inv_claim.
  - now apply store_inv_schedule_retry.
  - destruct (move_to_dlq_run env job err w) as [J [-> [_ [_ Hnr]]]].
    apply store_inv_write; [exact Hinv|].
    unfold retry_only_when_failed. now rewrite Hnr.
  - simpl in Hadm.
    destruct (row_with_id (id job) (jobs w)) as [j|] eqn:E.
    + apply (store_inv_process_any env config job j w Hinv E).
      exact (Hadm j eq_refl).
    + unfold exec, process_job, bind, get_job. now rewrite E.
  - unfold exec. rewrite reset_retryable_run.
    now apply (store_inv_release (tick w)).
  - now apply store_inv_dlq_reset.
  - now apply store_inv_work_iteration.
Qed.

(** Whatever producers, operators and workers do, starting from an empty
    store, the store stays well formed. *)
Lemma store_inv_reachable (env : Env) (config : Config)
      (ops : list EngineOp) :
  forallb entry_point ops = true ->
  store_inv (exec (run_ops env config ops) empty_world).
Proof.
  assert (H : forall w, store_inv w -> forallb entry_point ops = true ->
                        store_inv (exec (run_ops env config ops) w)).
  { induction ops as [|op ops IH]; intros w Hinv Hops; [exact Hinv|].
    simpl in Hops. apply andb_true_iff in Hops. destruct Hops as [Hop Hops].
    pose proof (store_inv_run_op env config op w Hinv) as H1.
    unfold exec in H1 |- *. simpl. unfold bind.
    destruct (run_op env config op w) as [u w1]. apply IH; [|exact Hops].
    apply H1. now destruct op. }
  apply H. now split.
Qed.

(** C8 (as stated, refuted). [process_job] applied to a stored job that is
    failed with a [next_retry_at] writes it as processing and, when the
    command succeeds, as completed, with [next_retry_at] still set: a
    transition out of failed that does not clear it. *)
Lemma next_retry_inv_counterexample :
  let w := world_of sample_table in
  let w' := exec (process_job frozen_env DEFAULT_CONFIG due_retry_job) w in
  store_inv w
  /\ option_map (fun j => (state j, next_retry_at j))
                (row_with_id "f" (jobs w))
     = Some (FAILED, Some "2026-11-03T09:29:58Z")
  /\ option_map (fun j => (state j, next_retry_at j))
                (row_with_id "f" (jobs w'))
     = Some (COMPLETED, Some "2026-11-03T09:29:58Z")
  /\ next_retry_inv (jobs w') = false.
Proof. repeat split. Qed.

(** C8 (amended). On a store where ids are unique and [next_retry_at] is set
    only on failed jobs, every operation keeps both: enqueue, claim,
    [schedule_retry], [move_to_dlq], retry release, DLQ reset, a whole pass
    of the worker loop, and [process_job] on a stored job that has no
    [next_retry_at] (as every claimed job has) or whose execution fails.
    [process_job] on a stored job with a [next_retry_at] whose execution
    succeeds is the one case that breaks it. [schedule_retry] writes
    [next_retry_at] together with state failed, or raises and writes
    nothing; [move_to_dlq] clears it; the retry release, the transition out
    of failed that the workers make, clears it. *)
Theorem next_retry_inv_preserved
        (env : Env) (config : Config) (op : EngineOp) (w : World) :
  store_inv w ->
  let w' := exec (run_op env config op) w in
  (admissible env config op w -> store_inv w')
  /\ (forall job j,
         op = OpProcess job ->
         row_with_id (id job) (jobs w) = Some j ->
         (store_inv w'
          <-> (next_retry_at j = None
               \/ is_failure (next_child env (default_timeout config) j w)
                  = true)))
  /\ (forall job j,
         op = OpScheduleRetry job ->
         row_with_id (id job) (jobs w) = Some j ->
         match eval (schedule_retry env config job) w with
         | Returns _ =>
             exists j',
               row_with_id (id job) (jobs w') = Some j'
               /\ state j' = FAILED /\ next_retry_at j' <> None
         | Raises _ => jobs w' = jobs w
         end)
  /\ (forall job err j,
         op = OpMoveToDlq job err ->
         row_with_id (id job) (jobs w) = Some j ->
         exists j',
           row_with_id (id job) (jobs w') = Some j'
           /\ state j' = DEAD /\ next_retry_at j' = None)
  /\ (forall x j,
         op = OpRelease x ->
         row_with_id x (jobs w) = Some j ->
         exists j',
           row_with_id x (jobs w') = Some j'
           /\ (j' = j \/ (state j = FAILED /\ state j' = PENDING
                          /\ next_retry_at j' = None))).
Proof.
  intros Hinv w'. split; [|split; [|split; [|split]]].
  - now apply store_inv_run_op.
  - intros job j -> Hrow. unfold w'. cbn [run_op]. rewrite exec_discard.
    now apply store_inv_process_any.
  - intros job j -> Hrow. unfold w', eval. cbn [run_op].
    rewrite exec_discard. unfold exec.
    destruct (schedule_retry_run env config job w)
      as [[J [-> [Hid [Hst Hnr]]]]|[e [w1 [-> Hjobs]]]]; cbn [fst snd].
    + cbn [jobs]. rewrite row_with_id_write, Hid, String.eqb_refl, Hrow.
      eexists. split; [reflexivity|]. simpl. auto.
    + exact Hjobs.
  - intros job err j -> Hrow. unfold w'. cbn [run_op]. rewrite exec_discard.
    destruct (move_to_dlq_run env job err w) as [J [-> [Hid [Hst Hnr]]]].
    cbn [jobs]. rewrite row_with_id_write, Hid, String.eqb_refl, Hrow.
    eexists. split; [reflexivity|]. simpl. auto.
  - intros x j -> Hrow. unfold w'. cbn [run_op]. rewrite exec_discard.
    unfold exec. rewrite reset_retryable_run. cbn [snd jobs].
    rewrite (row_with_id_map _ (release_row_id _ x)), Hrow. simpl.
    eexists. split; [reflexivity|]. unfold release_row.
    destruct ((id j =? x)%string && failed_and_due (now_at env w) j) eqn:E;
      [|now left].
    right. apply andb_true_iff in E. destruct E as [_ E].
    apply failed_and_due_iff in E. destruct E as [Hst _].
    repeat split. exact Hst.
Qed.

Lemma next_retry_inv_preserved_witness :
  let w := world_of sample_table in
  let w' := exec (run_op frozen_env DEFAULT_CONFIG (OpRelease "f")) w in
  store_inv w
  /\ store_inv w'
  /\ option_map (fun j => (state j, next_retry_at j))
                (row_with_id "f" (jobs w))
     = Some (FAILED, Some "2026-11-03T09:29:58Z")
  /\ option_map (fun j => (state j, next_retry_at j))
                (row_with_id "f" (jobs w'))
     = Some (PENDING, None).
Proof.
  assert (Hinv : store_inv (world_of sample_table)) by (split; reflexivity).
  split; [exact Hinv|]. split; [|split; reflexivity].
  exact (proj1 (next_retry_inv_preserved frozen_env DEFAULT_CONFIG
                  (OpRelease "f") (world_of sample_table) Hinv) I).
Defined.

Example schedule_retry_sets_failed :
  let job := set_attempts 1 (claimed_job 2) in
  option_map (fun j => (state j, next_retry_at j))
    (row_with_id "b"
       (jobs (exec (schedule_retry frozen_env DEFAULT_CONFIG job)
                   (world_of [claimed_job 2]))))
  = Some (FAILED, Some "2026-11-03T09:30:02Z").
Proof. reflexivity. Qed.

(** ** What [get_next_job] hands to a worker *)

Lemma get_next_pending_job_world (env : Env) (w : World) :
  exec (get_next_pending_job env) w = tick w.
Proof. unfold exec. now rewrite get_next_pending_job_run. Qed.

Lemma get_next_pending_job_stored (env : Env) (w : World) (job : Job) :
  primary_key_ok (jobs w) = true ->
  eval (get_next_pending_job env) w = Some job ->
  In job (jobs w) /\ row_with_id (id job) (jobs w) = Some job
  /\ state job = PENDING /\ eligible (now_at env w) job.
Proof.
  intros Hpk H. apply get_next_pending_job_Some in H.
  destruct H as [Hin [Hel _]]. split; [exact Hin|].
  split; [now apply row_with_id_unique|]. split; [apply Hel|exact Hel].
Qed.

(** The two ways [get_next_job] finds a job: a failed job that is due, which
    it releases, or else the pending candidate. *)
Lemma get_next_job_cases (env : Env) (w : World) :
  primary_key_ok (jobs w) = true ->
  let r := eval (get_next_job env) w in
  let w1 := exec (get_next_job env) w in
  primary_key_ok (jobs w1) = true
  /\ executions w1 = executions w
  /\ match r with
     | None => jobs w1 = jobs w
     | Some job =>
         row_with_id (id job) (jobs w1) = Some job
         /\ state job = PENDING
         /\ ((exists r0,
                In r0 (jobs w) /\ id r0 = id job
                /\ failed_and_due (now_at env w) r0 = true
                /\ next_retry_at job = None
                /\ forall i, i <> id job ->
                             row_with_id i (jobs w1) = row_with_id i (jobs w))
             \/ (jobs w1 = jobs w /\ In job (jobs w)
                 /\ exists m, (clock_reads w < m)%nat
                              /\ eligible (clock_text env m) job))
     end.
Proof.
  intros Hpk r w1. unfold r, w1, eval, exec, get_next_job, bind.
  rewrite get_retryable_jobs_run.
  destruct (Sql.order_by _ _) as [|job rest] eqn:E.
  - pose proof (get_next_pending_job_world env (tick w)) as Hw.
    pose proof (get_next_pending_job_stored env (tick w)) as Hs.
    unfold exec, eval in Hw, Hs.
    destruct (get_next_pending_job env (tick w)) as [c w2].
    cbn [fst snd] in *. subst w2. cbn [jobs executions tick].
    split; [exact Hpk|]. split; [reflexivity|].
    destruct c as [job|]; [|reflexivity].
    destruct (Hs job Hpk eq_refl) as [Hin [Hrow [Hst Hel]]].
    split; [exact Hrow|]. split; [exact Hst|]. right.
    split; [reflexivity|]. split; [exact Hin|].
    exists (S (clock_reads w)). split; [lia|exact Hel].
  - assert (Hjob : In job (jobs w)
                   /\ failed_and_due (now_at env w) job = true).
    { assert (Hin : In job (Sql.order_by
                              (fun a b => Sql.text_asc (next_retry_at a)
                                                       (next_retry_at b))
                              (filter (failed_and_due (now_at env w))
                                      (jobs w))))
        by (rewrite E; now left).
      now apply order_by_In, filter_In in Hin. }
    destruct Hjob as [Hin Hdue].
    pose proof (row_with_id_unique _ _ Hpk Hin) as Hrow.
    rewrite reset_retryable_run. cbn [jobs tick].
    rewrite (existsb_by_id (failed_and_due (now_at env (tick w))) _ _ Hpk).
    rewrite Hrow.
    set (now1 := now_at env (tick w)).
    assert (Hpk' : primary_key_ok (map (release_row now1 (id job)) (jobs w))
                   = true)
      by now rewrite (primary_key_ok_map _ (release_row_id now1 (id job))).
    destruct (failed_and_due now1 job) eqn:Hdue1.
    + unfold get_job. cbn [fst snd jobs executions clock_reads].
      set (released := set_updated_at now1
                         (set_next_retry_at None (set_state PENDING job))).
      assert (Hrel : row_with_id (id job)
                       (map (release_row now1 (id job)) (jobs w))
                     = Some released).
      { rewrite (row_with_id_map _ (release_row_id now1 (id job))), Hrow.
        cbn [option_map]. unfold release_row.
        now rewrite String.eqb_refl, Hdue1. }
      rewrite Hrel.
      split; [exact Hpk'|]. split; [reflexivity|].
      split; [exact Hrel|]. split; [reflexivity|]. left. exists job.
      split; [exact Hin|]. split; [reflexivity|]. split; [exact Hdue|].
      split; [reflexivity|].
      intros i Hi. rewrite (row_with_id_map _ (release_row_id now1 (id job))).
      destruct (row_with_id i (jobs w)) as [r0|] eqn:Er; [|reflexivity].
      simpl. f_equal. apply release_row_other.
      destruct (row_with_id_Some _ _ _ Er) as [_ Hr].
      change (id released) with (id job) in Hi. congruence.
    + assert (Hsame : map (release_row now1 (id job)) (jobs w) = jobs w).
      { apply (update_nothing
                 (fun r => (id r =? id job)%string && failed_and_due now1 r)
                 (fun r => set_updated_at now1
                             (set_next_retry_at None (set_state PENDING r)))).
        now rewrite (existsb_by_id (failed_and_due now1) _ _ Hpk), Hrow. }
      rewrite Hsame.
      set (w2 := mkWorld (jobs w) (S (clock_reads (tick w)))
                         (executions (tick w))).
      pose proof (get_next_pending_job_world env w2) as Hw.
      pose proof (get_next_pending_job_stored env w2) as Hs.
      unfold exec, eval in Hw, Hs.
      destruct (get_next_pending_job env w2) as [c w3].
      cbn [fst snd] in *. subst w3. cbn [jobs executions tick w2].
      split; [exact Hpk|]. split; [reflexivity|].
      destruct c as [job'|]; [|reflexivity].
      destruct (Hs job' Hpk eq_refl) as [Hin' [Hrow' [Hst' Hel']]].
      split; [exact Hrow'|]. split; [exact Hst'|]. right.
      split; [reflexivity|]. split; [exact Hin'|].
      exists (S (S (clock_reads w))). split; [lia|exact Hel'].
Qed.

(** [get_next_job] with its clock readings: the first selects the failed
    jobs that are due, the second decides the release of the earliest of
    them, and the last one made selects the pending candidate. *)
Lemma get_next_job_readings (env : Env) (w : World) :
  primary_key_ok (jobs w) = true ->
  let n0 := clock_reads w in
  get_next_job env w
  = match Sql.order_by next_retry_asc
            (filter (failed_and_due (clock_text env n0)) (jobs w)) with
    | [] => get_next_pending_job env (tick w)
    | r0 :: _ =>
        if failed_and_due (clock_text env (S n0)) r0
        then (Some (released (clock_text env (S n0)) r0),
              mkWorld (map (release_row (clock_text env (S n0)) (id r0))
                           (jobs w))
                      (S (S n0)) (executions w))
        else get_next_pending_job env (tick (tick w))
    end.
Proof.
  intros Hpk n0. unfold get_next_job, bind.
  rewrite get_retryable_jobs_run. fold next_retry_asc.
  change (now_at env w) with (clock_text env n0).
  destruct (Sql.order_by next_retry_asc
              (filter (failed_and_due (clock_text env n0)) (jobs w)))
    as [|job rest] eqn:E; [reflexivity|].
  assert (Hin : In job (jobs w)).
  { assert (H : In job (Sql.order_by next_retry_asc
                          (filter (failed_and_due (clock_text env n0))
                                  (jobs w))))
      by (rewrite E; now left).
    now apply order_by_In, filter_In in H. }
  pose proof (row_with_id_unique _ _ Hpk Hin) as Hrow.
  rewrite reset_retryable_run. cbn [jobs tick].
  rewrite (existsb_by_id (failed_and_due (now_at env (tick w))) _ _ Hpk).
  rewrite Hrow.
  change (now_at env (tick w)) with (clock_text env (S n0)).
  destruct (failed_and_due (clock_text env (S n0)) job) eqn:Hdue1.
  - unfold get_job. cbn [fst snd jobs executions clock_reads].
    rewrite (row_with_id_map _ (release_row_id _ (id job))), Hrow.
    cbn [option_map]. unfold release_row at 1.
    now rewrite String.eqb_refl, Hdue1.
  - assert (Hsame : map (release_row (clock_text env (S n0)) (id job))
                        (jobs w) = jobs w).
    { apply (update_nothing
               (fun r => (id r =? id job)%string
                         && failed_and_due (clock_text env (S n0)) r)
               (fun r => set_updated_at (clock_text env (S n0))
                           (set_next_retry_at None (set_state PENDING r)))).
      now rewrite (existsb_by_id (failed_and_due (clock_text env (S n0)))
                                 _ _ Hpk), Hrow. }
    rewrite Hsame. reflexivity.
Qed.

(** X12. With unique ids, a job returned by [get_next_job] is stored exactly
    as returned and is pending, so the claim that follows succeeds. It is
    one of two: a failed job whose [next_retry_at] was not above the text
    of the clock at both readings made, now released with [next_retry_at]
    cleared; or a pending job, stored as it was, that is eligible at the
    last reading made (the second or the third of the call) and that no
    eligible job precedes by priority and then [created_at]. The texts are
    compared bytewise, as SQLite compares TEXT. Nothing is executed, and
    when no job is returned the table is unchanged. *)
Theorem get_next_job_pending (env : Env) (w : World) :
  primary_key_ok (jobs w) = true ->
  let n0 := clock_reads w in
  let r := eval (get_next_job env) w in
  let w1 := exec (get_next_job env) w in
  executions w1 = executions w
  /\ (r = None -> jobs w1 = jobs w)
  /\ forall job,
       r = Some job ->
       eval (get_job (id job)) w1 = Some job
       /\ state job = PENDING
       /\ eval (_acquire_job_lock (id job)) w1 = true
       /\ ((exists r0 t,
               eval (get_job (id job)) w = Some r0
               /\ state r0 = FAILED
               /\ next_retry_at r0 = Some t
               /\ String.leb t (clock_text env n0) = true
               /\ String.leb t (clock_text env (S n0)) = true
               /\ clock_reads w1 = S (S n0)
               /\ job = released (clock_text env (S n0)) r0)
           \/ (exists m,
                  eval (get_job (id job)) w = Some job
                  /\ jobs w1 = jobs w
                  /\ clock_reads w1 = S m
                  /\ (m = S n0 \/ m = S (S n0))
                  /\ eligible (clock_text env m) job
                  /\ forall j', In j' (jobs w) ->
                                eligible (clock_text env m) j' ->
                                priority j' <= priority job
                                /\ (priority j' = priority job ->
                                    String.leb (created_at job)
                                               (created_at j') = true))).
Proof.
  intros Hpk n0 r w1.
  assert (Hpend : forall w2 m,
             jobs w2 = jobs w -> executions w2 = executions w ->
             clock_reads w2 = m -> (m = S n0 \/ m = S (S n0)) ->
             get_next_job env w = get_next_pending_job env w2 ->
             executions w1 = executions w
             /\ (r = None -> jobs w1 = jobs w)
             /\ forall job,
                  r = Some job ->
                  row_with_id (id job) (jobs w1) = Some job
                  /\ state job = PENDING
                  /\ eval (_acquire_job_lock (id job)) w1 = true
                  /\ exists m,
                       row_with_id (id job) (jobs w) = Some job
                       /\ jobs w1 = jobs w
                       /\ clock_reads w1 = S m
                       /\ (m = S n0 \/ m = S (S n0))
                       /\ eligible (clock_text env m) job
                       /\ forall j', In j' (jobs w) ->
                                     eligible (clock_text env m) j' ->
                                     priority j' <= priority job
                                     /\ (priority j' = priority job ->
                                         String.leb (created_at job)
                                                    (created_at j') = true)).
  { intros w2 m Hj He Hm Hcases Heq.
    assert (Hw1 : w1 = tick w2).
    { unfold w1, exec. rewrite Heq.
      exact (get_next_pending_job_world env w2). }
    assert (Hr : r = eval (get_next_pending_job env) w2)
      by (unfold r, eval; now rewrite Heq).
    rewrite Hw1. cbn [jobs executions clock_reads tick].
    split; [exact He|]. split; [intros _; exact Hj|].
    intros job Hjob. rewrite Hr in Hjob.
    destruct (get_next_pending_job_Some env w2 job Hjob)
      as [Hin [Hel Hbest]].
    rewrite Hj in Hin, Hbest.
    pose proof (row_with_id_unique _ _ Hpk Hin) as Hrow.
    rewrite Hj. split; [exact Hrow|]. split; [apply Hel|]. split.
    - unfold eval. rewrite acquire_job_lock_run. cbn [fst jobs tick].
      rewrite Hj.
      rewrite (existsb_by_id (fun r => JobState_eqb (state r) PENDING)
                             _ _ Hpk), Hrow.
      apply JobState_eqb_eq, Hel.
    - exists m. split; [exact Hrow|]. split; [reflexivity|].
      split; [now rewrite Hm|]. split; [exact Hcases|].
      unfold now_at in Hel, Hbest. rewrite Hm in Hel, Hbest.
      split; [exact Hel|exact Hbest]. }
  pose proof (get_next_job_readings env w Hpk) as Hrun.
  cbv zeta in Hrun. fold n0 in Hrun.
  destruct (Sql.order_by next_retry_asc
              (filter (failed_and_due (clock_text env n0)) (jobs w)))
    as [|r0 rest] eqn:E.
  - destruct (Hpend (tick w) (S n0) eq_refl eq_refl eq_refl
                    (or_introl eq_refl) Hrun) as [H1 [H2 H3]].
    split; [exact H1|]. split; [exact H2|].
    intros job Hjob. destruct (H3 job Hjob) as [A [B [C D]]].
    unfold eval, get_job. cbn [fst].
    split; [exact A|]. split; [exact B|]. split; [exact C|]. now right.
  - assert (Hhead : In r0 (jobs w)
                    /\ failed_and_due (clock_text env n0) r0 = true).
    { assert (H : In r0 (Sql.order_by next_retry_asc
                           (filter (failed_and_due (clock_text env n0))
                                   (jobs w))))
        by (rewrite E; now left).
      now apply order_by_In, filter_In in H. }
    destruct Hhead as [Hin Hdue].
    pose proof (row_with_id_unique _ _ Hpk Hin) as Hrow.
    destruct (failed_and_due (clock_text env (S n0)) r0) eqn:Hdue1.
    + unfold r, w1, eval, exec. rewrite Hrun. cbn [fst snd jobs executions].
      split; [reflexivity|]. split; [discriminate|].
      intros job [= <-].
      assert (Hrel : row_with_id (id r0)
                       (map (release_row (clock_text env (S n0)) (id r0))
                            (jobs w))
                     = Some (released (clock_text env (S n0)) r0)).
      { rewrite (row_with_id_map _ (release_row_id _ (id r0))), Hrow.
        cbn [option_map]. unfold release_row.
        now rewrite String.eqb_refl, Hdue1. }
      unfold get_job. cbn [fst jobs clock_reads].
      change (id (released (clock_text env (S n0)) r0)) with (id r0).
      split; [exact Hrel|]. split; [reflexivity|]. split.
      * rewrite acquire_job_lock_run. cbn [fst jobs].
        rewrite (existsb_by_id (fun r => JobState_eqb (state r) PENDING));
          [now rewrite Hrel|].
        now rewrite (primary_key_ok_map _ (release_row_id _ (id r0))).
      * left. apply failed_and_due_iff in Hdue, Hdue1.
        destruct Hdue as [Hf [t [Ht Hle]]].
        destruct Hdue1 as [_ [t' [Ht' Hle']]].
        assert (t' = t) by congruence. subst t'.
        exists r0, t. repeat split; assumption.
    + destruct (Hpend (tick (tick w)) (S (S n0)) eq_refl eq_refl eq_refl
                      (or_intror eq_refl) Hrun) as [H1 [H2 H3]].
      split; [exact H1|]. split; [exact H2|].
      intros job Hjob. destruct (H3 job Hjob) as [A [B [C D]]].
      unfold eval, get_job. cbn [fst].
      split; [exact A|]. split; [exact B|]. split; [exact C|]. now right.
Qed.

Lemma get_next_job_pending_witness :
  let env := sample_env (Exited "" "" 1) in
  let w := world_of sample_table in
  exists job r0,
    eval (get_next_job env) w = Some job
    /\ eval (get_job (id job)) w = Some r0
    /\ state r0 = FAILED
    /\ next_retry_at r0 = Some "2026-11-03T09:29:58Z"
    /\ clock_text env 0 = "2026-11-03T09:30:00Z"
    /\ clock_text env 1 = "2026-11-03T09:30:00.250000Z"
    /\ job = released (clock_text env 1) r0
    /\ eval (_acquire_job_lock (id job)) (exec (get_next_job env) w) = true.
Proof.
  intros env w.
  destruct (get_next_job_pending env w eq_refl) as [_ [_ H]].
  specialize (H (released (clock_text env 1) due_retry_job) eq_refl).
  destruct H as [_ [_ [Hlock _]]].
  exists (released (clock_text env 1) due_retry_job), due_retry_job.
  do 7 (split; [reflexivity|]). exact Hlock.
Defined.

(** X13. A failed job that is due is served before every pending job,
    whatever the priorities: when some failed job is due at the first clock
    reading of [get_next_job] and still due at the second, [get_next_job]
    returns a released failed job, one whose [next_retry_at] was the
    earliest. Due and earliest are the bytewise order of the texts, which
    is how SQLite compares and sorts them; the two readings need not be in
    that order. *)
Theorem get_next_job_retries_first (env : Env) (w : World) (j : Job) :
  primary_key_ok (jobs w) = true ->
  In j (jobs w) ->
  failed_and_due (now_at env w) j = true ->
  failed_and_due (now_at env (tick w)) j = true ->
  exists job r0,
    eval (get_next_job env) w = Some job
    /\ eval (get_job (id job)) w = Some r0
    /\ state r0 = FAILED
    /\ job = set_updated_at (now_at env (tick w))
               (set_next_retry_at None (set_state PENDING r0))
    /\ forall j', In j' (jobs w) ->
                  failed_and_due (now_at env w) j' = true ->
                  next_retry_asc r0 j' = true.
Proof.
  intros Hpk Hin Hdue Hstill.
  pose proof (get_next_job_readings env w Hpk) as Hrun. cbv zeta in Hrun.
  change (clock_text env (clock_reads w)) with (now_at env w) in Hrun.
  change (clock_text env (S (clock_reads w))) with (now_at env (tick w))
    in Hrun.
  destruct (Sql.order_by next_retry_asc
              (filter (failed_and_due (now_at env w)) (jobs w)))
    as [|r0 rest] eqn:E.
  - apply order_by_empty in E.
    assert (Hf : In j (filter (failed_and_due (now_at env w)) (jobs w)))
      by now apply filter_In.
    rewrite E in Hf. contradiction.
  - assert (Hhead : hd_error (Sql.order_by next_retry_asc
                                (filter (failed_and_due (now_at env w))
                                        (jobs w))) = Some r0)
      by now rewrite E.
    apply (order_by_first _ next_retry_asc_total next_retry_asc_trans)
      in Hhead.
    destruct Hhead as [Hjob Hmin]. apply filter_In in Hjob.
    destruct Hjob as [Hjin Hjdue].
    pose proof (row_with_id_unique _ _ Hpk Hjin) as Hrow.
    assert (Hdue1 : failed_and_due (now_at env (tick w)) r0 = true).
    { pose proof (Hmin j (proj2 (filter_In _ _ _) (conj Hin Hdue))) as Hle.
      apply failed_and_due_iff in Hjdue. apply failed_and_due_iff in Hstill.
      apply failed_and_due_iff.
      destruct Hjdue as [Hf [t [Ht _]]].
      destruct Hstill as [_ [tj [Htj Hlej]]].
      split; [exact Hf|]. exists t. split; [exact Ht|].
      unfold next_retry_asc, Sql.text_asc in Hle. rewrite Ht, Htj in Hle.
      eapply string_leb_trans; eassumption. }
    rewrite Hdue1 in Hrun.
    exists (released (now_at env (tick w)) r0), r0.
    unfold eval, get_job. rewrite Hrun. cbn [fst].
    split; [reflexivity|].
    change (id (released (now_at env (tick w)) r0)) with (id r0).
    split; [exact Hrow|].
    apply failed_and_due_iff in Hjdue. destruct Hjdue as [Hf _].
    split; [exact Hf|]. split; [reflexivity|].
    intros j' Hin' Hdue'. apply Hmin. now apply filter_In.
Qed.

Lemma get_next_job_retries_first_witness :
  let env := sample_env (Exited "" "" 1) in
  exists job r0,
    eval (get_next_job env) (world_of sample_table) = Some job
    /\ eval (get_job (id job)) (world_of sample_table) = Some r0
    /\ state r0 = FAILED
    /\ job = set_updated_at (now_at env (tick (world_of sample_table)))
               (set_next_retry_at None (set_state PENDING r0))
    /\ forall j', In j' (jobs (world_of sample_table)) ->
                  failed_and_due (now_at env (world_of sample_table)) j'
                  = true ->
                  next_retry_asc r0 j' = true.
Proof.
  apply (get_next_job_retries_first (sample_env (Exited "" "" 1))
           (world_of sample_table) due_retry_job).
  - reflexivity.
  - simpl. tauto.
  - reflexivity.
  - reflexivity.
Defined.

(** A clock whose texts go down from one reading to the next, as at a
    whole second, does not stop the release: the first reading is
    09:30:00.75 and the second 09:31:00 sharp. *)
Example get_next_job_retries_first_across_second :
  let env := mkEnv (fun n => 1793698200750000 + 59250000 * Z.of_nat n)
                   isoformat_utc (fun _ _ _ => Exited "" "" 0) rounded_pow in
  let w := world_of sample_table in
  now_at env w = "2026-11-03T09:30:00.750000Z"
  /\ now_at env (tick w) = "2026-11-03T09:31:00Z"
  /\ option_map id (eval (get_next_job env) w) = Some "f".
Proof. repeat split. Qed.

(** ** A job whose [run_at] lies ahead *)

(** The outcomes of [get_next_job]: the pending selection at the second or
    third clock reading of the call, over the table as it was, or the
    release of a failed job that was due at the first two readings. *)
Lemma get_next_job_shape (env : Env) (w : World) :
  primary_key_ok (jobs w) = true ->
  let n0 := clock_reads w in
  (exists m,
      (m = S n0 \/ m = S (S n0))
      /\ get_next_job env w
         = (eval (get_next_pending_job env)
                 (mkWorld (jobs w) m (executions w)),
            mkWorld (jobs w) (S m) (executions w)))
  \/ (exists r0,
         In r0 (jobs w)
         /\ failed_and_due (clock_text env n0) r0 = true
         /\ failed_and_due (clock_text env (S n0)) r0 = true
         /\ get_next_job env w
            = (Some (released (clock_text env (S n0)) r0),
               mkWorld (map (release_row (clock_text env (S n0)) (id r0))
                            (jobs w))
                       (S (S n0)) (executions w))).
Proof.
  intros Hpk n0.
  pose proof (get_next_job_readings env w Hpk) as Hrun.
  cbv zeta in Hrun. fold n0 in Hrun.
  destruct (Sql.order_by next_retry_asc
              (filter (failed_and_due (clock_text env n0)) (jobs w)))
    as [|r0 rest] eqn:E.
  - left. exists (S n0). split; [now left|].
    rewrite Hrun. unfold eval. now rewrite !get_next_pending_job_run.
  - destruct (failed_and_due (clock_text env (S n0)) r0) eqn:Hdue1.
    + right. exists r0.
      assert (H : In r0 (Sql.order_by next_retry_asc
                           (filter (failed_and_due (clock_text env n0))
                                   (jobs w))))
        by (rewrite E; now left).
      apply order_by_In, filter_In in H. destruct H as [Hin Hdue].
      auto.
    + left. exists (S (S n0)). split; [now right|].
      rewrite Hrun. unfold eval. now rewrite !get_next_pending_job_run.
Qed.

Section Unstarted.

Variable env : Env.
Variable config : Config.
Variables (i : string) (j : Job) (t : string) (e : Z) (c0 : nat).

Hypothesis j_pending : state j = PENDING.
Hypothesis j_run_at : run_at j = Some t.

Lemma run_at_reached_later (w w' : World) :
  run_at_reached env t c0 w ->
  (clock_reads w <= clock_reads w')%nat ->
  run_at_reached env t c0 w'.
Proof. intros [m [Hm Hle]] Hc. exists m. split; [lia|exact Hle]. Qed.

(** The pending selection returns the job only at a clock reading that its
    [run_at] is not above. *)
Lemma selected_not_before (w : World) (job : Job) :
  primary_key_ok (jobs w) = true ->
  row_with_id i (jobs w) = Some j ->
  eval (get_next_pending_job env) w = Some job ->
  id job = i ->
  String.leb t (clock_text env (clock_reads w)) = true.
Proof.
  intros Hpk Hrow Hsel Hid.
  apply get_next_pending_job_Some in Hsel. destruct Hsel as [Hin [Hel _]].
  pose proof (row_with_id_unique _ _ Hpk Hin) as Hu.
  rewrite Hid, Hrow in Hu. injection Hu as Hu. rewrite <- Hu in Hel.
  destruct Hel as [_ [H|[t' [H1 H2]]]]; [congruence|].
  assert (t' = t) by congruence. subst t'. exact H2.
Qed.

Lemma release_row_pending (now x : string) :
  release_row now x j = j.
Proof.
  unfold release_row, failed_and_due. rewrite j_pending.
  now rewrite andb_false_r.
Qed.

Lemma unstarted_next (w : World) :
  unstarted_inv env i j t e c0 w ->
  unstarted_inv env i j t e c0 (exec (get_next_job env) w)
  /\ forall job,
       eval (get_next_job env) w = Some job ->
       run_at_reached env t c0 (exec (get_next_job env) w) \/ id job <> i.
Proof.
  intros [Hpk [Hc Hcase]].
  destruct (get_next_job_shape env w Hpk)
    as [[m [Hm Hrun]]|[r0 [Hin [Hdue [Hdue1 Hrun]]]]];
    unfold exec, eval; rewrite Hrun; cbn [fst snd].
  - assert (Hm' : (clock_reads w < m)%nat) by (destruct Hm; lia).
    destruct Hcase as [Hreached|[Hrow He]].
    + assert (Hr : run_at_reached env t c0
                     (mkWorld (jobs w) (S m) (executions w)))
        by (apply (run_at_reached_later w); [exact Hreached|simpl; lia]).
      split; [|auto].
      split; [exact Hpk|]. split; [simpl; lia|now left].
    + destruct (String.leb t (clock_text env m)) eqn:Hle.
      * assert (Hr : run_at_reached env t c0
                       (mkWorld (jobs w) (S m) (executions w)))
          by (exists m; split; [simpl; lia|exact Hle]).
        split; [|auto].
        split; [exact Hpk|]. split; [simpl; lia|now left].
      * split.
        -- split; [exact Hpk|]. split; [simpl; lia|]. right. now split.
        -- intros job Hjob. right. intros Hid.
           pose proof (selected_not_before
                         (mkWorld (jobs w) m (executions w)) job
                         Hpk Hrow Hjob Hid) as H.
           cbn [clock_reads] in H. congruence.
  - assert (Hpk1 : primary_key_ok
                     (map (release_row (clock_text env (S (clock_reads w)))
                                       (id r0)) (jobs w)) = true)
      by now rewrite (primary_key_ok_map _ (release_row_id _ (id r0))).
    destruct Hcase as [Hreached|[Hrow He]].
    + assert (Hr : run_at_reached env t c0
                     (mkWorld (map (release_row
                                      (clock_text env (S (clock_reads w)))
                                      (id r0)) (jobs w))
                              (S (S (clock_reads w))) (executions w)))
        by (apply (run_at_reached_later w); [exact Hreached|simpl; lia]).
      split; [|auto].
      split; [exact Hpk1|]. split; [simpl; lia|now left].
    + split.
      * split; [exact Hpk1|]. split; [simpl; lia|]. right.
        cbn [jobs]. split; [|exact He].
        rewrite (row_with_id_map _ (release_row_id _ (id r0))), Hrow.
        cbn [option_map]. now rewrite release_row_pending.
      * intros job [= <-]. right.
        change (id (released (clock_text env (S (clock_reads w))) r0))
          with (id r0).
        intros Hid. pose proof (row_with_id_unique _ _ Hpk Hin) as Hu.
        rewrite Hid, Hrow in Hu. injection Hu as Hu.
        apply failed_and_due_iff in Hdue. destruct Hdue as [Hf _].
        congruence.
Qed.

Lemma unstarted_claim (w : World) (x : string) :
  unstarted_inv env i j t e c0 w ->
  run_at_reached env t c0 w \/ x <> i ->
  unstarted_inv env i j t e c0 (set_jobs (map (claim_row x) (jobs w)) w)
  /\ (run_at_reached env t c0 (set_jobs (map (claim_row x) (jobs w)) w)
      \/ x <> i).
Proof.
  intros [Hpk [Hc Hcase]] Hx.
  assert (Hpk1 : primary_key_ok (map (claim_row x) (jobs w)) = true)
    by now rewrite (primary_key_ok_map _ (claim_row_id x)).
  assert (Hsame : run_at_reached env t c0 w ->
                  run_at_reached env t c0
                    (set_jobs (map (claim_row x) (jobs w)) w))
    by (intros H; exact H).
  split.
  - split; [exact Hpk1|]. split; [exact Hc|].
    destruct Hcase as [Hr|[Hrow He]]; [left; now apply Hsame|].
    destruct Hx as [Hr|Hx]; [left; now apply Hsame|].
    right. cbn [jobs set_jobs]. split; [|exact He].
    rewrite (row_with_id_map _ (claim_row_id x)), Hrow. simpl. f_equal.
    unfold claim_row. destruct (row_with_id_Some _ _ _ Hrow) as [_ Hj].
    destruct (String.eqb_spec (id j) x); [congruence|reflexivity].
  - destruct Hx as [Hr|Hx]; [left; now apply Hsame|now right].
Qed.

Lemma unstarted_process (w : World) (job j' : Job) :
  unstarted_inv env i j t e c0 w ->
  run_at_reached env t c0 w \/ id job <> i ->
  row_with_id (id job) (jobs w) = Some j' -> state j' = PROCESSING ->
  unstarted_inv env i j t e c0 (exec (process_job env config job) w).
Proof.
  intros [Hpk [Hc Hcase]] Hx Hj' Hproc.
  pose proof (process_job_clock env config job j' w Hj' Hproc) as Hclock.
  destruct (process_job_processing_cases env config job j' w Hj' Hproc)
    as [J [reads [Hrun [Jid _]]]].
  assert (Hlater : run_at_reached env t c0 w ->
                   run_at_reached env t c0
                     (exec (process_job env config job) w))
    by (intros H; now apply (run_at_reached_later w)).
  rewrite Hrun in Hclock, Hlater |- *. cbn [clock_reads] in Hclock.
  destruct (row_with_id_Some _ _ _ Hj') as [_ Hidj].
  split; [|split]; cbn [jobs clock_reads].
  - now rewrite (primary_key_ok_map _ (write_row_id J)).
  - lia.
  - destruct Hcase as [Hr|[Hrow He]]; [left; now apply Hlater|].
    destruct Hx as [Hr|Hx]; [left; now apply Hlater|].
    assert (Hne : (id j' =? i)%string = false)
      by (apply String.eqb_neq; congruence).
    right. cbn [jobs]. split.
    + rewrite row_with_id_write, Jid, String.eqb_sym, Hne. exact Hrow.
    + rewrite executions_of_cons, Hne, Z.add_0_r. exact He.
Qed.

Lemma unstarted_work_loop (n : nat) (w : World) :
  unstarted_inv env i j t e c0 w ->
  unstarted_inv env i j t e c0 (exec (work_loop env config n) w).
Proof.
  apply (work_loop_pass env config (unstarted_inv env i j t e c0)
                        (fun w' x => run_at_reached env t c0 w' \/ x <> i)).
  - now intros w' [H _].
  - exact unstarted_next.
  - exact unstarted_claim.
  - exact unstarted_process.
Qed.

End Unstarted.

(** C6 (what the code does). [get_next_pending_job] returns [None] exactly
    when no job is eligible: pending, with [run_at] unset or, as a text,
    not above the text of now in bytewise order, which is how SQLite
    compares the two TEXT values. Otherwise it returns an eligible job of
    the store of the highest priority and, among those, of the smallest
    [created_at] text. A job whose [run_at] text is above the text of now is
    not returned; and the worker loop neither claims nor executes such a
    pending job, and leaves its record as it is, through any number of
    passes in which every clock reading made gives a text below its
    [run_at]. The order of the texts is not the order of the times they
    denote: see [get_next_pending_job_text_order]. *)
Theorem get_next_pending_job_selects
        (env : Env) (config : Config) (w : World) :
  let now := now_at env w in
  let r := eval (get_next_pending_job env) w in
  (r = None <-> forall j, In j (jobs w) -> ~ eligible now j)
  /\ (forall j, r = Some j ->
        In j (jobs w)
        /\ eligible now j
        /\ forall j', In j' (jobs w) -> eligible now j' ->
             priority j' <= priority j
             /\ (priority j' = priority j ->
                 String.leb (created_at j) (created_at j') = true))
  /\ (forall j t, run_at j = Some t -> String.ltb now t = true ->
                  r <> Some j)
  /\ (forall i j t n,
        primary_key_ok (jobs w) = true ->
        row_with_id i (jobs w) = Some j ->
        state j = PENDING ->
        run_at j = Some t ->
        let w' := exec (work_loop env config n) w in
        (forall m, (clock_reads w <= m < clock_reads w')%nat ->
                   String.ltb (clock_text env m) t = true) ->
        row_with_id i (jobs w') = Some j
        /\ executions_of i w' = executions_of i w).
Proof.
  intros now r. split; [|split; [|split]].
  - apply get_next_pending_job_None.
  - apply get_next_pending_job_Some.
  - intros j t Hrun Hlt Hr.
    apply get_next_pending_job_Some in Hr. destruct Hr as [_ [[_ He] _]].
    destruct He as [He|[t' [H1 H2]]]; [congruence|].
    assert (t' = t) by congruence. subst t'.
    apply string_ltb_leb in Hlt. fold now in H2. congruence.
  - intros i j t n Hpk Hrow Hst Hrun w' Hahead.
    assert (Hw : unstarted_inv env i j t (executions_of i w)
                               (clock_reads w) w).
    { split; [exact Hpk|]. split; [lia|]. right. now split. }
    apply (unstarted_work_loop env config i j t _ _ Hst Hrun n) in Hw.
    fold w' in Hw. destruct Hw as [_ [_ [[m [Hm Hle]]|H]]]; [|exact H].
    apply Hahead, string_ltb_leb in Hm. congruence.
Qed.

Lemma get_next_pending_job_selects_witness :
  let env := sample_env (Exited "" "" 1) in
  let w := world_of sample_table in
  let w' := exec (work_loop env DEFAULT_CONFIG 4) w in
  clock_text env 0 = "2026-11-03T09:30:00Z"
  /\ clock_text env (clock_reads w' - 1) = "2026-11-03T09:30:03.250000Z"
  /\ executions w' = ["low"; "hi"; "f"]
  /\ row_with_id "later" (jobs w') = Some later_job
  /\ executions_of "later" w' = executions_of "later" w.
Proof.
  intros env w w'.
  split; [reflexivity|]. split; [reflexivity|]. split; [reflexivity|].
  apply (proj2 (proj2 (proj2
           (get_next_pending_job_selects env DEFAULT_CONFIG w)))
           "later" later_job "2026-11-03T10:00:00Z" 4%nat
           eq_refl eq_refl eq_refl eq_refl).
  intros m Hm.
  assert (Hc : clock_reads (exec (work_loop env DEFAULT_CONFIG 4) w)
               = 14%nat) by reflexivity.
  rewrite Hc in Hm.
  do 14 (destruct m as [|m]; [reflexivity|]). lia.
Defined.

Example get_next_pending_job_picks_hi :
  option_map id (eval (get_next_pending_job frozen_env)
                      (world_of sample_table))
  = Some "hi"
  /\ executions (exec (work_loop frozen_env DEFAULT_CONFIG 4)
                      (world_of sample_table))
     = ["low"; "hi"; "f"].
Proof. split; reflexivity. Qed.

(** C6 (at the failing inputs). [isoformat] writes no fraction for a time
    on a whole second, and ["."] sorts below ["Z"]. A job with [run_at] at
    09:30:00 sharp is not selected at 09:30:00.25, a quarter of a second
    after it was due. A job with [run_at] at 09:30:00.5 is selected at
    09:30:00 sharp, and the worker executes it, half a second early. *)
Lemma get_next_pending_job_text_order :
  let t0 := 1793698200000000 in
  let env := sample_env (Exited "" "" 1) in
  let sharp := scheduled_job (isoformat_utc t0 ++ "Z") in
  let ahead := scheduled_job (isoformat_utc (t0 + 500000) ++ "Z") in
  utcnow env 1 = t0 + 250000
  /\ now_at env (mkWorld [sharp] 1 []) = "2026-11-03T09:30:00.250000Z"
  /\ run_at sharp = Some "2026-11-03T09:30:00Z"
  /\ eval (get_next_pending_job env) (mkWorld [sharp] 1 []) = None
  /\ utcnow frozen_env 0 = t0
  /\ now_at frozen_env (world_of [ahead]) = "2026-11-03T09:30:00Z"
  /\ run_at ahead = Some "2026-11-03T09:30:00.500000Z"
  /\ eval (get_next_pending_job frozen_env) (world_of [ahead]) = Some ahead
  /\ executions (exec (work_iteration frozen_env DEFAULT_CONFIG)
                      (world_of [ahead]))
     = ["s"].
Proof. repeat split. Qed.

(** ** A pass of the worker loop *)

Lemma work_iteration_cases (env : Env) (config : Config) (w : World) :
  primary_key_ok (jobs w) = true ->
  let r := eval (get_next_job env) w in
  let w1 := exec (get_next_job env) w in
  let w' := exec (work_iteration env config) w in
  match r with
  | None => w' = w1
  | Some job =>
      let c := next_child env (default_timeout config) job w1 in
      exists (J : Job) (reads : nat),
        w' = mkWorld (map (write_row J) (map (claim_row (id job)) (jobs w1)))
                     reads (id job :: executions w1)
        /\ id J = id job
        /\ state J = (if is_failure c then FAILED else COMPLETED)
        /\ attempts J = attempts job + (if is_failure c then 1 else 0)
        /\ output J = Some (output_of c)
        /\ next_retry_at J = next_retry_at job
        /\ run_at J = run_at job
        /\ max_retries J = max_retries job
        /\ priority J = priority job
  end.
Proof.
  intros Hpk r w1 w'.
  destruct (get_next_job_cases env w Hpk) as [Hpk1 [_ Hr]].
  fold r w1 in Hpk1, Hr.
  unfold w', exec, work_iteration, bind.
  unfold r, w1, eval, exec in *.
  destruct (get_next_job env w) as [[job|] w2]; cbn [fst snd] in *;
    [|reflexivity].
  destruct Hr as [Hrow [Hst _]].
  rewrite acquire_job_lock_run.
  rewrite (existsb_by_id (fun r => JobState_eqb (state r) PENDING)
                         _ _ Hpk1), Hrow.
  rewrite (proj2 (JobState_eqb_eq _ _) Hst). cbn [negb].
  unfold get_job.
  assert (E2 : row_with_id (id job)
                 (jobs (set_jobs (map (claim_row (id job)) (jobs w2)) w2))
               = Some (set_state PROCESSING job)).
  { cbn [jobs set_jobs].
    rewrite (row_with_id_map _ (claim_row_id (id job))), Hrow. simpl.
    unfold claim_row.
    now rewrite String.eqb_refl, (proj2 (JobState_eqb_eq _ _) Hst). }
  rewrite E2.
  destruct (process_job_processing_outcome env config
              (set_state PROCESSING job) (set_state PROCESSING job)
              (set_jobs (map (claim_row (id job)) (jobs w2)) w2)
              E2 eq_refl)
    as [J [reads [Hrun [Jid [Jst [Jat [Jout [Jnr
          [_ [Jmr [Jpr [Jra _]]]]]]]]]]]].
  rewrite Hrun. cbn [snd]. exists J, reads.
  split; [reflexivity|]. repeat split; assumption.
Qed.

(** X14. With unique ids, a pass of the worker loop executes the job
    [get_next_job] finds, and nothing else: that job is executed once and
    ends completed or failed, and no other record is changed by the pass.
    When [get_next_job] finds nothing, the pass executes nothing and
    leaves the table as it is. *)
Theorem work_iteration_one_job (env : Env) (config : Config) (w : World) :
  primary_key_ok (jobs w) = true ->
  let r := eval (get_next_job env) w in
  let w' := exec (work_iteration env config) w in
  primary_key_ok (jobs w') = true
  /\ (r = None -> jobs w' = jobs w /\ executions w' = executions w)
  /\ forall job,
       r = Some job ->
       executions w' = id job :: executions w
       /\ (forall i, i <> id job ->
                     eval (get_job i) w' = eval (get_job i) w)
       /\ exists j',
            eval (get_job (id job)) w' = Some j'
            /\ (state j' = COMPLETED \/ state j' = FAILED)
            /\ (state j' = COMPLETED -> attempts j' = attempts job)
            /\ (state j' = FAILED -> attempts j' = attempts job + 1).
Proof.
  intros Hpk r w'.
  pose proof (work_iteration_cases env config w Hpk) as Hc.
  destruct (get_next_job_cases env w Hpk) as [Hpk1 [Hex Hr]].
  cbv zeta in Hc. fold r w' in Hc, Hr.
  destruct r as [job|].
  - destruct Hc as [J [reads [Hw' [Jid [Jst [Jat _]]]]]].
    destruct Hr as [Hrow [Hst Horigin]].
    assert (Hother : forall i, i <> id job ->
               row_with_id i (jobs (exec (get_next_job env) w))
               = row_with_id i (jobs w)).
    { destruct Horigin as [[r0 [_ [_ [_ [_ H]]]]]|[H _]]; [exact H|].
      intros i _. now rewrite H. }
    rewrite Hw'. cbn [jobs executions]. split; [|split; [discriminate|]].
    + rewrite (primary_key_ok_map _ (write_row_id J)).
      now rewrite (primary_key_ok_map _ (claim_row_id (id job))).
    + intros job' [= <-]. split; [now rewrite Hex|]. split.
      * intros i Hi. unfold eval, get_job. cbn [fst jobs].
        rewrite row_with_id_write, Jid.
        destruct (String.eqb_spec i (id job)); [congruence|].
        rewrite (row_with_id_map _ (claim_row_id (id job))), (Hother i Hi).
        destruct (row_with_id i (jobs w)) as [r0|] eqn:Er; [|reflexivity].
        simpl. f_equal. unfold claim_row.
        destruct (row_with_id_Some _ _ _ Er) as [_ Hr0].
        destruct (String.eqb_spec (id r0) (id job)); [congruence|reflexivity].
      * unfold eval, get_job. cbn [fst jobs].
        rewrite row_with_id_write, Jid, String.eqb_refl.
        rewrite (row_with_id_map _ (claim_row_id (id job))), Hrow.
        eexists. split; [reflexivity|]. simpl.
        rewrite Jst, Jat.
        destruct (is_failure _); repeat split;
          try (now left); try (now right); try discriminate; intros; lia.
  - rewrite Hc. split; [exact Hpk1|]. split; [|discriminate].
    intros _. split; [exact Hr|exact Hex].
Qed.

Lemma work_iteration_one_job_witness :
  let w := world_of sample_table in
  let r := eval (get_next_job frozen_env) w in
  let w' := exec (work_iteration frozen_env DEFAULT_CONFIG) w in
  primary_key_ok (jobs w') = true
  /\ (r = None -> jobs w' = jobs w /\ executions w' = executions w)
  /\ forall job,
       r = Some job ->
       executions w' = id job :: executions w
       /\ (forall i, i <> id job ->
                     eval (get_job i) w' = eval (get_job i) w)
       /\ exists j',
            eval (get_job (id job)) w' = Some j'
            /\ (state j' = COMPLETED \/ state j' = FAILED)
            /\ (state j' = COMPLETED -> attempts j' = attempts job)
            /\ (state j' = FAILED -> attempts j' = attempts job + 1).
Proof.
  exact (work_iteration_one_job frozen_env DEFAULT_CONFIG
                                (world_of sample_table) eq_refl).
Defined.

(** ** Draining a store of ready jobs *)

Lemma primary_key_NoDup_ids (t : Sql.Table) :
  primary_key_ok t = true -> NoDup (map id t).
Proof.
  induction t as [|r t IH]; simpl; [constructor|].
  intros H. apply andb_true_iff in H. destruct H as [Hr Hpk].
  apply negb_true_iff in Hr. constructor; [|auto].
  intros Hin. apply in_map_iff in Hin. destruct Hin as [r' [Hid Hin]].
  exact (existsb_id_false _ _ Hr r' Hin Hid).
Qed.

(** Taking one pending job [c] out of the pending ones. *)
Lemma pending_ids_after (f : Job -> Job) (c : string) (j : Job)
      (t : Sql.Table) :
  primary_key_ok t = true ->
  (forall r, id r <> c -> f r = r) ->
  (forall r, id r = c -> state (f r) <> PENDING) ->
  row_with_id c t = Some j ->
  state j = PENDING ->
  Permutation (c :: pending_ids (map f t)) (pending_ids t).
Proof.
  intros Hpk Hoth Hc. unfold pending_ids.
  induction t as [|r t IH]; [discriminate|].
  simpl in Hpk. apply andb_true_iff in Hpk. destruct Hpk as [Hr Hpk].
  apply negb_true_iff in Hr.
  unfold row_with_id, Sql.fetchone, Sql.select. simpl.
  destruct (String.eqb_spec (id r) c) as [E|E]; simpl.
  - intros [= <-] Hst.
    rewrite (proj2 (JobState_eqb_eq _ _) Hst).
    rewrite (proj2 (JobState_eqb_neq _ _) (Hc r E)). simpl.
    rewrite E. apply perm_skip.
    replace (map f t) with t; [reflexivity|].
    symmetry. rewrite <- (map_id t) at 2. apply map_ext_in.
    intros r' Hin. apply Hoth. rewrite <- E.
    exact (existsb_id_false _ _ Hr r' Hin).
  - intros Hrow Hst. rewrite (Hoth r E).
    specialize (IH Hpk Hrow Hst).
    destruct (JobState_eqb (state r) PENDING); simpl.
    + rewrite perm_swap. now apply perm_skip.
    + exact IH.
Qed.

Lemma no_retry_due (now : string) (t : Sql.Table) :
  (forall r, In r t -> next_retry_at r = None) ->
  filter (failed_and_due now) t = [].
Proof.
  induction t as [|r t IH]; simpl; [reflexivity|].
  intros H. unfold failed_and_due at 1.
  rewrite (H r (or_introl eq_refl)), andb_false_r. simpl.
  apply IH. intros r' Hin. apply H. now right.
Qed.

Lemma get_next_job_no_retry (env : Env) (w : World) :
  (forall r, In r (jobs w) -> next_retry_at r = None) ->
  get_next_job env w = get_next_pending_job env (tick w).
Proof.
  intros H. unfold get_next_job, bind. rewrite get_retryable_jobs_run.
  now rewrite (no_retry_due _ _ H).
Qed.

Lemma drain_pass (env : Env) (config : Config) (ids0 : list string)
      (w : World) :
  drain_inv ids0 w ->
  let w' := exec (work_iteration env config) w in
  drain_inv ids0 w'
  /\ List.length (pending_ids (jobs w'))
     = Nat.pred (List.length (pending_ids (jobs w))).
Proof.
  intros [Hpk [Hrows Hperm]] w'.
  pose proof (work_iteration_cases env config w Hpk) as Hc.
  destruct (get_next_job_cases env w Hpk) as [Hpk1 [Hex Hr]].
  cbv zeta in Hc. fold w' in Hc.
  assert (Hnr : forall r, In r (jobs w) -> next_retry_at r = None)
    by (intros r Hin; apply (Hrows r Hin)).
  pose proof (get_next_job_no_retry env w Hnr) as Hnext.
  destruct (eval (get_next_job env) w) as [job|] eqn:Er.
  - destruct Hc as [J [reads [Hw' [Jid [Jst [_ [_ [Jnr _]]]]]]]].
    destruct Hr as [Hrow [Hst Horigin]].
    assert (Hsame : jobs (exec (get_next_job env) w) = jobs w).
    { destruct Horigin as [[r0 [Hin [_ [Hdue _]]]]|[H _]]; [|exact H].
      apply failed_and_due_iff in Hdue. destruct Hdue as [_ [t [Ht _]]].
      rewrite (Hnr r0 Hin) in Ht. discriminate. }
    rewrite Hsame in Hrow, Hw'. rewrite Hex in Hw'.
    rewrite map_map in Hw'.
    assert (Hoth : forall r, id r <> id job ->
                             write_row J (claim_row (id job) r) = r).
    { intros r Hne. unfold claim_row.
      destruct (String.eqb_spec (id r) (id job)); [congruence|].
      simpl. apply write_row_other. congruence. }
    assert (HJ : forall r, id r = id job ->
                           write_row J (claim_row (id job) r)
                           = overwrite J (claim_row (id job) r)).
    { intros r He. unfold write_row.
      now rewrite claim_row_id, He, Jid, String.eqb_refl. }
    assert (Hnp : state J <> PENDING)
      by (rewrite Jst; destruct (is_failure _); discriminate).
    assert (Hcst : forall r, id r = id job ->
                             state (write_row J (claim_row (id job) r))
                             <> PENDING)
      by (intros r He; rewrite (HJ r He); exact Hnp).
    pose proof (pending_ids_after
                  (fun r => write_row J (claim_row (id job) r))
                  (id job) job (jobs w) Hpk Hoth Hcst Hrow Hst) as Hp.
    rewrite Hw'. unfold drain_inv. cbn [jobs executions]. split.
    + split; [|split].
      * rewrite (primary_key_ok_map
                   (fun r => write_row J (claim_row (id job) r)));
          [exact Hpk|].
        intros r. now rewrite write_row_id, claim_row_id.
      * intros r' Hin'. apply in_map_iff in Hin'.
        destruct Hin' as [r [<- Hin]].
        destruct (String.eqb_spec (id r) (id job)) as [He|He].
        -- rewrite (HJ r He). simpl.
           pose proof (row_with_id_unique _ _ Hpk Hin) as Hu.
           rewrite He, Hrow in Hu. injection Hu as <-.
           rewrite Jnr. split; [apply (Hrows job Hin)|].
           split; [intros Hs; now elim Hnp|].
           rewrite Jst. destruct (is_failure _); auto.
        -- rewrite (Hoth r He). apply (Hrows r Hin).
      * rewrite <- Hperm. simpl. rewrite <- Hp.
        rewrite Permutation_middle. reflexivity.
    + apply Permutation_length in Hp. simpl in Hp. rewrite <- Hp.
      reflexivity.
  - rewrite Hc.
    assert (Hjobs : jobs (exec (get_next_job env) w) = jobs w) by exact Hr.
    assert (Hnone : pending_ids (jobs w) = []).
    { unfold eval in Er. rewrite Hnext in Er.
      pose proof (proj1 (get_next_pending_job_None env (tick w)) Er) as Hno.
      unfold pending_ids.
      destruct (filter _ (jobs w)) as [|p rest] eqn:Ef; [reflexivity|].
      exfalso.
      assert (Hp : In p (filter (fun r => JobState_eqb (state r) PENDING)
                                (jobs w))) by (rewrite Ef; now left).
      apply filter_In in Hp. destruct Hp as [Hin Hst].
      apply JobState_eqb_eq in Hst.
      apply (Hno p Hin). split; [exact Hst|]. left.
      now apply (Hrows p Hin). }
    split.
    + split; [exact Hpk1|]. rewrite Hjobs, Hex. now split.
    + now rewrite Hjobs, Hnone.
Qed.

Lemma pending_ids_all (t : Sql.Table) :
  (forall r, In r t -> state r = PENDING) -> pending_ids t = map id t.
Proof.
  unfold pending_ids. induction t as [|r t IH]; simpl; [reflexivity|].
  intros H. rewrite (proj2 (JobState_eqb_eq _ _) (H r (or_introl eq_refl))).
  simpl. f_equal. apply IH. intros r' Hin. apply H. now right.
Qed.

Lemma drain_loop (env : Env) (config : Config) (ids0 : list string)
      (n : nat) (w : World) :
  drain_inv ids0 w ->
  let w' := exec (work_loop env config n) w in
  drain_inv ids0 w'
  /\ (List.length (pending_ids (jobs w'))
      = List.length (pending_ids (jobs w)) - n)%nat.
Proof.
  revert w. induction n as [|n IH]; intros w Hinv.
  - split; [exact Hinv|]. now rewrite Nat.sub_0_r.
  - destruct (drain_pass env config ids0 w Hinv) as [H1 L1].
    cbv zeta in *. unfold exec in *. simpl. unfold bind.
    destruct (work_iteration env config w) as [u w1]. cbn [snd] in *.
    destruct (IH w1 H1) as [H2 L2]. split; [exact H2|]. lia.
Qed.

(** X15. Workers drain a store of ready jobs: when ids are unique, every job
    is pending with no [run_at] and no [next_retry_at], and nothing has been
    executed yet, then after at least as many passes as there are jobs each
    job has been executed exactly once, whatever its command did, and each
    record is completed or failed; none is left pending or processing. *)
Theorem work_loop_drains (env : Env) (config : Config) (n : nat)
        (w0 : World) :
  primary_key_ok (jobs w0) = true ->
  (forall r, In r (jobs w0) ->
             state r = PENDING /\ run_at r = None /\ next_retry_at r = None) ->
  executions w0 = [] ->
  (List.length (jobs w0) <= n)%nat ->
  let w := exec (work_loop env config n) w0 in
  Permutation (executions w) (map id (jobs w0))
  /\ NoDup (executions w)
  /\ (forall r, In r (jobs w) -> state r = COMPLETED \/ state r = FAILED).
Proof.
  intros Hpk Hall Hex Hn w.
  assert (Hids : pending_ids (jobs w0) = map id (jobs w0)).
  { apply pending_ids_all. intros r Hin. apply (Hall r Hin). }
  assert (Hinv : drain_inv (map id (jobs w0)) w0).
  { split; [exact Hpk|]. split.
    - intros r Hin. destruct (Hall r Hin) as [Hs [Hr Hnr]]. auto.
    - now rewrite Hex, Hids. }
  destruct (drain_loop env config _ n w0 Hinv) as [[Hpk' [Hrows Hperm]] Hlen].
  fold w in Hpk', Hrows, Hperm, Hlen.
  assert (Hempty : pending_ids (jobs w) = []).
  { apply length_zero_iff_nil. rewrite Hlen, Hids, length_map. lia. }
  rewrite Hempty, app_nil_r in Hperm.
  split; [exact Hperm|]. split.
  - apply (Permutation_NoDup (Permutation_sym Hperm)).
    now apply primary_key_NoDup_ids.
  - intros r Hin. destruct (Hrows r Hin) as [_ [_ [Hs|Hs]]]; [|exact Hs].
    exfalso. unfold pending_ids in Hempty.
    assert (Hp : In r (filter (fun r => JobState_eqb (state r) PENDING)
                              (jobs w)))
      by (apply filter_In; split; [exact Hin|now apply JobState_eqb_eq]).
    apply (in_map id) in Hp. rewrite Hempty in Hp. contradiction.
Qed.

Lemma work_loop_drains_witness :
  let w := exec (work_loop (sample_env (Exited "" "bad" 1)) DEFAULT_CONFIG 5)
                (world_of ready_table) in
  Permutation (executions w) (map id (jobs (world_of ready_table)))
  /\ NoDup (executions w)
  /\ (forall r, In r (jobs w) -> state r = COMPLETED \/ state r = FAILED).
Proof.
  apply (work_loop_drains (sample_env (Exited "" "bad" 1)) DEFAULT_CONFIG 5
                          (world_of ready_table)).
  - reflexivity.
  - simpl. intros r [<-|[<-|[<-|[]]]]; repeat split.
  - reflexivity.
  - simpl. lia.
Defined.

(** ** A ready job is not overlooked *)

Lemma existsb_and_id (p : Job -> bool) (i : string) (t : Sql.Table) :
  existsb (fun r => (id r =? i)%string && p r) t = true ->
  row_with_id i t <> None.
Proof.
  intros H. apply existsb_exists in H. destruct H as [r [Hin Hr]].
  apply andb_true_iff in Hr. destruct Hr as [Hid _].
  pose proof (existsb_id_row i t) as E.
  assert (Hex : existsb (fun r => id r =? i)%string t = true)
    by (apply existsb_exists; now exists r).
  rewrite Hex in E. now destruct (row_with_id i t).
Qed.

Lemma get_next_job_None_pending (env : Env) (w : World) :
  eval (get_next_job env) w = None ->
  exists w2, jobs w2 = jobs w
             /\ eval (get_next_pending_job env) w2 = None.
Proof.
  unfold eval, get_next_job, bind. rewrite get_retryable_jobs_run.
  destruct (Sql.order_by _ _) as [|job rest].
  - intros H. now exists (tick w).
  - rewrite reset_retryable_run.
    destruct (existsb _ _) eqn:Hex.
    + unfold get_job. cbn [fst jobs tick].
      rewrite (row_with_id_map _ (release_row_id _ (id job))).
      apply existsb_and_id in Hex. cbn [jobs tick] in Hex.
      now destruct (row_with_id (id job) (jobs w)).
    + intros H. eexists. split; [|exact H]. cbn [jobs tick].
      apply (update_nothing
               (fun r => (id r =? id job)%string
                         && failed_and_due (now_at env (tick w)) r)
               (fun r => set_updated_at (now_at env (tick w))
                           (set_next_retry_at None (set_state PENDING r)))).
      exact Hex.
Qed.

Lemma get_next_pending_job_ready (env : Env) (w : World) (j : Job) :
  In j (jobs w) -> state j = PENDING -> run_at j = None ->
  eval (get_next_pending_job env) w <> None.
Proof.
  intros Hin Hst Hrun H.
  pose proof (proj1 (get_next_pending_job_None env w) H) as Hno.
  apply (Hno j Hin). split; [exact Hst|now left].
Qed.

(** X16. Whenever some pending job has no [run_at], [get_next_job] returns
    a job: a worker that asks for work is given some. *)
Theorem get_next_job_finds (env : Env) (w : World) (j : Job) :
  In j (jobs w) -> state j = PENDING -> run_at j = None ->
  eval (get_next_job env) w <> None.
Proof.
  intros Hin Hst Hrun Hnone.
  destruct (get_next_job_None_pending env w Hnone) as [w2 [Hj Hp]].
  apply (get_next_pending_job_ready env w2 j); [|exact Hst|exact Hrun|].
  - now rewrite Hj.
  - exact Hp.
Qed.

Lemma get_next_job_finds_witness :
  eval (get_next_job frozen_env) (world_of ready_table) <> None.
Proof.
  apply (get_next_job_finds frozen_env (world_of ready_table) low_job).
  - simpl. tauto.
  - reflexivity.
  - reflexivity.
Defined.

(** * Further properties of the command line *)

(** ** [enqueue] *)

Lemma enqueue_run (env : Env) (config : Config) (data : JobData)
      (w : World) :
  enqueue env config data w
  = let job := enqueued_job config (now_at env w) data in
    if bindable job then
      match row_with_id (data_id data) (jobs w) with
      | Some _ => (false, tick w)
      | None => (true, set_jobs (jobs w ++ [job]) (tick w))
      end
    else (false, tick w).
Proof.
  unfold enqueue, Job_init, bind. rewrite now_iso_run. unfold ret.
  fold (enqueued_job config (now_at env w) data).
  rewrite add_job_run. cbv zeta.
  destruct (bindable _); [|reflexivity].
  cbn [jobs tick id enqueued_job].
  now destruct (row_with_id (data_id data) (jobs w)).
Qed.

(** X17. [enqueue] accepts the job exactly when its id is not in the store
    and its integers ([max_retries], priority and timeout, from the data or
    else from the configuration) fit in 64 bits; otherwise the command fails
    and leaves the table as it is. An accepted job is stored pending with no
    attempts, both timestamps set to now, no output, error or
    [next_retry_at], the producer's command and [run_at], and [max_retries],
    priority and timeout taken from the data or else from the configuration
    (priority 0). No other record changes, and when the job has no [run_at] a
    worker that asks for work afterwards is given some. *)
Theorem enqueue_creates (env : Env) (config : Config) (data : JobData)
        (w : World) :
  let ok := eval (enqueue env config data) w in
  let w' := exec (enqueue env config data) w in
  let job := enqueued_job config (now_at env w) data in
  (ok = true
   <-> bindable job = true /\ eval (get_job (data_id data)) w = None)
  /\ (ok = false -> jobs w' = jobs w)
  /\ (ok = true ->
      eval (get_job (data_id data)) w' = Some job
      /\ (data_run_at data = None -> eval (get_next_job env) w' <> None))
  /\ (forall i, i <> data_id data ->
                eval (get_job i) w' = eval (get_job i) w)
  /\ (primary_key_ok (jobs w) = true -> primary_key_ok (jobs w') = true).
Proof.
  intros ok w' job. unfold ok, w', eval, exec. rewrite enqueue_run.
  fold job. cbv zeta. unfold get_job. cbn [fst].
  destruct (bindable job) eqn:Hb; cbn [fst snd jobs tick].
  - destruct (row_with_id (data_id data) (jobs w)) as [r|] eqn:E;
      cbn [fst snd jobs set_jobs tick].
    + split; [split; [discriminate|intros [_ H]; discriminate]|].
      split; [reflexivity|].
      split; [discriminate|]. split; [reflexivity|auto].
    + assert (Hnew : row_with_id (data_id data) (jobs w ++ [job])
                     = Some job).
      { rewrite row_with_id_snoc, E. unfold job. simpl id.
        now rewrite String.eqb_refl. }
      split; [tauto|]. split; [discriminate|]. split; [|split].
      * intros _. split; [exact Hnew|]. intros Hrun Hnone.
        destruct (get_next_job_None_pending env _ Hnone) as [w2 [Hj Hp]].
        apply (get_next_pending_job_ready env w2 job).
        -- rewrite Hj. cbn [jobs]. apply in_or_app. right. now left.
        -- reflexivity.
        -- exact Hrun.
        -- exact Hp.
      * intros i Hi. rewrite row_with_id_snoc.
        destruct (row_with_id i (jobs w)); [reflexivity|].
        unfold job. simpl id.
        destruct (String.eqb_spec (data_id data) i);
          [congruence|reflexivity].
      * intros Hpk. apply primary_key_ok_snoc; [exact Hpk|].
        rewrite existsb_id_row. unfold job. simpl id. now rewrite E.
  - split; [split; [discriminate|intros [H _]; discriminate]|].
    split; [reflexivity|].
    split; [discriminate|]. split; [reflexivity|auto].
Qed.

(** At the input [{"id": "big", "command": "true", "priority": 2 ** 63}]
    the id is new and the command fails: nothing is stored. *)
Example enqueue_overflow :
  let data := mkJobData "big" "true" None (Some (2 ^ 63)) None None in
  eval (get_job "big") empty_world = None
  /\ eval (enqueue frozen_env DEFAULT_CONFIG data) empty_world = false
  /\ jobs (exec (enqueue frozen_env DEFAULT_CONFIG data) empty_world) = [].
Proof. repeat split. Qed.

(** * Further properties of the configuration *)

Section ConfigFacts.

Context {Value : Type}.
Variable of_int : Z -> Value.
Variable of_str : string -> Value.

Lemma dict_get_set (key k : string) (value : Value)
      (d : @ConfigStore.Dict Value) :
  ConfigStore.dict_get (ConfigStore.dict_set key value d) k
  = if (key =? k)%string then Some value else ConfigStore.dict_get d k.
Proof.
  induction d as [|[k0 v0] rest IH]; simpl.
  - reflexivity.
  - destruct (String.eqb_spec k0 key) as [->|Hne]; simpl.
    + destruct (String.eqb_spec key k); reflexivity.
    + rewrite IH. destruct (String.eqb_spec k0 k) as [->|Hk].
      * destruct (String.eqb_spec key k); [congruence|reflexivity].
      * reflexivity.
Qed.

Lemma keys_unique_set (key : string) (value : Value)
      (d : @ConfigStore.Dict Value) :
  keys_unique d = true ->
  keys_unique (ConfigStore.dict_set key value d) = true.
Proof.
  induction d as [|[k0 v0] rest IH]; simpl; intros H.
  - reflexivity.
  - destruct (ConfigStore.dict_get rest k0) eqn:E; [discriminate|].
    destruct (String.eqb_spec k0 key) as [->|Hne]; simpl.
    + now rewrite E.
    + rewrite dict_get_set, E.
      destruct (String.eqb_spec key k0); [congruence|]. now apply IH.
Qed.

Lemma keys_unique_update (d other : @ConfigStore.Dict Value) :
  keys_unique d = true ->
  keys_unique (ConfigStore.dict_update d other) = true.
Proof.
  unfold ConfigStore.dict_update. revert d.
  induction other as [|[k v] rest IH]; simpl; intros d H.
  - exact H.
  - apply IH. now apply keys_unique_set.
Qed.

Lemma dict_get_update (d other : @ConfigStore.Dict Value) (k : string) :
  keys_unique other = true ->
  ConfigStore.dict_get (ConfigStore.dict_update d other) k
  = match ConfigStore.dict_get other k with
    | Some v => Some v
    | None => ConfigStore.dict_get d k
    end.
Proof.
  unfold ConfigStore.dict_update. revert d.
  induction other as [|[k0 v0] rest IH]; simpl; intros d H.
  - reflexivity.
  - destruct (ConfigStore.dict_get rest k0) eqn:E; [discriminate|].
    rewrite (IH _ H), dict_get_set.
    destruct (String.eqb_spec k0 k) as [<-|Hne].
    + now rewrite E.
    + reflexivity.
Qed.

Lemma dict_get_In (d : @ConfigStore.Dict Value) (k : string) (v : Value) :
  ConfigStore.dict_get d k = Some v -> In (k, v) d.
Proof.
  induction d as [|[k0 v0] rest IH]; simpl; [discriminate|].
  destruct (String.eqb_spec k0 k) as [->|Hne].
  - intros H. injection H as ->. now left.
  - intros H. right. now apply IH.
Qed.

Lemma has_keys_of_get (base d : @ConfigStore.Dict Value) (k : string) :
  has_keys_of base d = true ->
  ConfigStore.dict_get d k = None -> ConfigStore.dict_get base k = None.
Proof.
  intros H Hd. destruct (ConfigStore.dict_get base k) as [v|] eqn:E;
    [|reflexivity].
  apply dict_get_In in E. unfold has_keys_of in H.
  rewrite forallb_forall in H. specialize (H _ E). simpl in H.
  now rewrite Hd in H.
Qed.

Lemma has_keys_of_intro (base d : @ConfigStore.Dict Value) :
  (forall k, ConfigStore.dict_get d k = None ->
             ConfigStore.dict_get base k = None) ->
  keys_unique base = true ->
  has_keys_of base d = true.
Proof.
  unfold has_keys_of. induction base as [|[k0 v0] rest IH]; simpl;
    intros H Hu; [reflexivity|].
  destruct (ConfigStore.dict_get rest k0) eqn:E; [discriminate|].
  destruct (ConfigStore.dict_get d k0) eqn:Ed.
  - simpl. apply IH; [|exact Hu]. intros k Hk.
    specialize (H k Hk). destruct (String.eqb_spec k0 k); [discriminate|].
    exact H.
  - specialize (H k0 Ed). now rewrite String.eqb_refl in H.
Qed.

Lemma DEFAULT_CONFIG_unique :
  keys_unique (ConfigStore.DEFAULT_CONFIG of_int of_str) = true.
Proof. reflexivity. Qed.

Lemma load_config_get (file : ConfigStore.File) (k : string) :
  file_ok file = true ->
  ConfigStore.dict_get (ConfigStore._load_config of_int of_str file) k
  = match file with
    | ConfigStore.JsonObject config =>
        match ConfigStore.dict_get config k with
        | Some v => Some v
        | None =>
            ConfigStore.dict_get (ConfigStore.DEFAULT_CONFIG of_int of_str) k
        end
    | _ => ConfigStore.dict_get (ConfigStore.DEFAULT_CONFIG of_int of_str) k
    end.
Proof.
  destruct file as [| |config]; simpl; intros H; try reflexivity.
  now apply dict_get_update.
Qed.

Lemma config_ok_init (file : ConfigStore.File) :
  file_ok file = true ->
  config_ok of_int of_str (ConfigStore.__init__ of_int of_str file) = true.
Proof.
  intros H. unfold config_ok, ConfigStore.__init__.
  cbn [ConfigStore._config]. apply andb_true_iff. split.
  - destruct file as [| |config]; try reflexivity.
    apply keys_unique_update. reflexivity.
  - apply has_keys_of_intro; [|reflexivity]. intros k Hk.
    rewrite (load_config_get file k H) in Hk.
    destruct file as [| |config]; try exact Hk.
    now destruct (ConfigStore.dict_get config k).
Qed.

Lemma reload_get (cfg : @ConfigStore.Dict Value) (k : string) :
  keys_unique cfg = true ->
  has_keys_of (ConfigStore.DEFAULT_CONFIG of_int of_str) cfg = true ->
  ConfigStore.dict_get
    (ConfigStore._load_config of_int of_str (ConfigStore.JsonObject cfg)) k
  = ConfigStore.dict_get cfg k.
Proof.
  intros Hu Hk. rewrite (load_config_get (ConfigStore.JsonObject cfg) k Hu).
  destruct (ConfigStore.dict_get cfg k) eqn:E; [reflexivity|].
  exact (has_keys_of_get _ _ k Hk E).
Qed.

(** X18. A configuration is always loaded: from a missing or unreadable
    file it is the defaults; from a file holding a JSON object, each key has
    the file's value when the file has the key and the default's otherwise.
    In every case each default key is present and no key occurs twice. *)
Theorem load_config_merges (file : ConfigStore.File) :
  file_ok file = true ->
  let self := ConfigStore.__init__ of_int of_str file in
  (forall key default,
      ConfigStore.get key default self
      = match file with
        | ConfigStore.JsonObject config =>
            match ConfigStore.dict_get config key with
            | Some v => v
            | None =>
                ConfigStore.get key default
                  (ConfigStore.__init__ of_int of_str ConfigStore.Missing)
            end
        | _ =>
            ConfigStore.get key default
              (ConfigStore.__init__ of_int of_str ConfigStore.Missing)
        end)
  /\ (match file with
      | ConfigStore.JsonObject _ => True
      | _ => ConfigStore.get_all self
             = ConfigStore.DEFAULT_CONFIG of_int of_str
      end)
  /\ (forall key v,
         ConfigStore.dict_get (ConfigStore.DEFAULT_CONFIG of_int of_str) key
         = Some v ->
         ConfigStore.dict_get (ConfigStore.get_all self) key <> None)
  /\ keys_unique (ConfigStore.get_all self) = true.
Proof.
  intros H self.
  pose proof (config_ok_init file H) as Hok.
  unfold config_ok in Hok. apply andb_true_iff in Hok.
  destruct Hok as [Hu Hk].
  split; [|split; [|split]].
  - intros key default. unfold ConfigStore.get, self, ConfigStore.__init__.
    cbn [ConfigStore._config]. rewrite (load_config_get file key H).
    destruct file as [| |config]; try reflexivity.
    now destruct (ConfigStore.dict_get config key).
  - now destruct file.
  - intros key v Hd Hn.
    pose proof (has_keys_of_get _ _ key Hk Hn) as E. congruence.
  - exact Hu.
Qed.

(** X19. [set] stores the value and writes the file: afterwards [get]
    returns the new value for the key and what it returned before for every
    other key, and a configuration constructed from the file answers every
    [get] as this one does. [reset] likewise leaves the defaults in the
    object and in the file. Both keep the keys unique and the default keys
    present. *)
Theorem set_persists (self : ConfigStore.Self) (key : string)
        (value : Value) :
  config_ok of_int of_str self = true ->
  let self' := ConfigStore.set key value self in
  let cleared := ConfigStore.reset of_int of_str self in
  (forall default, ConfigStore.get key default self' = value)
  /\ (forall k default,
         k <> key ->
         ConfigStore.get k default self' = ConfigStore.get k default self)
  /\ (forall k default,
         ConfigStore.get k default
           (ConfigStore.__init__ of_int of_str
              (ConfigStore.config_file self'))
         = ConfigStore.get k default self')
  /\ config_ok of_int of_str self' = true
  /\ ConfigStore.__init__ of_int of_str (ConfigStore.config_file cleared)
     = cleared
  /\ ConfigStore.get_all cleared = ConfigStore.DEFAULT_CONFIG of_int of_str.
Proof.
  intros Hok self' cleared. unfold config_ok in Hok.
  apply andb_true_iff in Hok. destruct Hok as [Hu Hk].
  assert (Hu' : keys_unique (ConfigStore._config self') = true)
    by (now apply keys_unique_set).
  assert (Hk' : has_keys_of (ConfigStore.DEFAULT_CONFIG of_int of_str)
                            (ConfigStore._config self') = true).
  { apply has_keys_of_intro; [|reflexivity]. intros k Hn.
    unfold self', ConfigStore.set, ConfigStore._save_config in Hn.
    cbn [ConfigStore._config] in Hn. rewrite dict_get_set in Hn.
    destruct (String.eqb_spec key k); [discriminate|].
    exact (has_keys_of_get _ _ k Hk Hn). }
  split; [|split; [|split; [|split; [|split]]]].
  - intros default. unfold ConfigStore.get, self', ConfigStore.set,
      ConfigStore._save_config. cbn [ConfigStore._config].
    now rewrite dict_get_set, String.eqb_refl.
  - intros k default Hne. unfold ConfigStore.get, self', ConfigStore.set,
      ConfigStore._save_config. cbn [ConfigStore._config].
    rewrite dict_get_set. destruct (String.eqb_spec key k); [congruence|].
    reflexivity.
  - intros k default. unfold ConfigStore.get at 1, ConfigStore.__init__.
    cbn [ConfigStore._config].
    change (ConfigStore.config_file self')
      with (ConfigStore.JsonObject (ConfigStore._config self')).
    now rewrite (reload_get _ k Hu' Hk').
  - unfold config_ok. now rewrite Hu', Hk'.
  - reflexivity.
  - reflexivity.
Qed.

End ConfigFacts.

Lemma load_config_merges_witness :
  file_ok sample_file = true
  /\ ConfigStore.get "backoff_base" JNull
       (ConfigStore.__init__ JInt JStr sample_file) = JInt 3
  /\ ConfigStore.get "max_retries" JNull
       (ConfigStore.__init__ JInt JStr sample_file) = JInt 3
  /\ ConfigStore.get "theme" JNull
       (ConfigStore.__init__ JInt JStr sample_file) = JStr "dark".
Proof.
  split; [reflexivity|].
  pose proof (load_config_merges JInt JStr sample_file eq_refl) as H.
  destruct H as [H _].
  split; [|split]; rewrite H; reflexivity.
Defined.

Lemma set_persists_witness :
  config_ok JInt JStr (ConfigStore.__init__ JInt JStr sample_file) = true
  /\ ConfigStore.get "max_retries" JNull
       (ConfigStore.__init__ JInt JStr
          (ConfigStore.config_file
             (ConfigStore.set "max_retries" (JInt 5)
                (ConfigStore.__init__ JInt JStr sample_file))))
     = JInt 5.
Proof.
  split; [reflexivity|].
  pose proof (set_persists JInt JStr
                (ConfigStore.__init__ JInt JStr sample_file)
                "max_retries" (JInt 5) eq_refl) as H.
  destruct H as [H1 [_ [H3 _]]].
  rewrite H3. apply H1.
Defined.

(** * Further properties of the worker: order of execution *)

Lemma priority_desc_created_asc_key (a a' b b' : Job) :
  sort_key a = sort_key a' -> sort_key b = sort_key b' ->
  priority_desc_created_asc a b = priority_desc_created_asc a' b'.
Proof.
  unfold sort_key, priority_desc_created_asc.
  intros Ha Hb. injection Ha as -> ->. injection Hb as -> ->. reflexivity.
Qed.

Lemma priority_desc_created_asc_intro (a b : Job) :
  priority b <= priority a ->
  (priority b = priority a ->
   String.leb (created_at a) (created_at b) = true) ->
  priority_desc_created_asc a b = true.
Proof.
  intros Hle Htie. unfold priority_desc_created_asc.
  destruct (Z.ltb_spec (priority b) (priority a)) as [Hlt|Hge];
    [reflexivity|].
  assert (E : priority b = priority a) by lia.
  rewrite (Htie E), E, Z.eqb_refl. reflexivity.
Qed.

Lemma runs_before_keys (t0 t : Sql.Table) (a b : Job) :
  (forall i, option_map sort_key (row_with_id i t)
             = option_map sort_key (row_with_id i t0)) ->
  row_with_id (id a) t = Some a ->
  row_with_id (id b) t = Some b ->
  priority_desc_created_asc a b = true ->
  runs_before t0 (id a) (id b) = true.
Proof.
  intros Hk Ha Hb Hab. unfold runs_before.
  pose proof (Hk (id a)) as Ka. pose proof (Hk (id b)) as Kb.
  rewrite Ha in Ka. rewrite Hb in Kb.
  destruct (row_with_id (id a) t0) as [a0|]; [|discriminate].
  destruct (row_with_id (id b) t0) as [b0|]; [|discriminate].
  cbn [option_map] in Ka, Kb. rewrite <- Hab. symmetry.
  apply priority_desc_created_asc_key; congruence.
Qed.

Lemma pending_ids_In (t : Sql.Table) (p : string) :
  In p (pending_ids t) <->
  exists r, In r t /\ id r = p /\ state r = PENDING.
Proof.
  unfold pending_ids. rewrite in_map_iff. split.
  - intros [r [Hid Hin]]. apply filter_In in Hin. destruct Hin as [Hin Hs].
    exists r. split; [exact Hin|]. split; [exact Hid|].
    now apply JobState_eqb_eq.
  - intros [r [Hin [Hid Hs]]]. exists r. split; [exact Hid|].
    apply filter_In. split; [exact Hin|]. now apply JobState_eqb_eq.
Qed.

Lemma order_pass (env : Env) (config : Config) (ids0 : list string)
      (t0 : Sql.Table) (w : World) :
  drain_inv ids0 w ->
  order_inv t0 w ->
  order_inv t0 (exec (work_iteration env config) w).
Proof.
  intros [Hpk [Hrows Hperm]] [Hkeys [Hsorted Hbound]].
  pose proof (work_iteration_cases env config w Hpk) as Hc.
  destruct (get_next_job_cases env w Hpk) as [Hpk1 [Hex Hr]].
  cbv zeta in Hc.
  assert (Hnr : forall r, In r (jobs w) -> next_retry_at r = None)
    by (intros r Hin; apply (Hrows r Hin)).
  pose proof (get_next_job_no_retry env w Hnr) as Hnext.
  destruct (eval (get_next_job env) w) as [job|] eqn:Er.
  - destruct Hc as [J [reads [Hw' [Jid [Jst [_ [_ [_ [_ [_ Jpr]]]]]]]]]].
    destruct Hr as [Hrow [Hst Horigin]].
    assert (Hsame : jobs (exec (get_next_job env) w) = jobs w).
    { destruct Horigin as [[r0 [Hin [_ [Hdue _]]]]|[H _]]; [|exact H].
      apply failed_and_due_iff in Hdue. destruct Hdue as [_ [t [Ht _]]].
      rewrite (Hnr r0 Hin) in Ht. discriminate. }
    rewrite Hsame in Hrow, Hw'. rewrite Hex in Hw'.
    rewrite map_map in Hw'.
    assert (Hfid : forall r, id (write_row J (claim_row (id job) r)) = id r)
      by (intros r; now rewrite write_row_id, claim_row_id).
    assert (Hoth : forall r, id r <> id job ->
                             write_row J (claim_row (id job) r) = r).
    { intros r Hne. unfold claim_row.
      destruct (String.eqb_spec (id r) (id job)); [congruence|].
      simpl. apply write_row_other. congruence. }
    assert (Hkey : sort_key (write_row J (claim_row (id job) job))
                   = sort_key job).
    { unfold write_row. rewrite claim_row_id, Jid, String.eqb_refl.
      unfold claim_row.
      rewrite String.eqb_refl, (proj2 (JobState_eqb_eq _ _) Hst).
      unfold sort_key. simpl. now rewrite Jpr. }
    assert (Hnp : forall r, id r = id job ->
                            state (write_row J (claim_row (id job) r))
                            <> PENDING).
    { intros r He. unfold write_row.
      rewrite claim_row_id, He, Jid, String.eqb_refl. simpl.
      rewrite Jst. destruct (is_failure _); discriminate. }
    pose proof (pending_ids_after
                  (fun r => write_row J (claim_row (id job) r))
                  (id job) job (jobs w) Hpk Hoth Hnp Hrow Hst) as Hp.
    assert (Hmin : forall e p, e = id job \/ In e (executions w) ->
                               In p (pending_ids (jobs w)) ->
                               runs_before t0 e p = true).
    { intros e p [->|He] Hin; [|now apply Hbound].
      apply pending_ids_In in Hin. destruct Hin as [rp [Hin [<- Hsp]]].
      apply (runs_before_keys t0 (jobs w) job rp Hkeys Hrow).
      - now apply row_with_id_unique.
      - unfold eval in Er. rewrite Hnext in Er.
        destruct (get_next_pending_job_Some env (tick w) job Er)
          as [_ [_ Hbest]].
        assert (Hel : eligible (now_at env (tick w)) rp).
        { split; [exact Hsp|]. left. now apply (Hrows rp Hin). }
        destruct (Hbest rp Hin Hel) as [Hle Htie].
        now apply priority_desc_created_asc_intro. }
    rewrite Hw'. unfold order_inv. cbn [jobs executions].
    split; [|split].
    + intros i. rewrite (row_with_id_map _ Hfid), <- Hkeys.
      destruct (row_with_id i (jobs w)) as [r|] eqn:Ei; [|reflexivity].
      simpl. f_equal.
      destruct (String.eqb_spec i (id job)) as [->|Hne].
      * rewrite Hrow in Ei. injection Ei as <-. exact Hkey.
      * rewrite Hoth; [reflexivity|].
        apply row_with_id_Some in Ei. destruct Ei as [_ Hid]. congruence.
    + constructor; [exact Hsorted|].
      apply Forall_forall. intros e He. apply Hmin; [now right|].
      apply pending_ids_In. exists job. split; [|now split].
      apply row_with_id_Some in Hrow. apply Hrow.
    + intros e p He Hin. apply Hmin; [destruct He; auto|].
      apply (Permutation_in p Hp). now right.
  - rewrite Hc.
    assert (Hjobs : jobs (exec (get_next_job env) w) = jobs w) by exact Hr.
    unfold order_inv. rewrite Hjobs, Hex. now split.
Qed.

Lemma order_loop (env : Env) (config : Config) (ids0 : list string)
      (t0 : Sql.Table) (n : nat) (w : World) :
  drain_inv ids0 w ->
  order_inv t0 w ->
  order_inv t0 (exec (work_loop env config n) w).
Proof.
  revert w. induction n as [|n IH]; intros w Hinv Hord.
  - exact Hord.
  - destruct (drain_pass env config ids0 w Hinv) as [H1 _].
    pose proof (order_pass env config ids0 t0 w Hinv Hord) as O1.
    cbv zeta in *. unfold exec in *. simpl. unfold bind.
    destruct (work_iteration env config w) as [u w1]. cbn [snd] in *.
    exact (IH w1 H1 O1).
Qed.

Lemma StronglySorted_app_tail {A : Type} (R : A -> A -> Prop)
      (l1 l2 : list A) (x : A) :
  StronglySorted R (l1 ++ x :: l2) -> Forall (R x) l2.
Proof.
  induction l1 as [|y l1 IH]; simpl; intros H.
  - now apply StronglySorted_inv in H.
  - apply StronglySorted_inv in H. now apply IH.
Qed.

(** X20. Workers execute ready jobs in the order of the queue: when ids are
    unique, every job is pending with no [run_at] and no [next_retry_at],
    and nothing has been executed yet, then after any number of passes,
    whenever job [i] was executed before job [j], the priority of [i] is at
    least that of [j], and with equal priorities [i] was not created later
    than [j], whatever the commands did. *)
Theorem work_loop_priority_order (env : Env) (config : Config) (n : nat)
        (w0 : World) :
  primary_key_ok (jobs w0) = true ->
  (forall r, In r (jobs w0) ->
             state r = PENDING /\ run_at r = None /\ next_retry_at r = None) ->
  executions w0 = [] ->
  let w := exec (work_loop env config n) w0 in
  forall (later between earlier : list string) (i j : string),
    executions w = later ++ j :: between ++ i :: earlier ->
    exists a b,
      eval (get_job i) w0 = Some a
      /\ eval (get_job j) w0 = Some b
      /\ priority b <= priority a
      /\ (priority b = priority a ->
          String.leb (created_at a) (created_at b) = true).
Proof.
  intros Hpk Hall Hex w later between earlier i j Hrun.
  assert (Hids : pending_ids (jobs w0) = map id (jobs w0)).
  { apply pending_ids_all. intros r Hin. apply (Hall r Hin). }
  assert (Hinv : drain_inv (map id (jobs w0)) w0).
  { split; [exact Hpk|]. split.
    - intros r Hin. destruct (Hall r Hin) as [Hs [Hr Hnr]]. auto.
    - now rewrite Hex, Hids. }
  assert (Hord : order_inv (jobs w0) w0).
  { split; [reflexivity|]. rewrite Hex. split; [constructor|].
    intros e p []. }
  destruct (order_loop env config _ (jobs w0) n w0 Hinv Hord)
    as [_ [Hsorted _]].
  fold w in Hsorted. rewrite Hrun in Hsorted.
  apply StronglySorted_app_tail in Hsorted.
  rewrite Forall_forall in Hsorted.
  specialize (Hsorted i (in_elt i between earlier)).
  unfold runs_before in Hsorted. unfold eval, get_job. cbn [fst].
  destruct (row_with_id i (jobs w0)) as [a|]; [|discriminate].
  destruct (row_with_id j (jobs w0)) as [b|]; [|discriminate].
  exists a, b. split; [reflexivity|]. split; [reflexivity|].
  now apply priority_desc_created_asc_spec.
Qed.

Lemma work_loop_priority_order_witness :
  exists a b,
    eval (get_job (id hi_job)) (world_of ready_table) = Some a
    /\ eval (get_job (id low_job)) (world_of ready_table) = Some b
    /\ priority b <= priority a
    /\ (priority b = priority a ->
        String.leb (created_at a) (created_at b) = true).
Proof.
  assert (Hrun : exists later between earlier,
             executions (exec (work_loop frozen_env DEFAULT_CONFIG 3)
                              (world_of ready_table))
             = later ++ id low_job :: between ++ id hi_job :: earlier).
  { exists [id unclaimed_job], [], []. reflexivity. }
  destruct Hrun as [later [between [earlier Hrun]]].
  apply (work_loop_priority_order frozen_env DEFAULT_CONFIG 3
           (world_of ready_table)
           ltac:(reflexivity)
           ltac:(simpl; intros r [<-|[<-|[<-|[]]]]; repeat split)
           ltac:(reflexivity)
           later between earlier (id hi_job) (id low_job) Hrun).
Defined.
